(** * RETURNING-clause binding and DistSQL expression serialization

    A shallow embedding of

    - [pkg/sql/returning.go]: [returningHelper], [newReturningHelper],
      [cookResultRow] and the [IndexedVarContainer] methods of the helper;
    - the DistSQL planning helper [MakeExpression] with its formatting
      interceptors [exprFmtFlagsBase] and [exprFmtFlagsNoMap]
      (package [distsqlplan]);
    - the generated wire-format code of the store status (package
      [status]): [encodeVarintStatus], [sovStatus], [sozStatus],
      [skipStatus] and the methods [Size], [MarshalTo], [Marshal] and
      [Unmarshal] of [StoreStatus].

    Go values are modelled as the code has them: [int] is a 64-bit two's
    complement integer, a panic is an outcome distinct from an [error] return,
    a nil slice differs from an empty one, and [tree.Datums] values are slice
    headers into a store of backing arrays, so that aliasing and allocation
    are visible.  The package [tree] (expression nodes, their evaluation and
    formatting) is not part of the sources at hand; the definitions that stand
    for it say so in their documentation. *)

From Stdlib Require Import ZArith String Ascii DecimalString.
From stdpp Require Import base gmap strings list sorting.

(** ** Go: integers, errors, panics, buffers *)

Module Go.

Local Open Scope Z_scope.

(** [int] on the 64-bit platforms the engine is built for. *)
Definition max_int : Z := 2 ^ 63 - 1.
Definition min_int : Z := - 2 ^ 63.

(** Two's complement wrap-around of a mathematical integer. *)
Definition wrap (z : Z) : Z := (z + 2 ^ 63) mod 2 ^ 64 - 2 ^ 63.

(** [a + b] on [int]. *)
Definition int_add (a b : Z) : Z := wrap (a + b).

(** The [%d] verb of [fmt]: signed decimal. *)
Definition fmt_d (z : Z) : string := NilZero.string_of_int (Z.to_int z).

(** Values of the interface [error]: a plain formatted error
    ([errors.Errorf]), and, modelled from the spec (the error packages are
    missing), the two recoverable classes it names: an error raised while a
    statement is compiled and an error raised while a row is evaluated. *)
Inductive error : Type :=
| Errorf (msg : string)
| ConstructionError (msg : string)
| EvaluationError (msg : string).

(** [err.Error()]. *)
Definition Error (e : error) : string :=
  match e with
  | Errorf msg => msg
  | ConstructionError msg => msg
  | EvaluationError msg => msg
  end.

(** Run-time faults.  [InvalidMemory] marks a slice header without backing
    array in the store, which Go's memory safety excludes; it keeps the
    model total. *)
Inductive runtime_error : Type :=
| IndexOutOfRange
| NilDereference
| InvalidMemory.

(** The argument of [panic]. *)
Inductive panic_value : Type :=
| PanicString (s : string)
| PanicError (e : error)
| RuntimeError (r : runtime_error).

(** A call either returns or panics. *)
Inductive outcome (A : Type) : Type :=
| Returned (a : A)
| Panicked (p : panic_value).
Arguments Returned {A} a.
Arguments Panicked {A} p.

#[export] Instance outcome_ret : MRet outcome := @Returned.
#[export] Instance outcome_bind : MBind outcome :=
  fun A B k m =>
    match m with
    | Returned a => k a
    | Panicked p => Panicked p
    end.

(** The [(value, error)] result of a fallible call that did not panic. *)
Inductive result (A : Type) : Type :=
| Ok (a : A)
| Err (e : error).
Arguments Ok {A} a.
Arguments Err {A} e.

(** [bytes.Buffer], and code that writes to one. *)
Definition Buffer := string.
Definition Fmt := Buffer -> outcome Buffer.

Definition WriteString (s : string) : Fmt := fun buf => Returned (buf +:+ s).

(** [s[i]] on a slice held by value, with Go's bounds check. *)
Definition index {A : Type} (s : list A) (i : Z) : outcome A :=
  if decide (0 <= i)
  then match s !! Z.to_nat i with
       | Some x => Returned x
       | None => Panicked (RuntimeError IndexOutOfRange)
       end
  else Panicked (RuntimeError IndexOutOfRange).

(** [append(s, xs...)] on a slice that may be nil. *)
Definition append {A : Type} (s : option (list A)) (xs : list A)
  : option (list A) :=
  match s with
  | Some l => Some (l ++ xs)
  | None => match xs with [] => None | _ => Some xs end
  end.

End Go.
Export Go.

(** ** Package tree: datums, expressions, evaluation, formatting *)

Module tree.

Local Open Scope Z_scope.

(** Modelled from the spec: package [types] is missing; a resolved value
    type is one of the column types the statements above use. *)
Inductive T : Type := TBool | TInt | TUnknown | TAny.

(** Modelled from the spec: the datum types of [tree] are missing; a typed
    value is NULL, a boolean or a 64-bit integer. *)
Inductive Datum : Type :=
| DNull
| DBool (b : bool)
| DInt (i : Z).

(** *** The store of backing arrays *)

Abbreviation addr := positive (only parsing).

(** A cell of a [Datums] backing array holds a [Datum] interface value,
    which is nil ([None]) right after [make]. *)
Abbreviation heap := (gmap addr (list (option Datum))) (only parsing).

(** [tree.Datums], a slice of [Datum]: nil, or a window of [len] cells
    starting at [offset] in the array at [array]. *)
Inductive Datums : Type :=
| Datums_nil
| Datums_slice (array : addr) (offset len : nat).

Definition Datums_len (s : Datums) : nat :=
  match s with
  | Datums_nil => 0%nat
  | Datums_slice _ _ n => n
  end.

(** The cells a slice denotes in a store, when it has them all. *)
Definition Datums_elems (h : heap) (s : Datums) : option (list (option Datum)) :=
  match s with
  | Datums_nil => Some []
  | Datums_slice a off n =>
      match h !! a with
      | Some arr =>
          if decide (off + n <= length arr)%nat
          then Some (take n (drop off arr))
          else None
      | None => None
      end
  end.

(** [s[i]] with its bounds check. *)
Definition Datums_index (h : heap) (s : Datums) (i : Z) : outcome (option Datum) :=
  match s with
  | Datums_nil => Panicked (RuntimeError IndexOutOfRange)
  | Datums_slice a off n =>
      if decide (0 <= i < Z.of_nat n)
      then match h !! a with
           | Some arr =>
               match arr !! (off + Z.to_nat i)%nat with
               | Some c => Returned c
               | None => Panicked (RuntimeError InvalidMemory)
               end
           | None => Panicked (RuntimeError InvalidMemory)
           end
      else Panicked (RuntimeError IndexOutOfRange)
  end.

(** [s[i] = d] with its bounds check. *)
Definition Datums_store (h : heap) (s : Datums) (i : Z) (d : Datum) : outcome heap :=
  match s with
  | Datums_nil => Panicked (RuntimeError IndexOutOfRange)
  | Datums_slice a off n =>
      if decide (0 <= i < Z.of_nat n)
      then match h !! a with
           | Some arr =>
               if decide (off + Z.to_nat i < length arr)%nat
               then Returned (<[a := <[(off + Z.to_nat i)%nat := Some d]> arr]> h)
               else Panicked (RuntimeError InvalidMemory)
           | None => Panicked (RuntimeError InvalidMemory)
           end
      else Panicked (RuntimeError IndexOutOfRange)
  end.

(** [make(tree.Datums, n)]: a new array of [n] nil cells at an address the
    store does not use yet. *)
Definition make_Datums (h : heap) (n : nat) : heap * Datums :=
  let a := fresh (dom h) in
  (<[a := replicate n None]> h, Datums_slice a 0 n).

(** *** Evaluation context *)

(** Modelled from the spec: [tree.EvalContext] is missing; of the session
    state it holds, the placeholder bindings are what expressions read. *)
Record EvalContext : Type := mkEvalContext {
  Placeholders : gmap string Datum
}.

(** *** Formatting flags *)

(** Modelled from the spec: [tree.FmtFlags] is missing.  This is the part
    of the flags that is plain data. *)
Inductive fmtMode : Type := fmtSimple | fmtParsable.

(** Modelled from the spec: [tree.FmtFlags] with its two interceptors, as
    the closures of package [distsqlplan] use them.  An interceptor receives
    the flags in use (their plain part: a datum's text does not depend on
    the interceptors) and the leaf; the container argument of the Go
    signature, which no interceptor here reads, is left out. *)
Record FmtFlags : Type := mkFmtFlags {
  mode : fmtMode;
  placeholderFormat : option (fmtMode -> string -> Fmt);
  indexedVarFormat : option (fmtMode -> Z -> Fmt)
}.

(** Modelled from the spec: [tree.FmtParsable], the flags of the standard
    parsable form, without interceptor. *)
Definition FmtParsable : FmtFlags := mkFmtFlags fmtParsable None None.

(** Modelled from the spec: [tree.FmtPlaceholderFormat] is missing; the
    flags with the placeholder interceptor set. *)
Definition FmtPlaceholderFormat (base : FmtFlags)
    (placeholderFn : fmtMode -> string -> Fmt) : FmtFlags :=
  mkFmtFlags (mode base) (Some placeholderFn) (indexedVarFormat base).

(** Modelled from the spec: [tree.FmtIndexedVarFormat] is missing; the
    flags with the variable interceptor set. *)
Definition FmtIndexedVarFormat (base : FmtFlags)
    (fn : fmtMode -> Z -> Fmt) : FmtFlags :=
  mkFmtFlags (mode base) (placeholderFormat base) (Some fn).

(** *** Typed expressions *)

(** Modelled from the spec: the operators of [tree] are missing; the
    arithmetic ones are enough for the expressions considered here. *)
Inductive BinaryOperator : Type := Plus | Minus | Mult.

Definition BinaryOperator_String (op : BinaryOperator) : string :=
  match op with
  | Plus => "+"
  | Minus => "-"
  | Mult => "*"
  end.

(** Modelled from the spec: the node types of [tree] are missing.  A typed
    expression tree has literals, column references by ordinal
    ([IndexedVar], with Go's [int] index) and placeholders as leaves, and
    operator nodes above them.  The container an [IndexedVar] links to by
    reference is the one handed to [Eval]. *)
Inductive TypedExpr : Type :=
| DatumExpr (d : Datum)
| IndexedVar (Idx : Z)
| Placeholder (Name : string)
| BinaryExpr (Operator : BinaryOperator) (Left Right : TypedExpr).

(** The interface [tree.IndexedVarContainer], with the three methods
    [returning.go] implements and the arguments they have there.  An
    implementer is a Go object, so its evaluation method also reads the
    store. *)
Class IndexedVarContainer (C : Type) : Type := {
  IndexedVarEval : C -> heap -> Z -> EvalContext -> outcome (result Datum);
  IndexedVarResolvedType : C -> Z -> outcome T;
  IndexedVarFormat : C -> FmtFlags -> Z -> Fmt
}.

(** Modelled from the spec: [Datum.Eval] is missing; a datum is a value
    and evaluates to itself. *)
Definition Datum_Eval (d : Datum) (ctx : EvalContext) : result Datum := Ok d.

(** Modelled from the spec: [Placeholder.Eval] is missing; a placeholder
    evaluates to the value bound to its name, and its evaluation fails when
    none is. *)
Definition Placeholder_Eval (name : string) (ctx : EvalContext) : result Datum :=
  match Placeholders ctx !! name with
  | Some d => Datum_Eval d ctx
  | None => Err (EvaluationError ("no value provided for placeholder: $" +:+ name))
  end.

(** Modelled from the spec: the operator implementations of [tree] are
    missing.  NULL operands give NULL; integer arithmetic fails when the
    result leaves the 64-bit range; other operand types are a coercion
    failure. *)
Definition BinaryOperator_fn (op : BinaryOperator) (a b : Z) : Z :=
  match op with
  | Plus => a + b
  | Minus => a - b
  | Mult => a * b
  end.

Definition BinaryOp_Eval (op : BinaryOperator) (l r : Datum) : result Datum :=
  match l, r with
  | DNull, _ | _, DNull => Ok DNull
  | DInt a, DInt b =>
      let v := BinaryOperator_fn op a b in
      if decide (min_int <= v <= max_int)
      then Ok (DInt v)
      else Err (EvaluationError "integer out of range")
  | _, _ =>
      Err (EvaluationError
             ("unsupported binary operator: " +:+ BinaryOperator_String op))
  end.

(** Modelled from the spec: [TypedExpr.Eval] is missing.  Operands are
    evaluated left to right, the first error ends the evaluation, and a
    variable leaf resolves through the container's [IndexedVarEval]. *)
Fixpoint Eval `{IndexedVarContainer C} (c : C) (h : heap) (ctx : EvalContext)
    (e : TypedExpr) : outcome (result Datum) :=
  match e with
  | DatumExpr d => Returned (Datum_Eval d ctx)
  | IndexedVar idx => IndexedVarEval c h idx ctx
  | Placeholder name => Returned (Placeholder_Eval name ctx)
  | BinaryExpr op l r =>
      rl ← Eval c h ctx l;
      match rl with
      | Err err => Returned (Err err)
      | Ok dl =>
          rr ← Eval c h ctx r;
          match rr with
          | Err err => Returned (Err err)
          | Ok dr => Returned (BinaryOp_Eval op dl dr)
          end
      end
  end.

(** *** Formatting *)

(** Modelled from the spec: [Datum.Format] is missing; the literal text of
    a datum. *)
Definition Datum_String (d : Datum) : string :=
  match d with
  | DNull => "NULL"
  | DBool true => "true"
  | DBool false => "false"
  | DInt i => fmt_d i
  end.

(** [d.Format(buf, flags)] writes that text. *)
Definition Datum_Format (d : Datum) (flags : fmtMode) : Fmt :=
  WriteString (Datum_String d).

(** Modelled from the spec: the text must parse back to the same tree, so
    an operand that is itself an operator expression is parenthesized. *)
Definition isOperatorExpr (e : TypedExpr) : bool :=
  match e with
  | BinaryExpr _ _ _ => true
  | _ => false
  end.

Definition withParen (paren : bool) (m : Fmt) : Fmt :=
  if paren
  then fun buf => buf' ← m (buf +:+ "("); WriteString ")" buf'
  else m.

(** Modelled from the spec: [tree.FormatNode] is missing.  A leaf for which
    the flags hold an interceptor is written by the interceptor.  Without
    one, a variable is rendered by the container it links to, through the
    container's [IndexedVarFormat] with the flags in use, and a placeholder
    is written by name.  As for [Eval], the container the variables link to
    by reference is the one handed to [FormatNode]. *)
Fixpoint FormatNode `{IndexedVarContainer C} (c : C) (f : FmtFlags)
    (e : TypedExpr) : Fmt :=
  match e with
  | DatumExpr d => Datum_Format d (mode f)
  | IndexedVar idx =>
      match indexedVarFormat f with
      | Some fn => fn (mode f) idx
      | None => IndexedVarFormat c f idx
      end
  | Placeholder name =>
      match placeholderFormat f with
      | Some fn => fn (mode f) name
      | None => WriteString ("$" +:+ name)
      end
  | BinaryExpr op l r =>
      fun buf =>
        buf1 ← withParen (isOperatorExpr l) (FormatNode c f l) buf;
        buf2 ← WriteString (" " +:+ BinaryOperator_String op +:+ " ") buf1;
        withParen (isOperatorExpr r) (FormatNode c f r) buf2
  end.

(** *** Source expressions and RETURNING clauses *)

(** Modelled from the spec: function definitions are missing; what the
    binder needs of a function is whether it aggregates. *)
Inductive FunctionClass : Type := NormalClass | AggregateClass | WindowClass.

Definition isAggregateClass (c : FunctionClass) : bool :=
  match c with
  | AggregateClass => true
  | _ => false
  end.

(** Modelled from the spec: a function reference, shown with the definition
    the search path selects for it. *)
Record FunctionReference : Type := mkFunctionReference {
  FunctionName : string;
  Class : FunctionClass
}.

(** Modelled from the spec: the untyped nodes of [tree] are missing.  A
    source expression has numeric constants, column names, the star,
    placeholders, operators and function applications, the latter with an
    optional window definition (OVER). *)
#[warnings="-register-all"]
Inductive Expr : Type :=
| NumVal (v : Z)
| UnresolvedName (name : string)
| UnqualifiedStar
| PlaceholderRef (name : string)
| BinaryOp (op : BinaryOperator) (l r : Expr)
| FuncExpr (Func : FunctionReference) (Exprs : list Expr) (WindowDef : bool).

(** [tree.SelectExpr], with the field [Expr] that [returning.go] reads and
    the optional alias. *)
Record SelectExpr : Type := mkSelectExpr {
  SelectExpr_Expr : Expr;
  As : option string
}.

(** [tree.ReturningExprs], the slice [returning.go] ranges over. *)
Definition ReturningExprs := list SelectExpr.

(** The dynamic types a [tree.ReturningClause] interface value is switched
    on: the three clause kinds, and [OtherClause] for a value of any other
    dynamic type (the nil interface included), with the text [%T] prints
    for it. *)
Inductive ReturningClause : Type :=
| ReturningExprsClause (t : ReturningExprs)
| ReturningNothing
| NoReturningClause
| OtherClause (typeName : string).

(** Modelled from the spec: [tree.MakeIndexedVarHelper(container, numVars)]
    is missing; the helper holds the number of variables, and the container
    is the one handed to [Eval]. *)
Record IndexedVarHelper : Type := MakeIndexedVarHelper {
  numVars : nat
}.

End tree.
Export tree.

(** ** Package transform: the aggregation and windowing check *)

Module transform.

(** Modelled from the spec: an aggregation construct is the application of
    an aggregate function without a window definition, anywhere in the
    expression. *)
Fixpoint AggregateInExpr (e : Expr) : bool :=
  match e with
  | BinaryOp _ l r => AggregateInExpr l || AggregateInExpr r
  | FuncExpr fn args w =>
      (isAggregateClass (Class fn) && negb w)
      || existsb AggregateInExpr args
  | _ => false
  end.

(** Modelled from the spec: a windowing construct is a function
    application with a window definition, anywhere in the expression. *)
Fixpoint WindowFuncInExpr (e : Expr) : bool :=
  match e with
  | BinaryOp _ l r => WindowFuncInExpr l || WindowFuncInExpr r
  | FuncExpr fn args w => w || existsb WindowFuncInExpr args
  | _ => false
  end.

(** Modelled from the spec: [AssertNoAggregationOrWindowing] is missing.
    An expression with an aggregation or a windowing construct is rejected
    with a [ConstructionError] that names the clause [op]. *)
Definition AssertNoAggregationOrWindowing (e : Expr) (op : string)
    (searchPath : list string) : option error :=
  if AggregateInExpr e
  then Some (ConstructionError ("aggregate functions are not allowed in " +:+ op))
  else if WindowFuncInExpr e
  then Some (ConstructionError ("window functions are not allowed in " +:+ op))
  else None.

End transform.

(** ** Package sqlbase: column descriptors and result columns *)

Module sqlbase.

(** Modelled from the spec: [sqlbase.ColumnDescriptor] is missing; a
    column has a name and a resolved type, and its ordinal is its position
    in the schema. *)
Record ColumnDescriptor : Type := mkColumnDescriptor {
  Name : string;
  Type_ : T
}.

(** [sqlbase.ResultColumn], with the field [Typ] that [returning.go] reads
    and the name. *)
Record ResultColumn : Type := mkResultColumn {
  ResultColumn_Name : string;
  Typ : T
}.

Definition ResultColumns := list ResultColumn.

(** Modelled from the spec: [ResultColumnsFromColDescs] is missing; one
    result column per descriptor, in schema order, with its name and
    type. *)
Definition ResultColumnsFromColDescs (colDescs : list ColumnDescriptor)
  : ResultColumns :=
  map (fun c => mkResultColumn (Name c) (Type_ c)) colDescs.

End sqlbase.

(** ** Package distsqlrun: the wire expression *)

Module distsqlrun.

(** [distsqlrun.Expression], with the field [Expr] that [MakeExpression]
    sets: the rendered text. *)
Record Expression : Type := mkExpression {
  Expr : string
}.

End distsqlrun.

(** ** Package distsqlplan: populating wire expressions *)

Module distsqlplan.

Local Open Scope Z_scope.

(** [exprFmtFlagsBase]: the flags used for serializing expressions, to
    which a variable interceptor is added.  Placeholders are replaced with
    their values. *)
Definition exprFmtFlagsBase (evalCtx : EvalContext) : FmtFlags :=
  FmtPlaceholderFormat FmtParsable
    (fun flags p buf =>
       match Placeholder_Eval p evalCtx with
       | Err err =>
           Panicked (PanicString
                       ("failed to serialize placeholder: " +:+ Error err))
       | Ok d => Datum_Format d flags buf
       end).

(** [exprFmtFlagsNoMap]: the flags for expressions whose variables are not
    remapped. *)
Definition exprFmtFlagsNoMap (evalCtx : EvalContext) : FmtFlags :=
  FmtIndexedVarFormat (exprFmtFlagsBase evalCtx)
    (fun _ idx => WriteString ("@" +:+ fmt_d (int_add idx 1))).

(** The variable interceptor [MakeExpression] builds around a non-nil
    [indexVarMap]. *)
Definition indexVarMapFormat (indexVarMap : list Z) : fmtMode -> Z -> Fmt :=
  fun _ idx buf =>
    remappedIdx ← index indexVarMap idx;
    if decide (remappedIdx < 0)
    then Panicked (PanicString ("unmapped index " +:+ fmt_d idx))
    else WriteString ("@" +:+ fmt_d (int_add remappedIdx 1)) buf.

(** [MakeExpression].  [expr] and [indexVarMap] may be nil.  The verbose
    logging branch writes to the log only and is left out.  The variables
    of [expr] link to their container by reference; [c] is that container,
    which [tree.FormatNode] reaches through them. *)
Definition MakeExpression `{IndexedVarContainer C} (c : C)
    (expr : option TypedExpr) (evalCtx : EvalContext)
    (indexVarMap : option (list Z)) : outcome distsqlrun.Expression :=
  match expr with
  | None => Returned (distsqlrun.mkExpression "")
  | Some e =>
      let f :=
        match indexVarMap with
        | None => exprFmtFlagsNoMap evalCtx
        | Some m =>
            FmtIndexedVarFormat (exprFmtFlagsBase evalCtx) (indexVarMapFormat m)
        end in
      buf ← FormatNode c f e "";
      Returned (distsqlrun.mkExpression buf)
  end.

End distsqlplan.

(** ** Package sql: the RETURNING helper *)

Module sql.

Import sqlbase.
Local Open Scope Z_scope.

(** The session, with the field [SearchPath] the constructor reads. *)
Record Session : Type := mkSession {
  SearchPath : list string
}.

(** The fields of the planner the helper reads. *)
Record planner : Type := mkPlanner {
  evalCtx : EvalContext;
  session : Session
}.

(** [dataSourceInfo], with the field [sourceColumns] the helper reads and
    the name of the table. *)
Record dataSourceInfo : Type := mkDataSourceInfo {
  sourceColumns : ResultColumns;
  sourceAlias : string
}.

(** [multiSourceInfo], a slice of pointers to sources. *)
Definition multiSourceInfo := list (option dataSourceInfo).

(** Modelled from the spec: [newSourceInfoForSingleTable] is missing; the
    source of a single table is its name and its columns. *)
Definition newSourceInfoForSingleTable (tn : string) (columns : ResultColumns)
  : dataSourceInfo :=
  mkDataSourceInfo columns tn.

(** [returningHelper].  The slices [columns] and [exprs] may be nil, and so
    may the pointer [source]; [curSourceRow] is a slice header into the
    store.  The helper is a heap object that is never copied: each call
    below takes its state and gives back the state it leaves. *)
Record returningHelper : Type := mkReturningHelper {
  p : planner;
  columns : option ResultColumns;
  exprs : option (list TypedExpr);
  rowCount : Z;
  source : option dataSourceInfo;
  curSourceRow : Datums
}.

Definition set_columns (rh : returningHelper) (v : option ResultColumns) :=
  mkReturningHelper (p rh) v (exprs rh) (rowCount rh) (source rh) (curSourceRow rh).
Definition set_exprs (rh : returningHelper) (v : option (list TypedExpr)) :=
  mkReturningHelper (p rh) (columns rh) v (rowCount rh) (source rh) (curSourceRow rh).
Definition set_rowCount (rh : returningHelper) (v : Z) :=
  mkReturningHelper (p rh) (columns rh) (exprs rh) v (source rh) (curSourceRow rh).
Definition set_source (rh : returningHelper) (v : option dataSourceInfo) :=
  mkReturningHelper (p rh) (columns rh) (exprs rh) (rowCount rh) v (curSourceRow rh).
Definition set_curSourceRow (rh : returningHelper) (v : Datums) :=
  mkReturningHelper (p rh) (columns rh) (exprs rh) (rowCount rh) (source rh) v.

(** *** The helper as an [IndexedVarContainer] *)

(** [IndexedVarEval]: [rh.curSourceRow[idx].Eval(ctx)]. *)
Definition returningHelper_IndexedVarEval (rh : returningHelper) (h : heap)
    (idx : Z) (ctx : EvalContext) : outcome (result Datum) :=
  c ← Datums_index h (curSourceRow rh) idx;
  match c with
  | Some d => Returned (Datum_Eval d ctx)
  | None => Panicked (RuntimeError NilDereference)
  end.

(** [IndexedVarResolvedType]: [rh.source.sourceColumns[idx].Typ]. *)
Definition returningHelper_IndexedVarResolvedType (rh : returningHelper)
    (idx : Z) : outcome T :=
  match source rh with
  | None => Panicked (RuntimeError NilDereference)
  | Some src => c ← index (sourceColumns src) idx; Returned (Typ c)
  end.

(** [dataSourceInfo.FormatVar] is a method of another file, and nothing at
    hand says what it writes for a source, flags and an index: the helper
    is defined for any such method.  The method reads the source it is
    called on, so a call on a nil source is a nil dereference. *)
Class FormatVarMethod : Type :=
  FormatVar : dataSourceInfo -> FmtFlags -> Z -> Fmt.

(** [IndexedVarFormat]: [rh.source.FormatVar(buf, f, idx)]. *)
Definition returningHelper_IndexedVarFormat {fv : FormatVarMethod}
    (rh : returningHelper) (f : FmtFlags) (idx : Z) : Fmt :=
  fun buf =>
    match source rh with
    | None => Panicked (RuntimeError NilDereference)
    | Some src => FormatVar src f idx buf
    end.

#[export] Instance returningHelper_container {fv : FormatVarMethod}
  : IndexedVarContainer returningHelper := {
  IndexedVarEval := returningHelper_IndexedVarEval;
  IndexedVarResolvedType := returningHelper_IndexedVarResolvedType;
  IndexedVarFormat := returningHelper_IndexedVarFormat
}.

(** *** Construction *)

Section newReturningHelper.

(** The check and the resolver are methods of the planner that live in
    other files; the constructor is defined for any of them. *)
Variable AssertNoAggregationOrWindowing : Expr -> string -> list string -> option error.
Variable renderNameGen : Type.
Variable autoGenerateRenderOutputName : renderNameGen.
Variable computeRenderAllowingStars :
  planner -> SelectExpr -> T -> multiSourceInfo -> IndexedVarHelper ->
  renderNameGen -> ResultColumns * list TypedExpr * bool * option error.

(** The first loop: every source expression is checked; the first error
    ends the construction. *)
Fixpoint assertReturningExprs (p0 : planner) (rExprs : ReturningExprs)
  : option error :=
  match rExprs with
  | [] => None
  | e :: rest =>
      match AssertNoAggregationOrWindowing (SelectExpr_Expr e) "RETURNING"
              (SearchPath (session p0)) with
      | Some err => Some err
      | None => assertReturningExprs p0 rest
      end
  end.

(** The second loop: every target is resolved, and what it expands to is
    appended to [columns] and [exprs]. *)
Fixpoint renderReturningExprs (rh : returningHelper) (ivarHelper : IndexedVarHelper)
    (rExprs : ReturningExprs) : option returningHelper * option error :=
  match rExprs with
  | [] => (Some rh, None)
  | target :: rest =>
      let '(cols, typedExprs, _, err) :=
        computeRenderAllowingStars (p rh) target TAny [source rh] ivarHelper
          autoGenerateRenderOutputName in
      match err with
      | Some err => (None, Some err)
      | None =>
          let rh := set_columns rh (append (columns rh) cols) in
          let rh := set_exprs rh (append (exprs rh) typedExprs) in
          renderReturningExprs rh ivarHelper rest
      end
  end.

(** [newReturningHelper]. *)
Definition newReturningHelper (p0 : planner) (r : ReturningClause)
    (desiredTypes : list T) (tn : string) (tablecols : list ColumnDescriptor)
  : outcome (option returningHelper * option error) :=
  let rh := mkReturningHelper p0 None None 0 None Datums_nil in
  match r with
  | ReturningExprsClause rExprs =>
      match assertReturningExprs p0 rExprs with
      | Some err => Returned (None, Some err)
      | None =>
          let rh := set_columns rh (Some []) in
          let rh :=
            set_source rh
              (Some (newSourceInfoForSingleTable tn
                       (ResultColumnsFromColDescs tablecols))) in
          let rh := set_exprs rh (Some []) in
          let ivarHelper := MakeIndexedVarHelper (length tablecols) in
          Returned (renderReturningExprs rh ivarHelper rExprs)
      end
  | ReturningNothing | NoReturningClause => Returned (Some rh, None)
  | OtherClause t =>
      Panicked (PanicError (Errorf ("unexpected ReturningClause type: " +:+ t)))
  end.

End newReturningHelper.

(** *** Row evaluation *)

(** The loop of [cookResultRow] over [rh.exprs], from position [i] on. *)
Fixpoint cookExprs {fv : FormatVarMethod} (rh : returningHelper)
    (resRow : Datums) (i : nat) (es : list TypedExpr) (h : heap)
  : outcome (heap * option error) :=
  match es with
  | [] => Returned (h, None)
  | e :: es' =>
      r ← Eval rh h (evalCtx (p rh)) e;
      match r with
      | Err err => Returned (h, Some err)
      | Ok d =>
          h' ← Datums_store h resRow (Z.of_nat i) d;
          cookExprs rh resRow (S i) es' h'
      end
  end.

(** [cookResultRow]: the helper and the store it leaves, and the row and
    error it returns. *)
Definition cookResultRow {fv : FormatVarMethod} (rh : returningHelper)
    (h : heap) (rowVals : Datums)
  : outcome (returningHelper * heap * (Datums * option error)) :=
  match exprs rh with
  | None =>
      Returned (set_rowCount rh (int_add (rowCount rh) 1), h, (rowVals, None))
  | Some es =>
      let rh := set_curSourceRow rh rowVals in
      let '(h, resRow) := make_Datums h (length es) in
      '(h, err) ← cookExprs rh resRow 0 es h;
      match err with
      | Some err => Returned (rh, h, (Datums_nil, Some err))
      | None => Returned (rh, h, (resRow, None))
      end
  end.

(** *** A resolver for single-table targets *)

(** Modelled from the spec: the text a result column is named after when
    the target has no alias. *)
Fixpoint Expr_String (e : Expr) : string :=
  match e with
  | NumVal v => fmt_d v
  | UnresolvedName name => name
  | UnqualifiedStar => "*"
  | PlaceholderRef name => "$" +:+ name
  | BinaryOp op l r =>
      Expr_String l +:+ " " +:+ BinaryOperator_String op +:+ " " +:+ Expr_String r
  | FuncExpr fn args w =>
      FunctionName fn +:+ "("
        +:+ fold_right (fun a acc => Expr_String a +:+ "," +:+ acc) "" args +:+ ")"
  end.

(** Modelled from the spec: the ordinal and type of the first column called
    [name], ordinals counting from [i]. *)
Fixpoint findColumn (name : string) (cols : ResultColumns) (i : Z)
  : option (Z * T) :=
  match cols with
  | [] => None
  | c :: rest =>
      if decide (ResultColumn_Name c = name)
      then Some (i, Typ c)
      else findColumn name rest (i + 1)
  end.

(** Modelled from the spec: the types an arithmetic operator accepts. *)
Definition isNumeric (t : T) : bool :=
  match t with
  | TBool => false
  | _ => true
  end.

(** Modelled from the spec: name resolution and type checking are missing.
    A column name resolves to the variable at the column's ordinal in the
    schema, ordinals counting from 0; an unknown name and an operator applied
    to a boolean are construction errors.  The star below an operator and
    function applications are outside the fragment this resolver covers and
    are rejected. *)
Fixpoint analyzeExpr (cols : ResultColumns) (e : Expr) : result (TypedExpr * T) :=
  match e with
  | NumVal v => Ok (DatumExpr (DInt v), TInt)
  | UnresolvedName name =>
      match findColumn name cols 0 with
      | Some (i, t) => Ok (IndexedVar i, t)
      | None => Err (ConstructionError ("column name not found: " +:+ name))
      end
  | UnqualifiedStar => Err (ConstructionError "star is not allowed here")
  | PlaceholderRef name => Ok (Placeholder name, TAny)
  | BinaryOp op l r =>
      match analyzeExpr cols l with
      | Err err => Err err
      | Ok (tl, tyl) =>
          match analyzeExpr cols r with
          | Err err => Err err
          | Ok (tr, tyr) =>
              if isNumeric tyl && isNumeric tyr
              then Ok (BinaryExpr op tl tr, TInt)
              else Err (ConstructionError
                          ("unsupported binary operator: "
                             +:+ BinaryOperator_String op))
          end
      end
  | FuncExpr fn _ _ =>
      Err (ConstructionError ("unknown function: " +:+ FunctionName fn))
  end.

(** Modelled from the spec: what the star expands to, the variables of all
    columns of the schema in schema order. *)
Fixpoint starExprs (cols : ResultColumns) (i : Z) : list TypedExpr :=
  match cols with
  | [] => []
  | _ :: rest => IndexedVar i :: starExprs rest (i + 1)
  end.

(** Modelled from the spec: [computeRenderAllowingStars] is missing.  A star
    target expands to one result column and one variable per column of the
    schema; any other target is resolved to one typed expression, named by
    its alias or after its text. *)
Definition computeRenderAllowingStars (p0 : planner) (target : SelectExpr)
    (desiredType : T) (info : multiSourceInfo) (ivarHelper : IndexedVarHelper)
    (outputName : bool) : ResultColumns * list TypedExpr * bool * option error :=
  let cols :=
    match info with
    | Some src :: _ => sourceColumns src
    | _ => []
    end in
  match SelectExpr_Expr target with
  | UnqualifiedStar => (cols, starExprs cols 0, true, None)
  | e =>
      match analyzeExpr cols e with
      | Err err => ([], [], false, Some err)
      | Ok (te, ty) =>
          let name :=
            match As target with
            | Some alias => alias
            | None => if outputName then Expr_String e else ""
            end in
          ([mkResultColumn name ty], [te], false, None)
      end
  end.

(** The constructor with the check of package [transform] and the resolver
    above. *)
Definition newReturningHelper_single :=
  newReturningHelper transform.AssertNoAggregationOrWindowing bool true
    computeRenderAllowingStars.

End sql.

(** ** Package status: the wire form of the store and node statuses *)

Module status.

Local Open Scope Z_scope.

(** A call whose loops are given a bound on their iterations: it returns,
    it panics, or it is cut off at the bound ([OutOfFuel]); the statements
    below show which bound is enough. *)
Inductive run (A : Type) : Type :=
| Ret (a : A)
| Panic (pv : panic_value)
| OutOfFuel.
Arguments Ret {A} a.
Arguments Panic {A} pv.
Arguments OutOfFuel {A}.

#[export] Instance run_ret : MRet run := @Ret.
#[export] Instance run_bind : MBind run :=
  fun A B k m =>
    match m with
    | Ret a => k a
    | Panic pv => Panic pv
    | OutOfFuel => OutOfFuel
    end.

(** The conversions [uint8(z)], [uint64(z)] and [int32(z)]; [int(z)] and
    [int64(z)] are [wrap]. *)
Definition uint8 (z : Z) : Z := z mod 2 ^ 8.
Definition uint64 (z : Z) : Z := z mod 2 ^ 64.
Definition int32 (z : Z) : Z := (z + 2 ^ 31) mod 2 ^ 32 - 2 ^ 31.

(** The error values of the package, and [io.ErrUnexpectedEOF]. *)
Definition ErrInvalidLengthStatus : error :=
  Errorf "proto: negative length found during unmarshaling".
Definition ErrIntOverflowStatus : error := Errorf "proto: integer overflow".
Definition ErrUnexpectedEOF : error := Errorf "unexpected EOF".

(** [dAtA[i] = b] on a byte slice, with Go's bounds check; the slice after
    the store. *)
Definition setByte (dAtA : list Z) (i : Z) (b : Z) : run (list Z) :=
  if decide (0 <= i < Z.of_nat (length dAtA))
  then Ret (<[Z.to_nat i := b]> dAtA)
  else Panic (RuntimeError IndexOutOfRange).

(** The loop of [encodeVarintStatus], with at most [fuel] passes through
    its body. *)
Fixpoint encodeVarintStatus_loop (fuel : nat) (dAtA : list Z) (offset v : Z)
  : run (list Z * Z) :=
  if decide (v >= 2 ^ 7)
  then match fuel with
       | O => OutOfFuel
       | S fuel =>
           dAtA ← setByte dAtA offset (uint8 (Z.lor (Z.land v 127) 128));
           encodeVarintStatus_loop fuel dAtA (int_add offset 1) (Z.shiftr v 7)
       end
  else
    dAtA ← setByte dAtA offset (uint8 v);
    Ret (dAtA, int_add offset 1).

(** [encodeVarintStatus]: the slice after the writes, and the offset after
    the last byte written.  A [uint64] has ten groups of seven bits. *)
Definition encodeVarintStatus (dAtA : list Z) (offset v : Z) : run (list Z * Z) :=
  encodeVarintStatus_loop 10 dAtA offset v.

(** The loop of [sovStatus], with at most [fuel] further passes after the
    first. *)
Fixpoint sovStatus_loop (fuel : nat) (n x : Z) : run Z :=
  let n := int_add n 1 in
  let x := Z.shiftr x 7 in
  if decide (x = 0)
  then Ret n
  else match fuel with
       | O => OutOfFuel
       | S fuel => sovStatus_loop fuel n x
       end.

(** [sovStatus]: the size of a varint. *)
Definition sovStatus (x : Z) : run Z := sovStatus_loop 10 0 x.

(** [sozStatus]: the size of a zigzag varint. *)
Definition sozStatus (x : Z) : run Z :=
  sovStatus (uint64 (Z.lxor (uint64 (Z.shiftl x 1))
                            (uint64 (Z.shiftr (wrap x) 63)))).

(** The statement that accumulates a byte in the varint loops of the
    decoders: [wire |= (uint64(b) & 0x7F) << shift] on a [uint64],
    [msglen |= (int(b) & 0x7F) << shift] on an [int], and nothing where the
    varint is only skipped. *)
Definition accumUint64 (acc b shift : Z) : Z :=
  Z.lor acc (uint64 (Z.shiftl (Z.land (uint64 b) 127) shift)).
Definition accumInt (acc b shift : Z) : Z :=
  Z.lor acc (wrap (Z.shiftl (Z.land b 127) shift)).
Definition accumNone (acc b shift : Z) : Z := acc.

(** The varint loop the decoders repeat,
    [for shift := uint(0); ; shift += 7 { ... }], over the bytes from
    [iNdEx] on ([iNdEx >= l] is the end of [rest]): the value and the index
    after the varint, or the error returned. *)
Fixpoint varintLoop (accum : Z -> Z -> Z -> Z) (rest : list Z)
    (shift acc iNdEx : Z) : result (Z * Z) :=
  if decide (shift >= 64)
  then Err ErrIntOverflowStatus
  else match rest with
       | [] => Err ErrUnexpectedEOF
       | b :: rest' =>
           let iNdEx := int_add iNdEx 1 in
           let acc := accum acc b shift in
           if decide (b < 128)
           then Ok (acc, iNdEx)
           else varintLoop accum rest' (shift + 7) acc iNdEx
       end.

(** The loop started at an index of [dAtA]; a negative index passes the
    test [iNdEx >= l] and faults at [dAtA[iNdEx]]. *)
Definition readVarint (accum : Z -> Z -> Z -> Z) (dAtA : list Z) (iNdEx : Z)
  : run (result (Z * Z)) :=
  if decide (iNdEx < 0)
  then Panic (RuntimeError IndexOutOfRange)
  else Ret (varintLoop accum (drop (Z.to_nat iNdEx) dAtA) 0 0 iNdEx).

(** [skipStatus], and the loop of its group case.  [fuel] bounds the calls
    and the passes through the group loop together. *)
Fixpoint skipStatus (fuel : nat) (dAtA : list Z) : run (Z * option error) :=
  match fuel with
  | O => OutOfFuel
  | S fuel =>
      if decide (0 < Z.of_nat (length dAtA))
      then
        r ← readVarint accumUint64 dAtA 0;
        match r with
        | Err err => Ret (0, Some err)
        | Ok (wire, iNdEx) =>
            let wireType := wrap (Z.land wire 7) in
            if decide (wireType = 0) then
              r ← readVarint accumNone dAtA iNdEx;
              match r with
              | Err err => Ret (0, Some err)
              | Ok (_, iNdEx) => Ret (iNdEx, None)
              end
            else if decide (wireType = 1) then
              Ret (int_add iNdEx 8, None)
            else if decide (wireType = 2) then
              r ← readVarint accumInt dAtA iNdEx;
              match r with
              | Err err => Ret (0, Some err)
              | Ok (length, iNdEx) =>
                  let iNdEx := int_add iNdEx length in
                  if decide (length < 0)
                  then Ret (0, Some ErrInvalidLengthStatus)
                  else Ret (iNdEx, None)
              end
            else if decide (wireType = 3) then
              skipGroup fuel dAtA iNdEx
            else if decide (wireType = 4) then
              Ret (iNdEx, None)
            else if decide (wireType = 5) then
              Ret (int_add iNdEx 4, None)
            else
              Ret (0, Some (Errorf ("proto: illegal wireType "
                                      +:+ fmt_d wireType)))
        end
      else Panic (PanicString "unreachable")
  end
with skipGroup (fuel : nat) (dAtA : list Z) (iNdEx : Z)
  : run (Z * option error) :=
  match fuel with
  | O => OutOfFuel
  | S fuel =>
      let start := iNdEx in
      r ← readVarint accumUint64 dAtA iNdEx;
      match r with
      | Err err => Ret (0, Some err)
      | Ok (innerWire, iNdEx) =>
          let innerWireType := wrap (Z.land innerWire 7) in
          if decide (innerWireType = 4)
          then Ret (iNdEx, None)
          else
            '(next, err) ← skipStatus fuel (drop (Z.to_nat start) dAtA);
            match err with
            | Some err => Ret (0, Some err)
            | None => skipGroup fuel dAtA (int_add start next)
            end
      end
  end.

(** *** Slices, strings and fixed 64 bits *)

(** The errors of the runtime for a slice expression out of bounds and for
    a [make] with a negative length, held by their messages. *)
Definition SliceBoundsOutOfRange : panic_value :=
  PanicString "runtime error: slice bounds out of range".
Definition MakesliceLenOutOfRange : panic_value :=
  PanicString "runtime error: makeslice: len out of range".

(** [dAtA[lo:hi]] and [dAtA[lo:]], on a slice whose capacity is its
    length. *)
Definition slice (dAtA : list Z) (lo hi : Z) : run (list Z) :=
  if decide (0 <= lo /\ lo <= hi /\ hi <= Z.of_nat (length dAtA))
  then Ret (take (Z.to_nat (hi - lo)) (drop (Z.to_nat lo) dAtA))
  else Panic SliceBoundsOutOfRange.

Definition sliceFrom (dAtA : list Z) (lo : Z) : run (list Z) :=
  if decide (0 <= lo /\ lo <= Z.of_nat (length dAtA))
  then Ret (drop (Z.to_nat lo) dAtA)
  else Panic SliceBoundsOutOfRange.

(** [make([]byte, size)]. *)
Definition make (size : Z) : run (list Z) :=
  if decide (0 <= size)
  then Ret (replicate (Z.to_nat size) 0)
  else Panic MakesliceLenOutOfRange.

(** [len(s)] of a string, the bytes of a string, and [string(b)]. *)
Definition lenString (s : string) : Z := Z.of_nat (String.length s).

Definition bytesOf (s : string) : list Z :=
  (fun c => Z.of_N (N_of_ascii c)) <$> list_ascii_of_string s.

Definition stringOf (b : list Z) : string :=
  string_of_list_ascii ((fun x => ascii_of_N (Z.to_N x)) <$> b).

(** [copy(dAtA[i:], s)]: the slice after the copy and the number of bytes
    copied. *)
Definition copyString (dAtA : list Z) (i : Z) (s : string) : run (list Z * Z) :=
  dst ← sliceFrom dAtA i;
  let n := Nat.min (length dst) (String.length s) in
  Ret (take (Z.to_nat i) dAtA ++ take n (bytesOf s) ++ drop n dst, Z.of_nat n).

(** A [float64], held as the 64 bits [math.Float64bits] gives for it; the
    code only moves these bits. *)
Abbreviation float64 := Z (only parsing).
Definition Float64bits (v : float64) : Z := v.
Definition Float64frombits (b : Z) : float64 := b.

(** [binary.LittleEndian.PutUint64(b, v)] and [binary.LittleEndian.Uint64(b)]
    of the Go library: both look at [b[7]] first. *)
Definition PutUint64 (b : list Z) (v : Z) : run (list Z) :=
  if decide (7 < Z.of_nat (length b))
  then Ret ([uint8 v; uint8 (Z.shiftr v 8); uint8 (Z.shiftr v 16);
             uint8 (Z.shiftr v 24); uint8 (Z.shiftr v 32);
             uint8 (Z.shiftr v 40); uint8 (Z.shiftr v 48);
             uint8 (Z.shiftr v 56)] ++ drop 8 b)
  else Panic (RuntimeError IndexOutOfRange).

Definition Uint64 (b : list Z) : run Z :=
  match b with
  | b0 :: b1 :: b2 :: b3 :: b4 :: b5 :: b6 :: b7 :: _ =>
      Ret (Z.lor (Z.lor (Z.lor (Z.lor (Z.lor (Z.lor (Z.lor
             (uint64 b0)
             (uint64 (Z.shiftl (uint64 b1) 8)))
             (uint64 (Z.shiftl (uint64 b2) 16)))
             (uint64 (Z.shiftl (uint64 b3) 24)))
             (uint64 (Z.shiftl (uint64 b4) 32)))
             (uint64 (Z.shiftl (uint64 b5) 40)))
             (uint64 (Z.shiftl (uint64 b6) 48)))
             (uint64 (Z.shiftl (uint64 b7) 56)))
  | _ => Panic (RuntimeError IndexOutOfRange)
  end.

(** [sortkeys.Strings]: the keys in ascending order of their bytes. *)
Definition stringLe (s1 s2 : string) : Prop := String.leb s1 s2 = true.

#[export] Instance stringLe_dec (s1 s2 : string) : Decision (stringLe s1 s2) :=
  decide (String.leb s1 s2 = true).

Definition sortStrings (keys : list string) : list string :=
  merge_sort stringLe keys.

(** *** Messages *)

(** The generated methods of a message of another package that the code
    below calls: [Size], [MarshalTo] (the slice it leaves, the count and the
    error) and [Unmarshal] (the message it leaves and the error). *)
Class Message (M : Type) : Type := {
  Size : M -> Z;
  MarshalTo : M -> list Z -> run (list Z * (Z * option error));
  Unmarshal : M -> list Z -> run (M * option error)
}.

(** [StoreStatus]; the map may be nil. *)
Record StoreStatus (D : Type) : Type := mkStoreStatus {
  Desc : D;
  Metrics : option (gmap string float64)
}.
Arguments mkStoreStatus {D} Desc Metrics.
Arguments Desc {D} s.
Arguments Metrics {D} s.

Definition set_Desc {D} (m : StoreStatus D) (d : D) : StoreStatus D :=
  mkStoreStatus d (Metrics m).
Definition set_Metrics {D} (m : StoreStatus D) (metrics : option (gmap string float64))
  : StoreStatus D :=
  mkStoreStatus (Desc m) metrics.

(** [len(m)] and [m[k]] on a map that may be nil. *)
Definition lenMap (metrics : option (gmap string float64)) : Z :=
  match metrics with
  | Some metrics => Z.of_nat (size metrics)
  | None => 0
  end.

Definition mapIndex (metrics : option (gmap string float64)) (k : string) : float64 :=
  match metrics with
  | Some metrics => default 0 (metrics !! k)
  | None => 0
  end.

(** The pairs [for k, v := range] goes through; Go leaves their order
    open. *)
Definition mapRange (metrics : option (gmap string float64)) : list (string * float64) :=
  match metrics with
  | Some metrics => map_to_list metrics
  | None => []
  end.

(** [1 + len(k) + sovStatus(uint64(len(k))) + 1 + 8]. *)
Definition mapEntrySize (k : string) : run Z :=
  s ← sovStatus (uint64 (lenString k));
  Ret (int_add (int_add (int_add (int_add 1 (lenString k)) s) 1) 8).

(** The loop of [StoreStatus.Size] over the map. *)
Fixpoint StoreStatus_Size_loop (kvs : list (string * float64)) (n : Z) : run Z :=
  match kvs with
  | [] => Ret n
  | (k, _) :: kvs =>
      mapEntrySize ← mapEntrySize k;
      s ← sovStatus (uint64 mapEntrySize);
      StoreStatus_Size_loop kvs (int_add n (int_add (int_add mapEntrySize 1) s))
  end.

(** [StoreStatus.Size]. *)
Definition StoreStatus_Size {D} `{!Message D} (m : StoreStatus D) : run Z :=
  let n := 0 in
  let l := Size (Desc m) in
  s ← sovStatus (uint64 l);
  let n := int_add n (int_add (int_add 1 l) s) in
  if decide (lenMap (Metrics m) > 0)
  then StoreStatus_Size_loop (mapRange (Metrics m)) n
  else Ret n.

(** The loop of [StoreStatus.MarshalTo] over the sorted keys. *)
Fixpoint StoreStatus_MarshalTo_loop (metrics : option (gmap string float64))
    (keysForMetrics : list string) (dAtA : list Z) (i : Z) : run (list Z * Z) :=
  match keysForMetrics with
  | [] => Ret (dAtA, i)
  | k :: keysForMetrics =>
      dAtA ← setByte dAtA i 18;
      let i := int_add i 1 in
      let v := mapIndex metrics k in
      s ← sovStatus (uint64 (lenString k));
      let mapSize := int_add (int_add (int_add (int_add 1 (lenString k)) s) 1) 8 in
      '(dAtA, i) ← encodeVarintStatus dAtA i (uint64 mapSize);
      dAtA ← setByte dAtA i 10;
      let i := int_add i 1 in
      '(dAtA, i) ← encodeVarintStatus dAtA i (uint64 (lenString k));
      '(dAtA, n) ← copyString dAtA i k;
      let i := int_add i n in
      dAtA ← setByte dAtA i 17;
      let i := int_add i 1 in
      b ← sliceFrom dAtA i;
      b ← PutUint64 b (uint64 (Float64bits v));
      let dAtA := take (Z.to_nat i) dAtA ++ b in
      let i := int_add i 8 in
      StoreStatus_MarshalTo_loop metrics keysForMetrics dAtA i
  end.

(** [StoreStatus.MarshalTo]: the slice it leaves, the count and the
    error. *)
Definition StoreStatus_MarshalTo {D} `{!Message D} (m : StoreStatus D) (dAtA : list Z)
  : run (list Z * (Z * option error)) :=
  let i := 0 in
  dAtA ← setByte dAtA i 10;
  let i := int_add i 1 in
  '(dAtA, i) ← encodeVarintStatus dAtA i (uint64 (Size (Desc m)));
  b ← sliceFrom dAtA i;
  '(b, (n1, err)) ← MarshalTo (Desc m) b;
  let dAtA := take (Z.to_nat i) dAtA ++ b in
  match err with
  | Some err => Ret (dAtA, (0, Some err))
  | None =>
      let i := int_add i n1 in
      if decide (lenMap (Metrics m) > 0)
      then
        let keysForMetrics := sortStrings (mapRange (Metrics m)).*1 in
        '(dAtA, i) ← StoreStatus_MarshalTo_loop (Metrics m) keysForMetrics dAtA i;
        Ret (dAtA, (i, None))
      else Ret (dAtA, (i, None))
  end.

(** [StoreStatus.Marshal]. *)
Definition StoreStatus_Marshal {D} `{!Message D} (m : StoreStatus D)
  : run (option (list Z) * option error) :=
  size ← StoreStatus_Size m;
  dAtA ← make size;
  '(dAtA, (n, err)) ← StoreStatus_MarshalTo m dAtA;
  match err with
  | Some err => Ret (None, Some err)
  | None =>
      dAtA ← slice dAtA 0 n;
      Ret (Some dAtA, None)
  end.

(** The loop of [StoreStatus.Unmarshal] over the fields of a map entry,
    with at most [fuel] passes: the key and the value it leaves, or the
    error returned. *)
Fixpoint StoreStatus_Unmarshal_entry (fuel : nat) (dAtA : list Z)
    (iNdEx postIndex : Z) (mapkey : string) (mapvalue : float64)
  : run (result (string * float64)) :=
  let l := Z.of_nat (length dAtA) in
  if decide (iNdEx < postIndex)
  then
    match fuel with
    | O => OutOfFuel
    | S fuel =>
        let entryPreIndex := iNdEx in
        r ← readVarint accumUint64 dAtA iNdEx;
        match r with
        | Err err => Ret (Err err)
        | Ok (wire, iNdEx) =>
            let fieldNum := int32 (Z.shiftr wire 3) in
            if decide (fieldNum = 1) then
              r ← readVarint accumUint64 dAtA iNdEx;
              match r with
              | Err err => Ret (Err err)
              | Ok (stringLenmapkey, iNdEx) =>
                  let intStringLenmapkey := wrap stringLenmapkey in
                  if decide (intStringLenmapkey < 0)
                  then Ret (Err ErrInvalidLengthStatus)
                  else
                    let postStringIndexmapkey := int_add iNdEx intStringLenmapkey in
                    if decide (postStringIndexmapkey > l)
                    then Ret (Err ErrUnexpectedEOF)
                    else
                      b ← slice dAtA iNdEx postStringIndexmapkey;
                      let mapkey := stringOf b in
                      let iNdEx := postStringIndexmapkey in
                      StoreStatus_Unmarshal_entry fuel dAtA iNdEx postIndex
                        mapkey mapvalue
              end
            else if decide (fieldNum = 2) then
              if decide (int_add iNdEx 8 > l)
              then Ret (Err ErrUnexpectedEOF)
              else
                b ← sliceFrom dAtA iNdEx;
                mapvaluetemp ← Uint64 b;
                let iNdEx := int_add iNdEx 8 in
                let mapvalue := Float64frombits mapvaluetemp in
                StoreStatus_Unmarshal_entry fuel dAtA iNdEx postIndex
                  mapkey mapvalue
            else
              let iNdEx := entryPreIndex in
              b ← sliceFrom dAtA iNdEx;
              '(skippy, err) ← skipStatus (2 * length b + 1) b;
              match err with
              | Some err => Ret (Err err)
              | None =>
                  if decide (skippy < 0)
                  then Ret (Err ErrInvalidLengthStatus)
                  else if decide (int_add iNdEx skippy > postIndex)
                  then Ret (Err ErrUnexpectedEOF)
                  else
                    let iNdEx := int_add iNdEx skippy in
                    StoreStatus_Unmarshal_entry fuel dAtA iNdEx postIndex
                      mapkey mapvalue
              end
        end
    end
  else Ret (Ok (mapkey, mapvalue)).

(** The loop of [StoreStatus.Unmarshal] over the fields, with at most
    [fuel] passes: the message it leaves and the error returned. *)
Fixpoint StoreStatus_Unmarshal_loop {D} `{!Message D} (fuel : nat)
    (m : StoreStatus D) (dAtA : list Z) (iNdEx : Z)
  : run (StoreStatus D * option error) :=
  let l := Z.of_nat (length dAtA) in
  if decide (iNdEx < l)
  then
    match fuel with
    | O => OutOfFuel
    | S fuel =>
        let preIndex := iNdEx in
        r ← readVarint accumUint64 dAtA iNdEx;
        match r with
        | Err err => Ret (m, Some err)
        | Ok (wire, iNdEx) =>
            let fieldNum := int32 (Z.shiftr wire 3) in
            let wireType := wrap (Z.land wire 7) in
            if decide (wireType = 4) then
              Ret (m, Some (Errorf
                "proto: StoreStatus: wiretype end group for non-group"))
            else if decide (fieldNum <= 0) then
              Ret (m, Some (Errorf
                ("proto: StoreStatus: illegal tag " +:+ fmt_d fieldNum
                   +:+ " (wire type " +:+ fmt_d wire +:+ ")")))
            else if decide (fieldNum = 1) then
              if decide (wireType <> 2) then
                Ret (m, Some (Errorf
                  ("proto: wrong wireType = " +:+ fmt_d wireType
                     +:+ " for field Desc")))
              else
                r ← readVarint accumInt dAtA iNdEx;
                match r with
                | Err err => Ret (m, Some err)
                | Ok (msglen, iNdEx) =>
                    if decide (msglen < 0)
                    then Ret (m, Some ErrInvalidLengthStatus)
                    else
                      let postIndex := int_add iNdEx msglen in
                      if decide (postIndex > l)
                      then Ret (m, Some ErrUnexpectedEOF)
                      else
                        b ← slice dAtA iNdEx postIndex;
                        '(desc, err) ← Unmarshal (Desc m) b;
                        let m := set_Desc m desc in
                        match err with
                        | Some err => Ret (m, Some err)
                        | None =>
                            let iNdEx := postIndex in
                            StoreStatus_Unmarshal_loop fuel m dAtA iNdEx
                        end
                end
            else if decide (fieldNum = 2) then
              if decide (wireType <> 2) then
                Ret (m, Some (Errorf
                  ("proto: wrong wireType = " +:+ fmt_d wireType
                     +:+ " for field Metrics")))
              else
                r ← readVarint accumInt dAtA iNdEx;
                match r with
                | Err err => Ret (m, Some err)
                | Ok (msglen, iNdEx) =>
                    if decide (msglen < 0)
                    then Ret (m, Some ErrInvalidLengthStatus)
                    else
                      let postIndex := int_add iNdEx msglen in
                      if decide (postIndex > l)
                      then Ret (m, Some ErrUnexpectedEOF)
                      else
                        let metrics := default ∅ (Metrics m) in
                        let m := set_Metrics m (Some metrics) in
                        r ← StoreStatus_Unmarshal_entry (S (length dAtA)) dAtA
                              iNdEx postIndex "" 0;
                        match r with
                        | Err err => Ret (m, Some err)
                        | Ok (mapkey, mapvalue) =>
                            let m := set_Metrics m
                                       (Some (<[mapkey := mapvalue]> metrics)) in
                            let iNdEx := postIndex in
                            StoreStatus_Unmarshal_loop fuel m dAtA iNdEx
                        end
                end
            else
              let iNdEx := preIndex in
              b ← sliceFrom dAtA iNdEx;
              '(skippy, err) ← skipStatus (2 * length b + 1) b;
              match err with
              | Some err => Ret (m, Some err)
              | None =>
                  if decide (skippy < 0)
                  then Ret (m, Some ErrInvalidLengthStatus)
                  else if decide (int_add iNdEx skippy > l)
                  then Ret (m, Some ErrUnexpectedEOF)
                  else
                    let iNdEx := int_add iNdEx skippy in
                    StoreStatus_Unmarshal_loop fuel m dAtA iNdEx
              end
        end
    end
  else if decide (iNdEx > l)
  then Ret (m, Some ErrUnexpectedEOF)
  else Ret (m, None).

(** [StoreStatus.Unmarshal]: a pass consumes at least one byte. *)
Definition StoreStatus_Unmarshal {D} `{!Message D} (m : StoreStatus D)
    (dAtA : list Z) : run (StoreStatus D * option error) :=
  StoreStatus_Unmarshal_loop (S (length dAtA)) m dAtA 0.

End status.

Import sqlbase distsqlplan sql status.
Open Scope Z_scope.

(** ** Vocabulary of the statements on the encoder *)

(** The leaves the encoder intercepts. *)
Inductive leaf : Type :=
| VarLeaf (idx : Z)
| PlaceholderLeaf (name : string).

(** The intercepted leaves of an expression, in the order they are
    formatted. *)
Fixpoint leaves (e : TypedExpr) : list leaf :=
  match e with
  | DatumExpr _ => []
  | IndexedVar idx => [VarLeaf idx]
  | Placeholder name => [PlaceholderLeaf name]
  | BinaryExpr _ l r => leaves l ++ leaves r
  end.

(** The variable indices and the placeholder names of an expression. *)
Fixpoint vars (e : TypedExpr) : list Z :=
  match e with
  | IndexedVar idx => [idx]
  | BinaryExpr _ l r => vars l ++ vars r
  | _ => []
  end.

Fixpoint placeholders (e : TypedExpr) : list string :=
  match e with
  | Placeholder name => [name]
  | BinaryExpr _ l r => placeholders l ++ placeholders r
  | _ => []
  end.

(** The entry of a remap table for a local index. *)
Definition remapEntry (m : list Z) (i : Z) : option Z :=
  if decide (0 <= i) then m !! Z.to_nat i else None.

(** The wire text of an expression whose variables already carry the
    ordinals of the receiving side: a variable at ordinal [i] is the symbol
    [@N] with [N] the 1-based ordinal, a literal is its text, and operands
    that are operator expressions are parenthesized. *)
Definition parenText (paren : bool) (s : string) : string :=
  if paren then "(" +:+ s +:+ ")" else s.

Fixpoint wireText (e : TypedExpr) : string :=
  match e with
  | DatumExpr d => Datum_String d
  | IndexedVar idx => "@" +:+ fmt_d (int_add idx 1)
  | Placeholder name => "$" +:+ name
  | BinaryExpr op l r =>
      parenText (isOperatorExpr l) (wireText l)
        +:+ (" " +:+ BinaryOperator_String op +:+ " ")
        +:+ parenText (isOperatorExpr r) (wireText r)
  end.

(** The expression with every variable moved to the ordinal the remap table
    gives it; without a table the variables stay. *)
Fixpoint remapVars (m : option (list Z)) (e : TypedExpr) : TypedExpr :=
  match e with
  | IndexedVar idx =>
      match m with
      | None => IndexedVar idx
      | Some m => IndexedVar (default idx (remapEntry m idx))
      end
  | BinaryExpr op l r => BinaryExpr op (remapVars m l) (remapVars m r)
  | _ => e
  end.

(** The expression with every bound placeholder replaced by the literal it
    is bound to. *)
Fixpoint bindPlaceholders (ctx : EvalContext) (e : TypedExpr) : TypedExpr :=
  match e with
  | Placeholder name =>
      match Placeholders ctx !! name with
      | Some d => DatumExpr d
      | None => Placeholder name
      end
  | BinaryExpr op l r =>
      BinaryExpr op (bindPlaceholders ctx l) (bindPlaceholders ctx r)
  | _ => e
  end.

(** The fault of a leaf, if the specification gives it one: a variable
    whose index is outside a supplied table, a variable whose entry is the
    unmapped marker, a placeholder without value. *)
Definition leafPanic (ctx : EvalContext) (m : option (list Z)) (l : leaf)
  : option panic_value :=
  match l with
  | VarLeaf idx =>
      match m with
      | None => None
      | Some m =>
          match remapEntry m idx with
          | None => Some (RuntimeError IndexOutOfRange)
          | Some j =>
              if decide (j < 0)
              then Some (PanicString ("unmapped index " +:+ fmt_d idx))
              else None
          end
      end
  | PlaceholderLeaf name =>
      match Placeholders ctx !! name with
      | Some _ => None
      | None =>
          Some (PanicString
                  ("failed to serialize placeholder: "
                     +:+ "no value provided for placeholder: $" +:+ name))
      end
  end.

(** The fault of the first leaf that has one. *)
Definition firstPanic (ctx : EvalContext) (m : option (list Z)) (e : TypedExpr)
  : option panic_value :=
  head (omap (leafPanic ctx m) (leaves e)).

(** The flags [MakeExpression] formats with. *)
Definition encoderFlags (ctx : EvalContext) (m : option (list Z)) : FmtFlags :=
  match m with
  | None => exprFmtFlagsNoMap ctx
  | Some m => FmtIndexedVarFormat (exprFmtFlagsBase ctx) (indexVarMapFormat m)
  end.

(** ** Vocabulary of the statements on the row evaluation *)

(** A slice header is valid in a store that holds all its cells. *)
Definition Datums_valid (h : heap) (s : Datums) : Prop :=
  is_Some (Datums_elems h s).

(** The evaluation of a list of bound expressions in list order against one
    store: the values of the expressions before the first that fails, and
    the error of that one. *)
Fixpoint evalExprs {fv : FormatVarMethod} (rh : returningHelper) (h : heap)
    (es : list TypedExpr) : outcome (list Datum * option error) :=
  match es with
  | [] => Returned ([], None)
  | e :: es' =>
      r ← Eval rh h (evalCtx (p rh)) e;
      match r with
      | Err err => Returned ([], Some err)
      | Ok d => '(ds, err) ← evalExprs rh h es'; Returned (d :: ds, err)
      end
  end.

(** The length of the schema the helper was built for. *)
Definition schemaLen (rh : returningHelper) : nat :=
  match source rh with
  | Some src => length (sourceColumns src)
  | None => 0%nat
  end.

(** The invariant of bound expressions: every variable index is an index
    into the schema. *)
Definition IndexInvariant (rh : returningHelper) : Prop :=
  forall es e i,
    exprs rh = Some es -> e ∈ es -> i ∈ vars e ->
    0 <= i < Z.of_nat (schemaLen rh).

(** The invariant of the current row: it has one cell per schema column. *)
Definition RowInvariant (rh : returningHelper) (h : heap) : Prop :=
  Datums_valid h (curSourceRow rh) /\
  Datums_len (curSourceRow rh) = schemaLen rh.

(** ** Vocabulary of the statements on sequences of calls and on tables *)

(** [cookResultRow] called on the rows of a list, one after the other, each
    call on the helper and the store the call before left; the results in
    order. *)
Fixpoint cookRows {fv : FormatVarMethod} (rh : returningHelper)
    (h : gmap positive (list (option Datum))) (rows : list Datums)
  : outcome (returningHelper * gmap positive (list (option Datum))
             * list (Datums * option error)) :=
  match rows with
  | [] => Returned (rh, h, [])
  | rowVals :: rows' =>
      '(rh1, h1, r) ← cookResultRow rh h rowVals;
      '(rh2, h2, rs) ← cookRows rh1 h1 rows';
      Returned (rh2, h2, r :: rs)
  end.

(** What the resolver returns for a target when called as
    [newReturningHelper] calls it: with the planner, the single-table source
    over the table's columns and a variable helper of as many variables as
    the table has columns. *)
Definition renderTarget {nameGen : Type}
    (renderFn : planner -> SelectExpr -> T -> multiSourceInfo ->
                IndexedVarHelper -> nameGen ->
                ResultColumns * list TypedExpr * bool * option error)
    (auto : nameGen) (p0 : planner) (tn : string)
    (tablecols : list ColumnDescriptor) (target : SelectExpr)
  : ResultColumns * list TypedExpr * bool * option error :=
  renderFn p0 target TAny
    [Some (newSourceInfoForSingleTable tn (ResultColumnsFromColDescs tablecols))]
    (MakeIndexedVarHelper (length tablecols)) auto.

(** The result columns, the typed expressions and the error of such a
    result. *)
Definition renderedColumns
    (r : ResultColumns * list TypedExpr * bool * option error) : ResultColumns :=
  r.1.1.1.
Definition renderedExprs
    (r : ResultColumns * list TypedExpr * bool * option error) : list TypedExpr :=
  r.1.1.2.
Definition renderedError
    (r : ResultColumns * list TypedExpr * bool * option error) : option error :=
  r.2.

(** The identity table of [n] columns: [{0 -> 0, ..., n-1 -> n-1}]. *)
Definition identityMap (n : nat) : list Z := seqZ 0 (Z.of_nat n).

(** ** Vocabulary of the statements on varints *)

(** The bytes of the varint of [v], least significant group first, every
    byte but the last with its high bit set; [fuel] bounds the groups after
    the first. *)
Fixpoint varintBytes (fuel : nat) (v : Z) : list Z :=
  if decide (v >= 2 ^ 7)
  then match fuel with
       | O => []
       | S fuel => Z.lor (Z.land v 127) 128 :: varintBytes fuel (Z.shiftr v 7)
       end
  else [v].

(** The varint of a [uint64]. *)
Definition varint (v : Z) : list Z := varintBytes 10 v.

(** The number of bytes of the varint of [x]: one, and one more for each
    seven bits above the first seven. *)
Definition varintLen (x : Z) : Z := Z.log2 x / 7 + 1.

(** The zigzag code of a signed integer. *)
Definition zigzag (s : Z) : Z := if decide (0 <= s) then 2 * s else - 2 * s - 1.

(** A slice of bytes. *)
Definition isBytes (dAtA : list Z) : Prop := Forall (fun b => 0 <= b < 256) dAtA.

(** ** Vocabulary of the statements on fields *)

(** A field of the wire format: its number and its payload by wire type;
    a group holds fields and ends with an end-group tag of any number. *)
Inductive wireField : Type :=
| VarintField (num v : Z)
| Fixed64Field (num : Z) (payload : list Z)
| BytesField (num : Z) (payload : list Z)
| GroupField (num : Z) (body : wireFields) (endNum : Z)
| Fixed32Field (num : Z) (payload : list Z)
with wireFields : Type :=
| NoFields
| MoreFields (f : wireField) (fs : wireFields).

(** The tag of field [num] with wire type [wireType]. *)
Definition tag (num wireType : Z) : list Z := varint (8 * num + wireType).

(** The bytes of a field. *)
Fixpoint fieldBytes (f : wireField) : list Z :=
  match f with
  | VarintField num v => tag num 0 ++ varint v
  | Fixed64Field num payload => tag num 1 ++ payload
  | BytesField num payload =>
      tag num 2 ++ varint (Z.of_nat (length payload)) ++ payload
  | GroupField num body endNum => tag num 3 ++ fieldsBytes body ++ tag endNum 4
  | Fixed32Field num payload => tag num 5 ++ payload
  end
with fieldsBytes (fs : wireFields) : list Z :=
  match fs with
  | NoFields => []
  | MoreFields f fs => fieldBytes f ++ fieldsBytes fs
  end.

(** A field number fits a tag of 64 bits, a varint is a [uint64], and the
    fixed payloads have their widths. *)
Definition fieldNumber (num : Z) : bool := bool_decide (0 <= num < 2 ^ 61).

Fixpoint wellFormed (f : wireField) : bool :=
  match f with
  | VarintField num v => fieldNumber num && bool_decide (0 <= v < 2 ^ 64)
  | Fixed64Field num payload => fieldNumber num && bool_decide (length payload = 8%nat)
  | BytesField num payload => fieldNumber num
  | GroupField num body endNum =>
      fieldNumber num && allWellFormed body && fieldNumber endNum
  | Fixed32Field num payload => fieldNumber num && bool_decide (length payload = 4%nat)
  end
with allWellFormed (fs : wireFields) : bool :=
  match fs with
  | NoFields => true
  | MoreFields f fs => wellFormed f && allWellFormed fs
  end.

Scheme wireField_mut := Induction for wireField Sort Prop
with wireFields_mut := Induction for wireFields Sort Prop.
Combined Scheme wireField_mutind from wireField_mut, wireFields_mut.

(** The calls and passes of [skipStatus] on a field, and of its group loop
    on the fields left in a group. *)
Fixpoint fieldFuel (f : wireField) : nat :=
  match f with
  | GroupField _ body _ => S (fieldsFuel body)
  | _ => 1
  end
with fieldsFuel (fs : wireFields) : nat :=
  match fs with
  | NoFields => 1
  | MoreFields f fs => S (max (fieldFuel f) (fieldsFuel fs))
  end.

(** ** Vocabulary of the statements on the wire form of a store status *)

(** The bytes of a [uint64], least significant first. *)
Definition le64 (v : Z) : list Z :=
  (fun k => Z.shiftr v (8 * k) mod 256) <$> [0; 1; 2; 3; 4; 5; 6; 7].

(** The size of the body of a map entry with key [k], and the bytes of the
    entry: the tag of field 2, the size of the body, and in the body the key
    as field 1 and the value as field 2. *)
Definition entrySize (k : string) : Z :=
  1 + lenString k + varintLen (lenString k) + 1 + 8.

Definition entryBytes (k : string) (v : float64) : list Z :=
  [18] ++ varint (entrySize k) ++
  [10] ++ varint (lenString k) ++ bytesOf k ++ [17] ++ le64 v.

(** The bytes of the entries of a map, by ascending key. *)
Definition metricsBytes (metrics : option (gmap string float64)) : list Z :=
  concat ((fun k => entryBytes k (mapIndex metrics k))
            <$> sortStrings (mapRange metrics).*1).

(** The wire form of a store status whose descriptor has the wire form
    [desc]: the descriptor as field 1, then the entries. *)
Definition storeStatusBytes (desc : list Z) (metrics : option (gmap string float64))
  : list Z :=
  [10] ++ varint (Z.of_nat (length desc)) ++ desc ++ metricsBytes metrics.

(** A slice in which [w] has been written from the start on. *)
Definition written (w dAtA : list Z) : list Z := w ++ drop (length w) dAtA.

(** The values of a map are [uint64] bit patterns. *)
Definition isFloat64 (v : float64) : Prop := 0 <= v < 2 ^ 64.

(** The length of the entries with the keys [keys]. *)
Definition entriesLen (keys : list string) : Z :=
  foldr (fun k acc => 1 + varintLen (entrySize k) + entrySize k + acc) 0 keys.

(** The descriptor [d] has the wire form [desc]: [Size] is its length, and
    [MarshalTo] writes it at the start of a slice that has room for it. *)
Definition descriptorBytes {D} `{!Message D} (d : D) (desc : list Z) : Prop :=
  Size d = Z.of_nat (length desc) /\
  forall b, (length desc <= length b)%nat ->
    MarshalTo d b = Ret (desc ++ drop (length desc) b, (Z.of_nat (length desc), None)).

(** Every value of the map is the bit pattern of a [float64]. *)
Definition float64Values (metrics : option (gmap string float64)) : Prop :=
  forall k v, (k, v) ∈ mapRange metrics -> isFloat64 v.

(** The index [i] of [dAtA] with the bytes [rest] from it on. *)
Definition cursor (dAtA : list Z) (i : Z) (rest : list Z) : Prop :=
  0 <= i /\ i + Z.of_nat (length rest) = Z.of_nat (length dAtA) /\
  drop (Z.to_nat i) dAtA = rest.

(** The body of a map entry. *)
Definition entryBody (k : string) (v : float64) : list Z :=
  [10] ++ varint (lenString k) ++ bytesOf k ++ [17] ++ le64 v.

(** A map entry read into a message: the map is made when it is nil. *)
Definition withEntry {D} (metrics : option (gmap string float64))
    (m : StoreStatus D) (k : string) : StoreStatus D :=
  set_Metrics m (Some (<[k := mapIndex metrics k]> (default ∅ (Metrics m)))).

(** The map after the entries of [new] have been read into [old]: [old]
    itself when [new] has no entry, and otherwise the entries of [new] and,
    for the other keys, those of [old]. *)
Definition mergedMetrics (new old : option (gmap string float64))
  : option (gmap string float64) :=
  match mapRange new with
  | [] => old
  | _ => Some (default ∅ new ∪ default ∅ old)
  end.

(** The number of a field. *)
Definition fieldNum (f : wireField) : Z :=
  match f with
  | VarintField num _ | Fixed64Field num _ | BytesField num _
  | GroupField num _ _ | Fixed32Field num _ => num
  end.

(** ** Example values *)

Definition ctx_empty : EvalContext := mkEvalContext ∅.

Definition planner_ex : planner := mkPlanner ctx_empty (mkSession []).

(** The schema [(k INT, v INT)]. *)
Definition schema_kv : list ColumnDescriptor :=
  [mkColumnDescriptor "k" TInt; mkColumnDescriptor "v" TInt].

(** The clause [RETURNING v * 2]. *)
Definition returning_v2 : ReturningClause :=
  ReturningExprsClause
    [mkSelectExpr (BinaryOp Mult (UnresolvedName "v") (NumVal 2)) None].

(** A [FormatVar] for the examples, which writes the name of the column.
    The examples below run with it; the statements are for every
    [FormatVarMethod]. *)
#[global] Instance formatVar_ex : FormatVarMethod :=
  fun src _ idx buf =>
    c ← index (sourceColumns src) idx;
    WriteString (ResultColumn_Name c) buf.

(** The helper of [RETURNING v * 2] over [schema_kv]. *)
Definition rh_v2 : returningHelper :=
  mkReturningHelper planner_ex
    (Some [mkResultColumn "v * 2" TInt])
    (Some [BinaryExpr Mult (IndexedVar 1) (DatumExpr (DInt 2))])
    0
    (Some (mkDataSourceInfo (ResultColumnsFromColDescs schema_kv) "t"))
    Datums_nil.

(** The helper of a statement without RETURNING clause. *)
Definition rh_nothing : returningHelper :=
  mkReturningHelper planner_ex None None 0 None Datums_nil.

(** A helper whose only expression overflows on the row [(10, 20)]. *)
Definition rh_overflow : returningHelper :=
  set_exprs rh_v2
    (Some [BinaryExpr Mult (IndexedVar 1) (DatumExpr (DInt max_int))]).

(** A store with the rows [(10, 20)] and [(1, 2)]. *)
Definition store_ex : gmap positive (list (option Datum)) :=
  <[2%positive := [Some (DInt 1); Some (DInt 2)]]>
    {[ 1%positive := [Some (DInt 10); Some (DInt 20)] ]}.

Definition row_10_20 : Datums := Datums_slice 1%positive 0 2.
Definition row_1_2 : Datums := Datums_slice 2%positive 0 2.

(** The clause [RETURNING count(k)], with an aggregate function. *)
Definition returning_count : ReturningExprs :=
  [mkSelectExpr
     (FuncExpr (mkFunctionReference "count" AggregateClass)
        [UnresolvedName "k"] false)
     None].

(** The expression [@1 + @2], local indices 0 and 1. *)
Definition expr_sum : TypedExpr := BinaryExpr Plus (IndexedVar 0) (IndexedVar 1).

(** A varint field, a group of two fields, and a group inside a group. *)
Definition field_varint : wireField := VarintField 1 300.
Definition field_group : wireField :=
  GroupField 2 (MoreFields field_varint
               (MoreFields (BytesField 3 [104; 105]) NoFields)) 2.
Definition field_nested : wireField :=
  GroupField 4 (MoreFields field_group
               (MoreFields (Fixed32Field 5 [1; 2; 3; 4]) NoFields)) 4.

(** A message whose wire form is the bytes it holds. *)
#[export] Instance bytesMessage : Message (list Z) := {
  Size d := Z.of_nat (length d);
  MarshalTo d dAtA :=
    if decide (length d <= length dAtA)%nat
    then Ret (d ++ drop (length d) dAtA, (Z.of_nat (length d), None))
    else Panic (RuntimeError IndexOutOfRange);
  Unmarshal _ dAtA := Ret (dAtA, None)
}.

Definition status_ex : StoreStatus (list Z) :=
  mkStoreStatus [8; 1] (Some (<["b" := 5]> (<["a" := 2 ^ 63 + 7]> ∅))).

(** The zero value of the message. *)
Definition status_zero : StoreStatus (list Z) := mkStoreStatus [] None.

(** A field [Unmarshal] does not know: field 7, a varint. *)
Definition field_unknown : wireField := VarintField 7 300.

(** A slice of 40 bytes. *)
Definition buffer_ex : list Z := replicate 40 7.

(** ** Integers and strings *)

Lemma int_add_no_overflow (a b : Z) :
  min_int <= a + b <= max_int -> int_add a b = a + b.
Proof.
  unfold int_add, wrap, min_int, max_int. intros Hr.
  rewrite Z.mod_small; lia.
Qed.

Lemma string_app_assoc (a b c : string) :
  (a +:+ b) +:+ c = a +:+ (b +:+ c).
Proof.
  induction a as [|x a IH]; [reflexivity|].
  change (String x ((a +:+ b) +:+ c) = String x (a +:+ (b +:+ c))).
  by rewrite IH.
Qed.

(** ** The encoder, leaf by leaf *)

Lemma index_remapEntry {m : list Z} {i : Z} :
  index m i = match remapEntry m i with
              | Some j => Returned j
              | None => Panicked (RuntimeError IndexOutOfRange)
              end.
Proof. unfold index, remapEntry. by destruct (decide (0 <= i)). Qed.

Lemma remapEntry_Some (m : list Z) (i j : Z) :
  remapEntry m i = Some j <-> 0 <= i /\ m !! Z.to_nat i = Some j.
Proof.
  unfold remapEntry. destruct (decide (0 <= i)) as [Hi|Hi].
  - split; [intros Hj; by split | by intros [_ Hj]].
  - split; [intros Hj; discriminate | intros [Hj _]; contradiction].
Qed.

Lemma remapEntry_None (m : list Z) (i : Z) :
  remapEntry m i = None <-> i < 0 \/ Z.of_nat (length m) <= i.
Proof.
  unfold remapEntry. destruct (decide (0 <= i)).
  - rewrite lookup_ge_None. lia.
  - split; [lia | done].
Qed.

Lemma isOperatorExpr_remap_bind ctx m e :
  isOperatorExpr (remapVars m (bindPlaceholders ctx e)) = isOperatorExpr e.
Proof.
  destruct e as [d|idx|name|op l r]; simpl; try done.
  - by destruct m.
  - by destruct (Placeholders ctx !! name).
Qed.

Lemma withParen_Returned paren (fmt : Fmt) buf s :
  (forall b, fmt b = Returned (b +:+ s)) ->
  withParen paren fmt buf = Returned (buf +:+ parenText paren s).
Proof.
  intros Hf. destruct paren; simpl; [|apply Hf].
  rewrite Hf. simpl. unfold WriteString.
  by rewrite !string_app_assoc.
Qed.

Lemma withParen_Panicked paren (fmt : Fmt) buf pv :
  (forall b, fmt b = Panicked pv) ->
  withParen paren fmt buf = Panicked pv.
Proof. intros Hf. destruct paren; simpl; by rewrite Hf. Qed.

(** The formatter with the encoder's flags, on any buffer: the fault of the
    first faulting leaf, or else the wire text of the remapped expression
    with its placeholders bound, appended to the buffer. *)
Lemma FormatNode_encoderFlags `{IndexedVarContainer C} {c : C} ctx m e buf :
  FormatNode c (encoderFlags ctx m) e buf =
  match firstPanic ctx m e with
  | Some pv => Panicked pv
  | None =>
      Returned (buf +:+ wireText (remapVars m (bindPlaceholders ctx e)))
  end.
Proof.
  revert buf. induction e as [d|idx|name|op l IHl r IHr]; intros buf.
  - by destruct m.
  - destruct m as [m|]; [|done].
    unfold firstPanic; simpl. unfold indexVarMapFormat.
    rewrite index_remapEntry.
    destruct (remapEntry m idx) as [j|]; simpl; [|done].
    by destruct (decide (j < 0)).
  - unfold firstPanic. destruct m as [m|]; simpl; unfold Placeholder_Eval;
      by destruct (Placeholders ctx !! name).
  - assert (FormatNode c (encoderFlags ctx m) (BinaryExpr op l r) buf =
            (buf1 ← withParen (isOperatorExpr l)
                      (FormatNode c (encoderFlags ctx m) l) buf;
             buf2 ← WriteString (" " +:+ BinaryOperator_String op +:+ " ") buf1;
             withParen (isOperatorExpr r)
               (FormatNode c (encoderFlags ctx m) r) buf2)) as -> by done.
    unfold firstPanic in *. cbn [leaves]. rewrite omap_app, head_app.
    destruct (head (omap (leafPanic ctx m) (leaves l))) as [pv|].
    { rewrite (withParen_Panicked _ _ _ pv); [done | intros; apply IHl]. }
    erewrite withParen_Returned; [|intros; apply IHl].
    cbn [mbind outcome_bind WriteString].
    destruct (head (omap (leafPanic ctx m) (leaves r))) as [pv|].
    { rewrite (withParen_Panicked _ _ _ pv); [done | intros; apply IHr]. }
    erewrite withParen_Returned; [|intros; apply IHr].
    cbn [remapVars bindPlaceholders wireText].
    rewrite !isOperatorExpr_remap_bind.
    by rewrite !string_app_assoc.
Qed.

(** [MakeExpression] on a non-nil expression. *)
Lemma MakeExpression_Some `{IndexedVarContainer C} {c : C} ctx m e :
  MakeExpression c (Some e) ctx m =
  match firstPanic ctx m e with
  | Some pv => Panicked pv
  | None =>
      Returned (distsqlrun.mkExpression
                  (wireText (remapVars m (bindPlaceholders ctx e))))
  end.
Proof.
  unfold MakeExpression.
  change (match m with
          | Some m0 =>
              FmtIndexedVarFormat (exprFmtFlagsBase ctx) (indexVarMapFormat m0)
          | None => exprFmtFlagsNoMap ctx
          end) with (encoderFlags ctx m).
  cbv zeta. rewrite FormatNode_encoderFlags.
  by destruct (firstPanic ctx m e).
Qed.

(** ** The store under [cookResultRow] *)

Lemma Datums_valid_slice h a off n :
  Datums_valid h (Datums_slice a off n) -> is_Some (h !! a).
Proof.
  unfold Datums_valid; simpl. destruct (h !! a); [eauto | by intros [? ?]].
Qed.

Lemma fresh_not_valid (h : heap) off n :
  ~ Datums_valid h (Datums_slice (fresh (dom h)) off n).
Proof.
  intros Hv%Datums_valid_slice. apply elem_of_dom in Hv.
  by apply is_fresh in Hv.
Qed.

(** Reading a valid slice is not affected by what is stored at another
    address. *)
Lemma Datums_index_insert_other (h : heap) a arr s i :
  (forall off n, s <> Datums_slice a off n) ->
  Datums_index (<[a := arr]> h) s i = Datums_index h s i.
Proof.
  intros Hs. destruct s as [|a' off n]; [done|]. simpl.
  rewrite lookup_insert_ne; [done|]. intros ->. by eapply Hs.
Qed.

Lemma Datums_valid_not_fresh (h : heap) s :
  Datums_valid h s -> forall off n, s <> Datums_slice (fresh (dom h)) off n.
Proof. intros Hv off n ->. by eapply fresh_not_valid. Qed.

(** ** Evaluation *)

(** An evaluation reads the store only through the container. *)
Lemma Eval_ext `{IndexedVarContainer C} (c c' : C) h h' ctx e :
  (forall idx, idx ∈ vars e ->
     IndexedVarEval c h idx ctx = IndexedVarEval c' h' idx ctx) ->
  Eval c h ctx e = Eval c' h' ctx e.
Proof.
  induction e as [d|idx|name|op l IHl r IHr]; intros Hv; simpl; try done.
  - apply Hv. simpl. set_solver.
  - rewrite IHl, IHr; [done | |];
      intros idx Hidx; apply Hv; simpl; set_solver.
Qed.

(** A panic of an evaluation is the panic of one of its variable reads. *)
Lemma Eval_Panicked `{IndexedVarContainer C} (c : C) h ctx e pv :
  Eval c h ctx e = Panicked pv ->
  exists idx, idx ∈ vars e /\ IndexedVarEval c h idx ctx = Panicked pv.
Proof.
  induction e as [d|idx|name|op l IHl r IHr]; simpl; try done.
  - intros Hp. exists idx. split; [set_solver | done].
  - destruct (Eval c h ctx l) as [[dl|errl]|pvl] eqn:El; simpl.
    + destruct (Eval c h ctx r) as [[dr|errr]|pvr] eqn:Er; simpl; try done.
      intros [= <-]. destruct IHr as (idx & ? & ?); [done|].
      exists idx. split; [set_solver | done].
    + done.
    + intros [= <-]. destruct IHl as (idx & ? & ?); [done|].
      exists idx. split; [set_solver | done].
Qed.

Lemma Eval_set_curSourceRow_store {fv : FormatVarMethod} rh h a arr e :
  (forall off n, curSourceRow rh <> Datums_slice a off n) ->
  Eval rh (<[a := arr]> h) (evalCtx (p rh)) e = Eval rh h (evalCtx (p rh)) e.
Proof.
  intros Hs. apply Eval_ext. intros idx _. simpl.
  unfold returningHelper_IndexedVarEval.
  by rewrite Datums_index_insert_other.
Qed.

(** The values of a completed evaluation, expression by expression. *)
Lemma evalExprs_all {fv : FormatVarMethod} rh h es ds :
  evalExprs rh h es = Returned (ds, None) <->
  Forall2 (fun e d => Eval rh h (evalCtx (p rh)) e = Returned (Ok d)) es ds.
Proof.
  revert ds. induction es as [|e es IH]; intros ds; simpl.
  - split; [intros [= <-]; constructor | by intros ->%Forall2_nil_inv_l].
  - split.
    + destruct (Eval rh h (evalCtx (p rh)) e) as [[d|err]|pv] eqn:Ee;
        simpl; try done.
      destruct (evalExprs rh h es) as [[ds' err']|pv] eqn:Ees; simpl; try done.
      intros [= <- ->]. constructor; [done | by apply IH].
    + intros (d & ds' & Hd & Hds & ->)%Forall2_cons_inv_l.
      rewrite Hd. simpl. apply IH in Hds. by rewrite Hds.
Qed.

(** An evaluation that ends with an error: the expressions before the
    failing one gave the values, and the failing one gave the error. *)
Lemma evalExprs_error {fv : FormatVarMethod} rh h es ds err :
  evalExprs rh h es = Returned (ds, Some err) <->
  exists es1 e es2,
    es = es1 ++ e :: es2 /\
    Forall2 (fun e d => Eval rh h (evalCtx (p rh)) e = Returned (Ok d)) es1 ds /\
    Eval rh h (evalCtx (p rh)) e = Returned (Err err).
Proof.
  revert ds. induction es as [|e es IH]; intros ds; simpl.
  - split; [done | intros (es1 & e & es2 & Hes & _)]. by destruct es1.
  - split.
    + destruct (Eval rh h (evalCtx (p rh)) e) as [[d|err0]|pv] eqn:Ee;
        simpl; try done.
      * destruct (evalExprs rh h es) as [[ds' err']|pv] eqn:Ees;
          simpl; try done.
        intros [= <- ->].
        destruct (proj1 (IH ds') eq_refl) as (es1 & e' & es2 & -> & Hall & He).
        exists (e :: es1), e', es2. split_and!; [done | by constructor | done].
      * intros [= <- <-]. exists [], e, es. split_and!; [done | constructor | done].
    + intros (es1 & e' & es2 & Hes & Hall & He).
      destruct es1 as [|e1 es1]; simplify_eq/=.
      * apply Forall2_nil_inv_l in Hall as ->. by rewrite He.
      * apply Forall2_cons_inv_l in Hall as (d & ds' & Hd & Hds & ->).
        rewrite Hd. simpl.
        assert (evalExprs rh h (es1 ++ e' :: es2) = Returned (ds', Some err))
          as -> by (apply IH; eauto 6).
        done.
Qed.

(** A panic of the evaluation of a list is the panic of a variable read of
    one of its expressions. *)
Lemma evalExprs_Panicked {fv : FormatVarMethod} rh h es pv :
  evalExprs rh h es = Panicked pv ->
  exists e idx, e ∈ es /\ idx ∈ vars e /\
    returningHelper_IndexedVarEval rh h idx (evalCtx (p rh)) = Panicked pv.
Proof.
  induction es as [|e es IH]; simpl; [done|].
  destruct (Eval rh h (evalCtx (p rh)) e) as [[d|err0]|pv0] eqn:Ee; simpl.
  - destruct (evalExprs rh h es) as [[ds' err']|pv1] eqn:Ees; simpl; [done|].
    intros [= <-]. destruct IH as (e' & idx & ? & ? & ?); [done|].
    exists e', idx. split_and!; [set_solver | done | done].
  - done.
  - intros [= <-]. apply Eval_Panicked in Ee as (idx & ? & ?).
    exists e, idx. split_and!; [set_solver | done | done].
Qed.

(** ** The loop of [cookResultRow] *)

(** From position [i] on, with the output array at an address the current
    row does not use: the loop evaluates as [evalExprs] does and leaves the
    values in the cells from [i] on. *)
Lemma cookExprs_evalExprs {fv : FormatVarMethod} rh (h : heap) a es :
  (forall off n, curSourceRow rh <> Datums_slice a off n) ->
  forall i arr,
    (i + length es <= length arr)%nat ->
    cookExprs rh (Datums_slice a 0 (length arr)) i es (<[a := arr]> h) =
    '(ds, err) ← evalExprs rh h es;
    Returned (<[a := list_inserts i (Some <$> ds) arr]> h, err).
Proof.
  intros Hs. induction es as [|e es IH]; intros i arr Hlen; simpl; [done|].
  rewrite Eval_set_curSourceRow_store by done.
  destruct (Eval rh h (evalCtx (p rh)) e) as [[d|err0]|pv0] eqn:Ee;
    simpl; try done.
  simpl in Hlen.
  destruct (decide (0 <= Z.of_nat i < Z.of_nat (length arr))); [|lia].
  rewrite lookup_insert_eq. rewrite Nat2Z.id. simpl.
  destruct (decide (i < length arr)%nat); [|lia]. simpl.
  rewrite insert_insert_eq.
  rewrite <- (length_insert arr i (Some d)) at 1.
  rewrite IH by (rewrite length_insert; lia).
  destruct (evalExprs rh h es) as [[ds err]|pv]; simpl; [|done].
  by rewrite list_insert_inserts_lt by lia.
Qed.

(** [cookResultRow] with a non-nil expression list, on a valid row. *)
Lemma cookResultRow_Some {fv : FormatVarMethod} rh h rowVals es :
  exprs rh = Some es ->
  Datums_valid h rowVals ->
  cookResultRow rh h rowVals =
  '(ds, err) ← evalExprs (set_curSourceRow rh rowVals) h es;
  Returned
    (set_curSourceRow rh rowVals,
     <[fresh (dom h) :=
         list_inserts 0 (Some <$> ds) (replicate (length es) None)]> h,
     match err with
     | Some err => (Datums_nil, Some err)
     | None => (Datums_slice (fresh (dom h)) 0 (length es), None)
     end).
Proof.
  intros Hes Hv. unfold cookResultRow, make_Datums. rewrite Hes.
  pose proof (cookExprs_evalExprs (set_curSourceRow rh rowVals) h
                (fresh (dom h)) es (Datums_valid_not_fresh h rowVals Hv) 0%nat
                (replicate (length es) None)) as Hloop.
  rewrite length_replicate in Hloop. rewrite Hloop by (simpl; lia).
  destruct (evalExprs (set_curSourceRow rh rowVals) h es) as [[ds err]|pv];
    simpl; [|done].
  by destruct err.
Qed.

(** ** The state of the helper across a call *)

Lemma cookResultRow_None {fv : FormatVarMethod} rh h rowVals :
  exprs rh = None ->
  cookResultRow rh h rowVals =
  Returned (set_rowCount rh (int_add (rowCount rh) 1), h, (rowVals, None)).
Proof. intros Hes. unfold cookResultRow. by rewrite Hes. Qed.

(** A list that is empty but not nil does not take the pass-through path:
    the call returns a new row without cells and leaves the counter. *)
Lemma cookResultRow_empty {fv : FormatVarMethod} rh h rowVals :
  exprs rh = Some [] ->
  cookResultRow rh h rowVals =
  Returned (set_curSourceRow rh rowVals, <[fresh (dom h) := []]> h,
            (Datums_slice (fresh (dom h)) 0 0, None)).
Proof. intros Hes. unfold cookResultRow. by rewrite Hes. Qed.

(** What a call leaves of the helper: the planner and the expressions stay;
    the counter moves on the pass-through path only. *)
Lemma cookResultRow_helper {fv : FormatVarMethod} rh h rowVals rh' h' r :
  cookResultRow rh h rowVals = Returned (rh', h', r) ->
  p rh' = p rh /\ exprs rh' = exprs rh /\ source rh' = source rh /\
  rowCount rh' =
    match exprs rh with
    | None => int_add (rowCount rh) 1
    | Some _ => rowCount rh
    end.
Proof.
  unfold cookResultRow. destruct (exprs rh) as [es|] eqn:Hes.
  - unfold make_Datums.
    destruct (cookExprs _ _ _ _ _) as [[h1 [err|]]|pv]; simpl; try done;
      intros [= <- <- <-]; simpl; by rewrite ?Hes.
  - intros [= <- <- <-]. simpl. by rewrite ?Hes.
Qed.

(** The store after a call on a valid row: the arrays it had are as they
    were. *)
Lemma cookResultRow_store {fv : FormatVarMethod} rh h rowVals rh' h' r :
  Datums_valid h rowVals ->
  cookResultRow rh h rowVals = Returned (rh', h', r) ->
  forall a, is_Some (h !! a) -> h' !! a = h !! a.
Proof.
  intros Hv Hc a Ha. destruct (exprs rh) as [es|] eqn:Hes.
  - rewrite (cookResultRow_Some _ _ _ es) in Hc by done.
    destruct (evalExprs _ _ _) as [[ds err]|pv]; simpl in Hc; [|done].
    injection Hc as <- <- <-.
    rewrite lookup_insert_ne; [done|]. intros <-.
    apply elem_of_dom in Ha. by apply is_fresh in Ha.
  - rewrite cookResultRow_None in Hc by done. by injection Hc as <- <- <-.
Qed.

Lemma Datums_valid_store (h h' : gmap positive (list (option Datum))) s :
  (forall a, is_Some (h !! a) -> h' !! a = h !! a) ->
  Datums_valid h s ->
  Datums_elems h' s = Datums_elems h s /\
  forall i, Datums_index h' s i = Datums_index h s i.
Proof.
  intros Hext Hv. destruct s as [|a off n]; [done|].
  apply Datums_valid_slice in Hv. simpl. by rewrite (Hext a Hv).
Qed.

(** The cells of the row a completed call returns. *)
Lemma Datums_elems_result (h : gmap positive (list (option Datum))) a n ds :
  length ds = n ->
  Datums_elems
    (<[a := list_inserts 0 (Some <$> ds) (replicate n None)]> h)
    (Datums_slice a 0 n) = Some (Some <$> ds).
Proof.
  intros Hn. simpl. rewrite lookup_insert_eq.
  rewrite length_inserts, length_replicate.
  destruct (decide _) as [_|]; [|lia]. f_equal.
  rewrite drop_0.
  rewrite <- (app_nil_r (replicate n None)).
  rewrite list_inserts_0_r by (by rewrite length_fmap, length_replicate).
  rewrite app_nil_r. apply take_ge. rewrite length_fmap. lia.
Qed.

(** A valid slice has a cell at each of its indices. *)
Lemma Datums_index_valid h s i :
  Datums_valid h s -> 0 <= i < Z.of_nat (Datums_len s) ->
  exists c, Datums_index h s i = Returned c /\
            exists l, Datums_elems h s = Some l /\ l !! Z.to_nat i = Some c.
Proof.
  intros [l Hl] Hi. destruct s as [|a off n]; simpl in *; [lia|].
  destruct (decide (0 <= i < Z.of_nat n)); [|lia].
  destruct (h !! a) as [arr|]; [|done].
  destruct (decide (off + n <= length arr)%nat); [|done].
  injection Hl as <-.
  destruct (lookup_lt_is_Some_2 arr (off + Z.to_nat i)%nat) as [c Hc]; [lia|].
  exists c. rewrite Hc. split; [done|]. eexists; split; [done|].
  rewrite lookup_take_lt by lia. by rewrite lookup_drop.
Qed.

(** ** The row evaluation loop: main statements *)

(** The statements on the helper are for every method [FormatVar] of the
    source: the binder [fv]. *)

(** C2.  The pass-through case.  A clause of kind "nothing" or "no
    RETURNING clause" gives a helper whose expression list is nil, whatever
    the check and the resolver are; and for a helper whose expression list
    is nil, [cookResultRow] succeeds on every row, returns the very slice
    header it was given and leaves the store as it was (no copy, no
    coercion), and increments [rowCount] once: by Go's [++], which is plus
    one below the largest [int]. *)
Theorem C2_pass_through_returns_input_row {fv : FormatVarMethod} :
  (forall assertFn (nameGen : Type) (auto : nameGen) renderFn
          p0 r desiredTypes tn tablecols,
      r = ReturningNothing \/ r = NoReturningClause ->
      exists rh,
        newReturningHelper assertFn nameGen auto renderFn
          p0 r desiredTypes tn tablecols = Returned (Some rh, None) /\
        exprs rh = None /\ rowCount rh = 0)
  /\
  (forall rh (h : gmap positive (list (option Datum))) rowVals,
      exprs rh = None ->
      cookResultRow rh h rowVals =
        Returned (set_rowCount rh (int_add (rowCount rh) 1), h, (rowVals, None))
      /\ (0 <= rowCount rh < max_int ->
          rowCount (set_rowCount rh (int_add (rowCount rh) 1)) = rowCount rh + 1)).
Proof.
  split.
  - intros assertFn nameGen auto renderFn p0 r desiredTypes tn tablecols Hr.
    eexists. destruct Hr as [-> | ->]; simpl; split_and!; reflexivity.
  - intros rh h rowVals Hes. split; [by apply cookResultRow_None|].
    intros Hr. simpl. apply int_add_no_overflow.
    unfold min_int, max_int in *. lia.
Qed.

Lemma C2_pass_through_witness :
  (exists rh,
      newReturningHelper_single planner_ex NoReturningClause [] "t" schema_kv
        = Returned (Some rh, None) /\
      exprs rh = None /\ rowCount rh = 0)
  /\
  cookResultRow rh_nothing store_ex row_10_20 =
    Returned (set_rowCount rh_nothing 1, store_ex, (row_10_20, None))
  /\ rowCount (set_rowCount rh_nothing (int_add (rowCount rh_nothing) 1)) = 0 + 1.
Proof.
  split.
  - apply (proj1 C2_pass_through_returns_input_row). by right.
  - pose proof (proj2 C2_pass_through_returns_input_row
                  rh_nothing store_ex row_10_20 eq_refl) as [Hc Hn].
    split; [exact Hc|]. apply Hn. unfold max_int. simpl. lia.
Defined.

(** C3 as stated is refuted: it is not the case that every successful call
    increments [rowCount].  With a bound expression the call on the row
    [(10, 20)] succeeds and [rowCount] stays 0. *)
Lemma C3_counter_not_incremented_with_exprs :
  ~ (forall (fv : FormatVarMethod) rh
            (h : gmap positive (list (option Datum))) rowVals rh' h' out,
        cookResultRow rh h rowVals = Returned (rh', h', (out, None)) ->
        rowCount rh' = int_add (rowCount rh) 1).
Proof.
  intros Hclaim.
  specialize (Hclaim formatVar_ex rh_v2 store_ex row_10_20
                (set_curSourceRow rh_v2 row_10_20)
                (<[3%positive := [Some (DInt 40)]]> store_ex)
                (Datums_slice 3%positive 0 1) eq_refl).
  discriminate Hclaim.
Qed.

(** C3, amended.  Every call of [cookResultRow] that returns, with or
    without error, leaves [rowCount] incremented once when the expression
    list is nil (the pass-through case), and unchanged when the list is not
    nil (bound expressions are evaluated). *)
Theorem C3_counter_tracks_pass_through_rows {fv : FormatVarMethod} :
  forall rh (h : gmap positive (list (option Datum))) rowVals rh' h' r,
    cookResultRow rh h rowVals = Returned (rh', h', r) ->
    rowCount rh' =
      match exprs rh with
      | None => int_add (rowCount rh) 1
      | Some _ => rowCount rh
      end.
Proof.
  intros rh h rowVals rh' h' r Hc.
  by apply cookResultRow_helper in Hc as (_ & _ & _ & Hc).
Qed.

Lemma C3_counter_witness :
  rowCount (set_rowCount rh_nothing 1) = 1 /\
  rowCount (set_curSourceRow rh_v2 row_10_20) = 0.
Proof.
  split.
  - exact (C3_counter_tracks_pass_through_rows rh_nothing store_ex row_10_20
             (set_rowCount rh_nothing 1) store_ex (row_10_20, None) eq_refl).
  - exact (C3_counter_tracks_pass_through_rows rh_v2 store_ex row_10_20
             (set_curSourceRow rh_v2 row_10_20)
             (<[3%positive := [Some (DInt 40)]]> store_ex)
             (Datums_slice 3%positive 0 1, None) eq_refl).
Defined.

(** C4.  With a non-empty list of bound expressions, on a valid row:
    [cookResultRow] installs the row as [curSourceRow]; when expression [i]
    evaluates to [ds[i]] for every [i], the call returns without error a
    slice of as many cells as there are expressions, at an address the store
    did not hold before the call, whose cell [i] is [ds[i]]; the arrays the
    store held are as they were.  In particular the helper built for
    [RETURNING v * 2] over the schema [(k INT, v INT)] returns the row
    [(40)] for the row [(10, 20)]. *)
Theorem C4_bound_expressions_evaluated_in_order {fv : FormatVarMethod} :
  (forall rh (h : gmap positive (list (option Datum))) rowVals es ds,
      exprs rh = Some es ->
      es <> [] ->
      Datums_valid h rowVals ->
      Forall2
        (fun e d =>
           Eval (set_curSourceRow rh rowVals) h (evalCtx (p rh)) e
           = Returned (Ok d)) es ds ->
      exists h' a,
        cookResultRow rh h rowVals =
          Returned (set_curSourceRow rh rowVals, h',
                    (Datums_slice a 0 (length es), None)) /\
        curSourceRow (set_curSourceRow rh rowVals) = rowVals /\
        h !! a = None /\
        length ds = length es /\
        Datums_elems h' (Datums_slice a 0 (length es)) = Some (Some <$> ds) /\
        (forall a', is_Some (h !! a') -> h' !! a' = h !! a'))
  /\
  (exists rh rh' h' out,
      newReturningHelper_single planner_ex returning_v2 [] "t" schema_kv
        = Returned (Some rh, None) /\
      cookResultRow rh store_ex row_10_20 = Returned (rh', h', (out, None)) /\
      Datums_elems h' out = Some [Some (DInt 40)]).
Proof.
  split.
  - intros rh h rowVals es ds Hes _ Hv Hall.
    assert (length ds = length es) as Hlen
      by (symmetry; by eapply Forall2_length).
    exists (<[fresh (dom h) :=
               list_inserts 0 (Some <$> ds) (replicate (length es) None)]> h),
           (fresh (dom h)).
    split_and!.
    + rewrite (cookResultRow_Some _ _ _ es) by done.
      pose proof (proj2 (evalExprs_all (set_curSourceRow rh rowVals) h es ds)
                    Hall) as Hev.
      by rewrite Hev.
    + done.
    + apply not_elem_of_dom, is_fresh.
    + done.
    + by apply Datums_elems_result.
    + intros a' Ha'. rewrite lookup_insert_ne; [done|]. intros <-.
      apply elem_of_dom in Ha'. by apply is_fresh in Ha'.
  - exists rh_v2, (set_curSourceRow rh_v2 row_10_20),
           (<[3%positive := [Some (DInt 40)]]> store_ex),
           (Datums_slice 3%positive 0 1).
    split_and!; reflexivity.
Qed.

Lemma C4_bound_expressions_witness :
  exists h' a,
    cookResultRow rh_v2 store_ex row_10_20 =
      Returned (set_curSourceRow rh_v2 row_10_20, h',
                (Datums_slice a 0 1, None)) /\
    curSourceRow (set_curSourceRow rh_v2 row_10_20) = row_10_20 /\
    store_ex !! a = None /\
    length [DInt 40] = 1%nat /\
    Datums_elems h' (Datums_slice a 0 1) = Some [Some (DInt 40)] /\
    (forall a', is_Some (store_ex !! a') -> h' !! a' = store_ex !! a').
Proof.
  apply (proj1 C4_bound_expressions_evaluated_in_order
           rh_v2 store_ex row_10_20
           [BinaryExpr Mult (IndexedVar 1) (DatumExpr (DInt 2))] [DInt 40]).
  - reflexivity.
  - discriminate.
  - by eexists.
  - repeat constructor.
Defined.

(** C5.  On a valid row, when the expressions before expression [e]
    evaluate and [e] fails with [err], [cookResultRow] returns the nil row
    and [err] itself, and leaves [rowCount] as it was; and an error that
    [cookResultRow] returns always is the error of one of the bound
    expressions, returned with the nil row and with [rowCount] as it was. *)
Theorem C5_evaluation_error_propagated_unmodified {fv : FormatVarMethod} :
  (forall rh (h : gmap positive (list (option Datum))) rowVals es es1 e es2 ds err,
      exprs rh = Some es ->
      Datums_valid h rowVals ->
      es = es1 ++ e :: es2 ->
      Forall2
        (fun e d =>
           Eval (set_curSourceRow rh rowVals) h (evalCtx (p rh)) e
           = Returned (Ok d)) es1 ds ->
      Eval (set_curSourceRow rh rowVals) h (evalCtx (p rh)) e
        = Returned (Err err) ->
      exists rh' h',
        cookResultRow rh h rowVals = Returned (rh', h', (Datums_nil, Some err)) /\
        rowCount rh' = rowCount rh)
  /\
  (forall rh (h : gmap positive (list (option Datum))) rowVals rh' h' out err,
      Datums_valid h rowVals ->
      cookResultRow rh h rowVals = Returned (rh', h', (out, Some err)) ->
      out = Datums_nil /\
      rowCount rh' = rowCount rh /\
      exists es e,
        exprs rh = Some es /\ e ∈ es /\
        Eval (set_curSourceRow rh rowVals) h (evalCtx (p rh)) e
          = Returned (Err err)).
Proof.
  split.
  - intros rh h rowVals es es1 e es2 ds err Hes Hv -> Hall He.
    rewrite (cookResultRow_Some _ _ _ (es1 ++ e :: es2)) by done.
    assert (evalExprs (set_curSourceRow rh rowVals) h (es1 ++ e :: es2)
            = Returned (ds, Some err)) as ->.
    { apply evalExprs_error. exists es1, e, es2.
      split_and!; [done | exact Hall | exact He]. }
    simpl. eauto.
  - intros rh h rowVals rh' h' out err Hv Hc.
    destruct (exprs rh) as [es|] eqn:Hes.
    + rewrite (cookResultRow_Some _ _ _ es) in Hc by done.
      destruct (evalExprs _ _ _) as [[ds [err'|]]|pv] eqn:Hev;
        simpl in Hc; try done.
      injection Hc as <- <- <- <-.
      apply evalExprs_error in Hev as (es1 & e & es2 & -> & _ & He).
      split_and!; [done | done |].
      exists (es1 ++ e :: es2), e. split_and!; [done | set_solver | exact He].
    + rewrite cookResultRow_None in Hc by done. by injection Hc.
Qed.

Lemma C5_evaluation_error_witness :
  (exists rh' h',
      cookResultRow rh_overflow store_ex row_10_20 =
        Returned (rh', h',
                  (Datums_nil, Some (EvaluationError "integer out of range"))) /\
      rowCount rh' = rowCount rh_overflow)
  /\
  (Datums_nil = Datums_nil /\
   rowCount (set_curSourceRow rh_overflow row_10_20) = rowCount rh_overflow /\
   exists es e,
     exprs rh_overflow = Some es /\ e ∈ es /\
     Eval (set_curSourceRow rh_overflow row_10_20) store_ex
       (evalCtx (p rh_overflow)) e
       = Returned (Err (EvaluationError "integer out of range"))).
Proof.
  split.
  - apply (proj1 C5_evaluation_error_propagated_unmodified
             rh_overflow store_ex row_10_20
             [BinaryExpr Mult (IndexedVar 1) (DatumExpr (DInt max_int))]
             [] (BinaryExpr Mult (IndexedVar 1) (DatumExpr (DInt max_int)))
             [] []).
    + reflexivity.
    + by eexists.
    + reflexivity.
    + constructor.
    + reflexivity.
  - apply (proj2 C5_evaluation_error_propagated_unmodified
             rh_overflow store_ex row_10_20
             (set_curSourceRow rh_overflow row_10_20)
             (<[3%positive := [None]]> store_ex)).
    + by eexists.
    + reflexivity.
Defined.

(** Two helpers with the same planner whose current rows read alike
    evaluate alike. *)
Lemma evalExprs_ext {fv : FormatVarMethod} rh rh'
    (h h' : gmap positive (list (option Datum))) es :
  p rh = p rh' ->
  (forall idx,
     Datums_index h (curSourceRow rh) idx
     = Datums_index h' (curSourceRow rh') idx) ->
  evalExprs rh h es = evalExprs rh' h' es.
Proof.
  intros Hp Hidx. induction es as [|e es IH]; simpl; [done|].
  rewrite <- Hp, IH.
  rewrite (Eval_ext rh rh' h h'); [done|].
  intros idx _. simpl. unfold returningHelper_IndexedVarEval. by rewrite Hidx.
Qed.

(** Reading a valid slice is reading the list of its cells. *)
Lemma Datums_index_elems (h : gmap positive (list (option Datum))) s cells i :
  Datums_elems h s = Some cells -> Datums_index h s i = index cells i.
Proof.
  unfold index. destruct s as [|a off n]; simpl.
  - intros [= <-]. by destruct (decide (0 <= i)).
  - destruct (h !! a) as [arr|]; [|done].
    destruct (decide (off + n <= length arr)%nat) as [Hlen|]; [|done].
    intros [= <-].
    destruct (decide (0 <= i < Z.of_nat n)) as [Hi|Hi].
    + destruct (decide (0 <= i)); [|lia].
      rewrite lookup_take_lt by lia. rewrite lookup_drop.
      destruct (lookup_lt_is_Some_2 arr (off + Z.to_nat i)%nat) as [c ->];
        [lia | done].
    + destruct (decide (0 <= i)); [|done].
      rewrite lookup_take_ge by lia. done.
Qed.

(** The current row a helper holds when [cookResultRow] is called plays no
    part in the call. *)
Lemma cookResultRow_set_curSourceRow {fv : FormatVarMethod} rh
    (h : gmap positive (list (option Datum))) s rowVals :
  cookResultRow (set_curSourceRow rh s) h rowVals =
  '(rh1, h1, r) ← cookResultRow rh h rowVals;
  Returned (match exprs rh with
            | None => set_curSourceRow rh1 s
            | Some _ => rh1
            end, h1, r).
Proof.
  unfold cookResultRow. cbn [exprs set_curSourceRow].
  destruct (exprs rh) as [es|] eqn:Hes; [|done].
  change (set_curSourceRow (set_curSourceRow rh s) rowVals)
    with (set_curSourceRow rh rowVals).
  destruct (make_Datums h (length es)) as [h0 resRow].
  destruct (cookExprs (set_curSourceRow rh rowVals) resRow 0 es h0)
    as [[h1 [err|]]|pv]; done.
Qed.

(** What a call on a valid row returns is determined by the planner, the
    expressions and the cells of the row. *)
Lemma cookResultRow_cells {fv : FormatVarMethod} rh rh'
    (h h' : gmap positive (list (option Datum))) rowVals rowVals' cells :
  p rh = p rh' ->
  exprs rh = exprs rh' ->
  Datums_elems h rowVals = Some cells ->
  Datums_elems h' rowVals' = Some cells ->
  match cookResultRow rh h rowVals, cookResultRow rh' h' rowVals' with
  | Returned (_, h1, (out, err)), Returned (_, h1', (out', err')) =>
      err = err' /\ Datums_elems h1 out = Datums_elems h1' out'
  | Panicked pv, Panicked pv' => pv = pv'
  | _, _ => False
  end.
Proof.
  intros Hp Hes Hc Hc'.
  assert (Datums_valid h rowVals) as Hv by (by eexists).
  assert (Datums_valid h' rowVals') as Hv' by (by eexists).
  destruct (exprs rh) as [es|] eqn:He.
  - rewrite (cookResultRow_Some rh h rowVals es) by done.
    rewrite (cookResultRow_Some rh' h' rowVals' es) by done.
    rewrite (evalExprs_ext (set_curSourceRow rh rowVals)
               (set_curSourceRow rh' rowVals') h h'); cycle 1.
    { done. }
    { intros idx. cbn [curSourceRow set_curSourceRow].
      by rewrite (Datums_index_elems h rowVals cells),
        (Datums_index_elems h' rowVals' cells). }
    destruct (evalExprs (set_curSourceRow rh' rowVals') h' es)
      as [[ds [err|]]|pv] eqn:Hev; cbn [mbind outcome_bind]; [done | | done].
    split; [done|].
    apply evalExprs_all, Forall2_length in Hev.
    by rewrite !Datums_elems_result.
  - rewrite (cookResultRow_None rh) by done.
    rewrite (cookResultRow_None rh') by done.
    split; [done | congruence].
Qed.

(** C8.  Calls on the same helper are independent.  First, the current row
    a prior call left plays no part in a call: with any other current row
    in its place the call ends alike, with the same panic or with the same
    store, row and error, and it leaves the same helper (in the pass-through
    case, where the current row is not written, the helper keeps the one it
    had).  Second, what a call on a valid row returns is determined by the
    planner and the expressions of the helper and by the cells of the row:
    on two helpers with the same planner and expressions, in two stores, on
    rows with the same cells, the two calls panic alike or return the same
    error and rows with the same cells.  Third, when a call on a valid row A
    returns, and a call on a valid row B returns after it (with or without
    error), a further call on A returns what the first call on A returned,
    the same error and a row with the same cells; and the call on B, when B
    was a valid row before the first call too, returned what a call on B
    returns on the helper as it was before the first call. *)
Theorem C8_calls_do_not_leak_current_row {fv : FormatVarMethod} :
  (forall rh (h : gmap positive (list (option Datum))) s rowVals,
      cookResultRow (set_curSourceRow rh s) h rowVals =
      '(rh1, h1, r) ← cookResultRow rh h rowVals;
      Returned (match exprs rh with
                | None => set_curSourceRow rh1 s
                | Some _ => rh1
                end, h1, r))
  /\
  (forall rh rh' (h h' : gmap positive (list (option Datum)))
          rowVals rowVals' cells,
      p rh = p rh' ->
      exprs rh = exprs rh' ->
      Datums_elems h rowVals = Some cells ->
      Datums_elems h' rowVals' = Some cells ->
      match cookResultRow rh h rowVals, cookResultRow rh' h' rowVals' with
      | Returned (_, h1, (out, err)), Returned (_, h1', (out', err')) =>
          err = err' /\ Datums_elems h1 out = Datums_elems h1' out'
      | Panicked pv, Panicked pv' => pv = pv'
      | _, _ => False
      end)
  /\
  (forall rh0 (h0 : gmap positive (list (option Datum))) rowA rowB
          rh1 h1 out1 err1 rh2 h2 out2 err2,
      Datums_valid h0 rowA ->
      Datums_valid h1 rowB ->
      cookResultRow rh0 h0 rowA = Returned (rh1, h1, (out1, err1)) ->
      cookResultRow rh1 h1 rowB = Returned (rh2, h2, (out2, err2)) ->
      (exists rh3 h3 out3,
          cookResultRow rh2 h2 rowA = Returned (rh3, h3, (out3, err1)) /\
          Datums_elems h3 out3 = Datums_elems h1 out1) /\
      (Datums_valid h0 rowB ->
       exists rhB hB outB,
         cookResultRow rh0 h0 rowB = Returned (rhB, hB, (outB, err2)) /\
         Datums_elems hB outB = Datums_elems h2 out2)).
Proof.
  split_and!.
  - intros rh h s rowVals. apply cookResultRow_set_curSourceRow.
  - intros rh rh' h h' rowVals rowVals' cells. apply cookResultRow_cells.
  - intros rh0 h0 rowA rowB rh1 h1 out1 err1 rh2 h2 out2 err2 HvA HvB Hc1 Hc2.
    pose proof (cookResultRow_helper _ _ _ _ _ _ Hc1) as (Hp1 & He1 & _ & _).
    pose proof (cookResultRow_helper _ _ _ _ _ _ Hc2) as (Hp2 & He2 & _ & _).
    pose proof (cookResultRow_store _ _ _ _ _ _ HvA Hc1) as Hs1.
    pose proof (cookResultRow_store _ _ _ _ _ _ HvB Hc2) as Hs2.
    destruct (Datums_valid_store h0 h1 rowA Hs1 HvA) as [Hel1 _].
    assert (Datums_valid h1 rowA) as HvA1
      by (unfold Datums_valid; by rewrite Hel1).
    destruct (Datums_valid_store h1 h2 rowA Hs2 HvA1) as [Hel2 _].
    split.
    + destruct HvA as [cells HA].
      pose proof (cookResultRow_cells rh2 rh0 h2 h0 rowA rowA cells) as Hsame.
      rewrite Hc1 in Hsame.
      destruct (cookResultRow rh2 h2 rowA) as [[[rh3 h3] [out3 err3]]|pv].
      * destruct Hsame as [-> Hcells];
          [congruence | congruence | congruence | done |]. eauto.
      * destruct Hsame; congruence.
    + intros [cells HB].
      destruct (Datums_valid_store h0 h1 rowB Hs1 (ex_intro _ cells HB))
        as [HelB _].
      pose proof (cookResultRow_cells rh0 rh1 h0 h1 rowB rowB cells) as Hsame.
      rewrite Hc2 in Hsame.
      destruct (cookResultRow rh0 h0 rowB) as [[[rhB hB] [outB errB]]|pv].
      * destruct Hsame as [-> Hcells];
          [congruence | congruence | done | congruence |]. eauto.
      * destruct Hsame; congruence.
Qed.

Lemma C8_calls_witness :
  cookResultRow (set_curSourceRow rh_v2 row_10_20) store_ex row_1_2 =
    ('(rh1, h1, r) ← cookResultRow rh_v2 store_ex row_1_2;
     Returned (match exprs rh_v2 with
               | None => set_curSourceRow rh1 row_10_20
               | Some _ => rh1
               end, h1, r))
  /\
  match cookResultRow (set_curSourceRow rh_v2 row_10_20)
          (<[3%positive := [Some (DInt 40)]]> store_ex) row_1_2,
        cookResultRow rh_v2 store_ex row_1_2 with
  | Returned (_, h1, (out, err)), Returned (_, h1', (out', err')) =>
      err = err' /\ Datums_elems h1 out = Datums_elems h1' out'
  | Panicked pv, Panicked pv' => pv = pv'
  | _, _ => False
  end
  /\
  ((exists rh3 h3 out3,
       cookResultRow (set_curSourceRow rh_v2 row_1_2)
         (<[4%positive := [Some (DInt 4)]]>
            (<[3%positive := [Some (DInt 40)]]> store_ex))
         row_10_20 = Returned (rh3, h3, (out3, None)) /\
       Datums_elems h3 out3 =
       Datums_elems (<[3%positive := [Some (DInt 40)]]> store_ex)
         (Datums_slice 3%positive 0 1)) /\
   (Datums_valid store_ex row_1_2 ->
    exists rhB hB outB,
      cookResultRow rh_v2 store_ex row_1_2 = Returned (rhB, hB, (outB, None)) /\
      Datums_elems hB outB =
      Datums_elems (<[4%positive := [Some (DInt 4)]]>
                      (<[3%positive := [Some (DInt 40)]]> store_ex))
        (Datums_slice 4%positive 0 1))).
Proof.
  pose proof C8_calls_do_not_leak_current_row as (Hprior & Hcells & Hseq).
  refine (conj _ (conj _ _)).
  - apply (Hprior rh_v2 store_ex row_10_20 row_1_2).
  - exact (Hcells (set_curSourceRow rh_v2 row_10_20) rh_v2
             (<[3%positive := [Some (DInt 40)]]> store_ex) store_ex
             row_1_2 row_1_2 [Some (DInt 1); Some (DInt 2)]
             eq_refl eq_refl eq_refl eq_refl).
  - apply (Hseq rh_v2 store_ex row_10_20 row_1_2
             (set_curSourceRow rh_v2 row_10_20)
             (<[3%positive := [Some (DInt 40)]]> store_ex)
             (Datums_slice 3%positive 0 1) None
             (set_curSourceRow rh_v2 row_1_2)
             (<[4%positive := [Some (DInt 4)]]>
                (<[3%positive := [Some (DInt 40)]]> store_ex))
             (Datums_slice 4%positive 0 1) None).
    + by eexists.
    + by eexists.
    + reflexivity.
    + reflexivity.
Defined.

(** A variable read at an index of the schema, under the row invariant. *)
Lemma IndexedVarEval_in_schema rh h idx ctx :
  RowInvariant rh h ->
  0 <= idx < Z.of_nat (schemaLen rh) ->
  exists c,
    Datums_index h (curSourceRow rh) idx = Returned c /\
    returningHelper_IndexedVarEval rh h idx ctx =
      match c with
      | Some d => Returned (Ok d)
      | None => Panicked (RuntimeError NilDereference)
      end.
Proof.
  intros [Hv Hlen] Hidx.
  destruct (Datums_index_valid h (curSourceRow rh) idx) as (c & Hc & _);
    [done | lia |].
  exists c. split; [done|].
  unfold returningHelper_IndexedVarEval. rewrite Hc. simpl. by destruct c.
Qed.

(** C9.  Under the two invariants (every variable index of every bound
    expression is an index into the schema, that is, at least 0 and below
    the schema length; the current row is a valid slice with one cell per
    schema column), [IndexedVarEval] reads a cell of the current row, no
    evaluation of a bound expression ends in an index-out-of-range fault,
    and neither does [cookResultRow] on a row of the schema's length. *)
Theorem C9_variable_reads_stay_in_bounds {fv : FormatVarMethod} :
  (forall rh (h : gmap positive (list (option Datum))) idx ctx,
      RowInvariant rh h ->
      0 <= idx < Z.of_nat (schemaLen rh) ->
      exists c,
        Datums_index h (curSourceRow rh) idx = Returned c /\
        IndexedVarEval rh h idx ctx =
          match c with
          | Some d => Returned (Ok d)
          | None => Panicked (RuntimeError NilDereference)
          end)
  /\
  (forall rh (h : gmap positive (list (option Datum))) es e,
      IndexInvariant rh ->
      RowInvariant rh h ->
      exprs rh = Some es ->
      e ∈ es ->
      Eval rh h (evalCtx (p rh)) e <> Panicked (RuntimeError IndexOutOfRange))
  /\
  (forall rh (h : gmap positive (list (option Datum))) rowVals,
      IndexInvariant rh ->
      Datums_valid h rowVals ->
      Datums_len rowVals = schemaLen rh ->
      cookResultRow rh h rowVals <> Panicked (RuntimeError IndexOutOfRange)).
Proof.
  split_and!.
  - intros rh h idx ctx Hrow Hidx. by apply IndexedVarEval_in_schema.
  - intros rh h es e Hinv Hrow Hes He Hp.
    apply Eval_Panicked in Hp as (idx & Hidx & Hp).
    destruct (IndexedVarEval_in_schema rh h idx (evalCtx (p rh)) Hrow)
      as (c & _ & Hc); [by eapply Hinv|].
    simpl in Hp. rewrite Hc in Hp. by destruct c.
  - intros rh h rowVals Hinv Hv Hlen Hp.
    destruct (exprs rh) as [es|] eqn:Hes.
    + rewrite (cookResultRow_Some _ _ _ es) in Hp by done.
      destruct (evalExprs _ _ _) as [[ds err]|pv] eqn:Hev; simpl in Hp; [done|].
      injection Hp as ->.
      apply evalExprs_Panicked in Hev as (e & idx & He & Hidx & Hp).
      destruct (IndexedVarEval_in_schema (set_curSourceRow rh rowVals) h idx
                  (evalCtx (p rh))) as (c & _ & Hc).
      { split; [done | exact Hlen]. }
      { eapply (Hinv es e idx); done. }
      simpl in Hp. rewrite Hc in Hp. by destruct c.
    + by rewrite cookResultRow_None in Hp.
Qed.

Lemma rh_v2_IndexInvariant rowVals :
  IndexInvariant (set_curSourceRow rh_v2 rowVals).
Proof.
  intros es e i [= <-] ->%list_elem_of_singleton Hi.
  simpl in Hi. apply list_elem_of_singleton in Hi as ->.
  change (0 <= 1 < 2). lia.
Qed.

Lemma rh_v2_RowInvariant :
  RowInvariant (set_curSourceRow rh_v2 row_10_20) store_ex.
Proof. split; [by eexists | reflexivity]. Qed.

Lemma C9_variable_reads_witness :
  (exists c,
      Datums_index store_ex row_10_20 1 = Returned c /\
      IndexedVarEval (set_curSourceRow rh_v2 row_10_20) store_ex 1 ctx_empty =
        match c with
        | Some d => Returned (Ok d)
        | None => Panicked (RuntimeError NilDereference)
        end)
  /\
  Eval (set_curSourceRow rh_v2 row_10_20) store_ex ctx_empty
    (BinaryExpr Mult (IndexedVar 1) (DatumExpr (DInt 2)))
    <> Panicked (RuntimeError IndexOutOfRange)
  /\
  cookResultRow rh_v2 store_ex row_10_20
    <> Panicked (RuntimeError IndexOutOfRange).
Proof.
  split_and!.
  - apply (proj1 C9_variable_reads_stay_in_bounds
             (set_curSourceRow rh_v2 row_10_20) store_ex 1 ctx_empty).
    + apply rh_v2_RowInvariant.
    + change (0 <= 1 < 2). lia.
  - apply (proj1 (proj2 C9_variable_reads_stay_in_bounds)
             (set_curSourceRow rh_v2 row_10_20) store_ex
             [BinaryExpr Mult (IndexedVar 1) (DatumExpr (DInt 2))]).
    + apply rh_v2_IndexInvariant.
    + apply rh_v2_RowInvariant.
    + reflexivity.
    + apply list_elem_of_singleton. reflexivity.
  - apply (proj2 (proj2 C9_variable_reads_stay_in_bounds)
             rh_v2 store_ex row_10_20).
    + apply (rh_v2_IndexInvariant Datums_nil).
    + by eexists.
    + reflexivity.
Defined.

(** ** The encoder: leaves and faults *)

Lemma leaves_VarLeaf e idx : VarLeaf idx ∈ leaves e <-> idx ∈ vars e.
Proof.
  induction e as [d|i|name|op l IHl r IHr]; simpl.
  - set_solver.
  - rewrite !list_elem_of_singleton. split; [by intros [= ->] | by intros ->].
  - rewrite list_elem_of_singleton. split; [done | by intros ?%elem_of_nil].
  - rewrite !elem_of_app. tauto.
Qed.

Lemma leaves_PlaceholderLeaf e name :
  PlaceholderLeaf name ∈ leaves e <-> name ∈ placeholders e.
Proof.
  induction e as [d|i|n|op l IHl r IHr]; simpl.
  - set_solver.
  - rewrite list_elem_of_singleton. split; [done | by intros ?%elem_of_nil].
  - rewrite !list_elem_of_singleton. split; [by intros [= ->] | by intros ->].
  - rewrite !elem_of_app. tauto.
Qed.

Lemma firstPanic_None ctx m e :
  firstPanic ctx m e = None <->
  forall l, l ∈ leaves e -> leafPanic ctx m l = None.
Proof.
  unfold firstPanic. rewrite head_None. split.
  - intros Hnil l Hl. destruct (leafPanic ctx m l) as [pv|] eqn:Hpv; [|done].
    assert (pv ∈ omap (leafPanic ctx m) (leaves e)) as Hin
      by (apply list_elem_of_omap; eauto).
    rewrite Hnil in Hin. by apply elem_of_nil in Hin.
  - intros Hall.
    destruct (omap (leafPanic ctx m) (leaves e)) as [|pv pvs] eqn:Ho; [done|].
    assert (pv ∈ omap (leafPanic ctx m) (leaves e)) as Hin
      by (rewrite Ho; set_solver).
    apply list_elem_of_omap in Hin as (l & Hl & Hpv).
    rewrite (Hall l Hl) in Hpv. done.
Qed.

Lemma firstPanic_Some ctx m e pv :
  firstPanic ctx m e = Some pv ->
  exists l, l ∈ leaves e /\ leafPanic ctx m l = Some pv.
Proof.
  unfold firstPanic. intros Hh%head_Some_elem_of.
  by apply list_elem_of_omap in Hh.
Qed.

Lemma firstPanic_is_Some ctx m e l pv :
  l ∈ leaves e -> leafPanic ctx m l = Some pv ->
  exists pv', firstPanic ctx m e = Some pv'.
Proof.
  intros Hl Hpv. destruct (firstPanic ctx m e) as [pv'|] eqn:Hf; [eauto|].
  rewrite firstPanic_None in Hf. rewrite (Hf l Hl) in Hpv. done.
Qed.

(** The encoder returns exactly when no leaf has a fault. *)
Lemma firstPanic_None_iff ctx m e :
  firstPanic ctx m e = None <->
  (forall name, name ∈ placeholders e -> is_Some (Placeholders ctx !! name)) /\
  (forall m0 idx, m = Some m0 -> idx ∈ vars e ->
     exists j, remapEntry m0 idx = Some j /\ 0 <= j).
Proof.
  rewrite firstPanic_None. split.
  - intros Hall. split.
    + intros name Hn%leaves_PlaceholderLeaf. specialize (Hall _ Hn).
      simpl in Hall. by destruct (Placeholders ctx !! name).
    + intros m0 idx -> Hi%leaves_VarLeaf. specialize (Hall _ Hi).
      simpl in Hall. destruct (remapEntry m0 idx) as [j|]; [|done].
      exists j. split; [done|]. destruct (decide (j < 0)); [done | lia].
  - intros [Hph Hvar] [idx|name] Hl; simpl.
    + destruct m as [m0|]; [|done].
      apply leaves_VarLeaf in Hl.
      destruct (Hvar m0 idx eq_refl Hl) as (j & -> & Hj).
      destruct (decide (j < 0)); [lia | done].
    + apply leaves_PlaceholderLeaf in Hl.
      by destruct (Hph name Hl) as [d ->].
Qed.

(** The bound expression has the variables of the expression, and the
    placeholders that have no value. *)
Lemma vars_bindPlaceholders ctx e : vars (bindPlaceholders ctx e) = vars e.
Proof.
  induction e as [d|i|n|op l IHl r IHr]; simpl; try done.
  - by destruct (Placeholders ctx !! n).
  - by rewrite IHl, IHr.
Qed.

Lemma placeholders_bindPlaceholders ctx e :
  (forall name, name ∈ placeholders e -> is_Some (Placeholders ctx !! name)) ->
  placeholders (bindPlaceholders ctx e) = [].
Proof.
  induction e as [d|i|n|op l IHl r IHr]; simpl; intros Hph; try done.
  - destruct (Hph n) as [d ->]; [set_solver | done].
  - rewrite IHl, IHr; [done | |]; intros name Hn; apply Hph; set_solver.
Qed.

Lemma bindPlaceholders_id ctx e :
  placeholders e = [] -> bindPlaceholders ctx e = e.
Proof.
  induction e as [d|i|n|op l IHl r IHr]; simpl; try done.
  intros [Hl Hr]%app_eq_nil. by rewrite IHl, IHr.
Qed.

Lemma leaves_no_placeholders e :
  placeholders e = [] -> leaves e = VarLeaf <$> vars e.
Proof.
  induction e as [d|i|n|op l IHl r IHr]; simpl; try done.
  intros [Hl Hr]%app_eq_nil. by rewrite IHl, IHr, fmap_app.
Qed.

Lemma omap_fmap_ext {A B D : Type} (f f' : B -> option D) (g : A -> B)
    (l : list A) :
  (forall x, f (g x) = f' (g x)) -> omap f (g <$> l) = omap f' (g <$> l).
Proof.
  intros Hf. induction l as [|x l IH]; [done|].
  csimpl. by rewrite Hf, IH.
Qed.

Lemma firstPanic_no_placeholders ctx ctx' m e :
  placeholders e = [] -> firstPanic ctx m e = firstPanic ctx' m e.
Proof.
  intros Hph. unfold firstPanic. rewrite (leaves_no_placeholders e Hph).
  f_equal. by apply omap_fmap_ext.
Qed.

(** An expression without placeholders is encoded alike in every
    evaluation context. *)
Lemma MakeExpression_no_placeholders
    `{IndexedVarContainer C} {c : C} ctx ctx' m e :
  placeholders e = [] ->
  MakeExpression c (Some e) ctx m = MakeExpression c (Some e) ctx' m.
Proof.
  intros Hph. rewrite !MakeExpression_Some.
  rewrite !(bindPlaceholders_id _ e) by done.
  by rewrite (firstPanic_no_placeholders ctx ctx').
Qed.

(** Binding the placeholders first does not change what is encoded. *)
Lemma MakeExpression_bindPlaceholders
    `{IndexedVarContainer C} {c : C} ctx m e x :
  MakeExpression c (Some e) ctx m = Returned x ->
  MakeExpression c (Some (bindPlaceholders ctx e)) ctx m = Returned x.
Proof.
  rewrite !MakeExpression_Some.
  destruct (firstPanic ctx m e) as [pv|] eqn:Hf; [done|].
  intros [= <-].
  apply firstPanic_None_iff in Hf as [Hph Hvar].
  assert (firstPanic ctx m (bindPlaceholders ctx e) = None) as ->.
  { apply firstPanic_None_iff. split.
    - rewrite placeholders_bindPlaceholders by done. by intros name ?%elem_of_nil.
    - intros m0 idx -> Hidx. rewrite vars_bindPlaceholders in Hidx. eauto. }
  rewrite (bindPlaceholders_id ctx (bindPlaceholders ctx e)); [done|].
  by apply placeholders_bindPlaceholders.
Qed.

(** ** The encoder: main statements *)

(** The statements on the encoder are for every container [c] the
    variables of the expression link to, of every type that implements
    [IndexedVarContainer]: with the flags the encoder builds, the container
    is never asked for the text of a variable. *)

(** C1.  Whatever the container of the variables would write for them, a
    variable leaf at local index [i] is encoded as [@] followed by
    [i + 1] when no table is supplied, and by [j + 1] when the supplied
    table has the entry [j >= 0] for [i] (the sum is Go's, which is the
    mathematical one below the largest [int]); when the entry is negative
    the call panics with the message "unmapped index i".  For a whole
    expression: without table, or with a table that maps all its variables,
    the text is the wire text of the expression with the variables moved to
    their entries; with a variable whose entry is negative the call never
    returns (the result type of the encoder has no error component: a
    failure is a panic).  The expression [@1 + @2] is encoded as [@3 + @6]
    with the table [{0 -> 2, 1 -> 5}] and as [@1 + @2] without table. *)
Theorem C1_variables_rendered_by_remapped_ordinal
    `{IndexedVarContainer C} (c : C) :
  (forall ctx idx,
      MakeExpression c (Some (IndexedVar idx)) ctx None =
      Returned (distsqlrun.mkExpression ("@" +:+ fmt_d (int_add idx 1))))
  /\
  (forall ctx m idx j,
      remapEntry m idx = Some j -> 0 <= j ->
      MakeExpression c (Some (IndexedVar idx)) ctx (Some m) =
      Returned (distsqlrun.mkExpression ("@" +:+ fmt_d (int_add j 1))))
  /\
  (forall ctx m idx j,
      remapEntry m idx = Some j -> j < 0 ->
      MakeExpression c (Some (IndexedVar idx)) ctx (Some m) =
      Panicked (PanicString ("unmapped index " +:+ fmt_d idx)))
  /\
  (forall j, min_int <= j < max_int -> int_add j 1 = j + 1)
  /\
  (forall ctx e,
      (forall name, name ∈ placeholders e ->
                    is_Some (Placeholders ctx !! name)) ->
      MakeExpression c (Some e) ctx None =
      Returned (distsqlrun.mkExpression (wireText (bindPlaceholders ctx e))))
  /\
  (forall ctx m e,
      (forall name, name ∈ placeholders e ->
                    is_Some (Placeholders ctx !! name)) ->
      (forall idx, idx ∈ vars e -> exists j, remapEntry m idx = Some j /\ 0 <= j) ->
      MakeExpression c (Some e) ctx (Some m) =
      Returned (distsqlrun.mkExpression
                  (wireText (remapVars (Some m) (bindPlaceholders ctx e)))))
  /\
  (forall ctx m e idx j,
      idx ∈ vars e -> remapEntry m idx = Some j -> j < 0 ->
      exists pv, MakeExpression c (Some e) ctx (Some m) = Panicked pv)
  /\
  (forall ctx m e idx j,
      (forall name, name ∈ placeholders e ->
                    is_Some (Placeholders ctx !! name)) ->
      (forall idx', idx' ∈ vars e -> is_Some (remapEntry m idx')) ->
      idx ∈ vars e -> remapEntry m idx = Some j -> j < 0 ->
      exists idx' j',
        idx' ∈ vars e /\ remapEntry m idx' = Some j' /\ j' < 0 /\
        MakeExpression c (Some e) ctx (Some m) =
        Panicked (PanicString ("unmapped index " +:+ fmt_d idx')))
  /\
  MakeExpression c (Some expr_sum) ctx_empty (Some [2; 5]) =
    Returned (distsqlrun.mkExpression "@3 + @6")
  /\
  MakeExpression c (Some expr_sum) ctx_empty None =
    Returned (distsqlrun.mkExpression "@1 + @2").
Proof.
  split_and!.
  - intros ctx idx. by rewrite MakeExpression_Some.
  - intros ctx m idx j Hj Hpos. rewrite MakeExpression_Some.
    unfold firstPanic. simpl. rewrite Hj. simpl.
    destruct (decide (j < 0)); [lia | done].
  - intros ctx m idx j Hj Hneg. rewrite MakeExpression_Some.
    unfold firstPanic. simpl. rewrite Hj.
    destruct (decide (j < 0)); [done | lia].
  - intros j Hj. apply int_add_no_overflow. unfold min_int, max_int in *. lia.
  - intros ctx e Hph. rewrite MakeExpression_Some.
    assert (firstPanic ctx None e = None) as ->
      by (apply firstPanic_None_iff; split; [done | by intros m0 idx [=]]).
    f_equal. f_equal. f_equal.
    generalize (bindPlaceholders ctx e). intros e'.
    induction e' as [d|i|n|op l IHl r IHr]; simpl; try done.
    by rewrite IHl, IHr.
  - intros ctx m e Hph Hvar. rewrite MakeExpression_Some.
    assert (firstPanic ctx (Some m) e = None) as ->; [|done].
    apply firstPanic_None_iff. split; [done|]. intros m0 idx [= <-]. eauto.
  - intros ctx m e idx j Hidx Hj Hneg. rewrite MakeExpression_Some.
    destruct (firstPanic_is_Some ctx (Some m) e (VarLeaf idx)
                (PanicString ("unmapped index " +:+ fmt_d idx)))
      as [pv ->]; [by apply leaves_VarLeaf | | eauto].
    simpl. rewrite Hj. destruct (decide (j < 0)); [done | lia].
  - intros ctx m e idx j Hph Hvar Hidx Hj Hneg. rewrite MakeExpression_Some.
    destruct (firstPanic_is_Some ctx (Some m) e (VarLeaf idx)
                (PanicString ("unmapped index " +:+ fmt_d idx)))
      as [pv Hpv]; [by apply leaves_VarLeaf | |].
    { simpl. rewrite Hj. destruct (decide (j < 0)); [done | lia]. }
    rewrite Hpv.
    apply firstPanic_Some in Hpv as ([idx'|name] & Hl & Hpv); simpl in Hpv.
    + apply leaves_VarLeaf in Hl.
      destruct (remapEntry m idx') as [j'|] eqn:Hj';
        [|destruct (Hvar idx' Hl) as [j' Hs]; congruence].
      destruct (decide (j' < 0)); [|done].
      injection Hpv as <-. by exists idx', j'.
    + apply leaves_PlaceholderLeaf in Hl.
      by destruct (Hph name Hl) as [d Hd]; rewrite Hd in Hpv.
  - reflexivity.
  - reflexivity.
Qed.

Lemma C1_variables_witness :
  MakeExpression rh_v2 (Some (IndexedVar 1)) ctx_empty (Some [2; 5]) =
    Returned (distsqlrun.mkExpression "@6")
  /\
  MakeExpression rh_v2 (Some (IndexedVar 1)) ctx_empty (Some [2; -1]) =
    Panicked (PanicString "unmapped index 1")
  /\
  int_add 5 1 = 5 + 1
  /\
  MakeExpression rh_v2 (Some expr_sum) ctx_empty None =
    Returned (distsqlrun.mkExpression "@1 + @2")
  /\
  MakeExpression rh_v2 (Some expr_sum) ctx_empty (Some [2; 5]) =
    Returned (distsqlrun.mkExpression "@3 + @6")
  /\
  (exists pv,
      MakeExpression rh_v2 (Some expr_sum) ctx_empty (Some [2; -1]) = Panicked pv)
  /\
  (exists idx' j',
      idx' ∈ vars expr_sum /\ remapEntry [2; -1] idx' = Some j' /\ j' < 0 /\
      MakeExpression rh_v2 (Some expr_sum) ctx_empty (Some [2; -1]) =
      Panicked (PanicString ("unmapped index " +:+ fmt_d idx'))).
Proof.
  pose proof (C1_variables_rendered_by_remapped_ordinal rh_v2)
    as (_ & Hmapped & Hunmapped & Hadd & Hnone & Hsome & Hpanic & Hfirst & _ & _).
  split_and!.
  - apply (Hmapped ctx_empty [2; 5] 1 5); [reflexivity | lia].
  - apply (Hunmapped ctx_empty [2; -1] 1 (-1)); [reflexivity | lia].
  - apply (Hadd 5). unfold min_int, max_int. lia.
  - apply (Hnone ctx_empty expr_sum). intros name Hn. simpl in Hn.
    by apply elem_of_nil in Hn.
  - apply (Hsome ctx_empty [2; 5] expr_sum).
    + intros name Hn. simpl in Hn. by apply elem_of_nil in Hn.
    + intros idx Hidx. simpl in Hidx.
      apply elem_of_cons in Hidx as [-> | Hidx];
        [exists 2; split; [reflexivity | lia]|].
      apply list_elem_of_singleton in Hidx as ->.
      exists 5; split; [reflexivity | lia].
  - apply (Hpanic ctx_empty [2; -1] expr_sum 1 (-1)).
    + simpl. do 2 constructor.
    + reflexivity.
    + lia.
  - apply (Hfirst ctx_empty [2; -1] expr_sum 1 (-1)).
    + intros name Hn. simpl in Hn. by apply elem_of_nil in Hn.
    + intros idx Hidx. simpl in Hidx.
      apply elem_of_cons in Hidx as [-> | Hidx]; [by eexists|].
      apply list_elem_of_singleton in Hidx as ->. by eexists.
    + simpl. do 2 constructor.
    + reflexivity.
    + lia.
Defined.

(** C7.  A placeholder leaf is evaluated against the evaluation context
    when it is met, and the text of its value is written in its place; when
    its evaluation fails the encoder panics with the message "failed to
    serialize placeholder: ...".  For a whole expression: when the encoder
    returns, every placeholder of the expression has a value, and the text
    is that of the expression with the values in place of the placeholders,
    an expression without placeholders whose encoding no longer depends on
    an evaluation context; when some placeholder has no value, the encoder
    never returns. *)
Theorem C7_placeholders_replaced_by_their_values
    `{IndexedVarContainer C} (c : C) :
  (forall ctx m name d,
      Placeholder_Eval name ctx = Ok d ->
      MakeExpression c (Some (Placeholder name)) ctx m =
      Returned (distsqlrun.mkExpression (Datum_String d)))
  /\
  (forall ctx m name err,
      Placeholder_Eval name ctx = Err err ->
      MakeExpression c (Some (Placeholder name)) ctx m =
      Panicked (PanicString ("failed to serialize placeholder: " +:+ Error err)))
  /\
  (forall ctx m e x,
      MakeExpression c (Some e) ctx m = Returned x ->
      (forall name, name ∈ placeholders e ->
                    exists d, Placeholder_Eval name ctx = Ok d) /\
      placeholders (bindPlaceholders ctx e) = [] /\
      forall ctx',
        MakeExpression c (Some (bindPlaceholders ctx e)) ctx' m = Returned x)
  /\
  (forall ctx m e name err,
      name ∈ placeholders e ->
      Placeholder_Eval name ctx = Err err ->
      exists pv, MakeExpression c (Some e) ctx m = Panicked pv).
Proof.
  split_and!.
  - intros ctx m name d Hd. rewrite MakeExpression_Some.
    unfold Placeholder_Eval in Hd. unfold firstPanic. simpl.
    destruct (Placeholders ctx !! name) as [d'|]; [|done].
    injection Hd as ->. by destruct m.
  - intros ctx m name err Herr. rewrite MakeExpression_Some.
    unfold Placeholder_Eval in Herr. unfold firstPanic. simpl.
    destruct (Placeholders ctx !! name) as [d'|]; [done|].
    by injection Herr as <-.
  - intros ctx m e x Hx.
    assert (forall name, name ∈ placeholders e ->
                         is_Some (Placeholders ctx !! name)) as Hph.
    { rewrite MakeExpression_Some in Hx.
      destruct (firstPanic ctx m e) as [pv|] eqn:Hf; [done|].
      by apply firstPanic_None_iff in Hf as [Hph _]. }
    split_and!.
    + intros name [d Hd]%Hph. exists d. unfold Placeholder_Eval. by rewrite Hd.
    + by apply placeholders_bindPlaceholders.
    + intros ctx'.
      rewrite (MakeExpression_no_placeholders ctx' ctx)
        by (by apply placeholders_bindPlaceholders).
      by apply MakeExpression_bindPlaceholders.
  - intros ctx m e name err Hname Herr. rewrite MakeExpression_Some.
    destruct (firstPanic_is_Some ctx m e (PlaceholderLeaf name)
                (PanicString ("failed to serialize placeholder: "
                                +:+ "no value provided for placeholder: $"
                                +:+ name)))
      as [pv ->]; [by apply leaves_PlaceholderLeaf | | eauto].
    unfold Placeholder_Eval in Herr. simpl.
    by destruct (Placeholders ctx !! name).
Qed.

Lemma C7_placeholders_witness :
  MakeExpression rh_v2 (Some (Placeholder "1"))
    (mkEvalContext {[ "1" := DInt 4 ]}) (Some [2; 5]) =
    Returned (distsqlrun.mkExpression "4")
  /\
  MakeExpression rh_v2 (Some (Placeholder "1")) ctx_empty None =
    Panicked (PanicString
                "failed to serialize placeholder: no value provided for placeholder: $1")
  /\
  ((forall name,
       name ∈ placeholders (BinaryExpr Mult (Placeholder "1") (IndexedVar 1)) ->
       exists d, Placeholder_Eval name (mkEvalContext {[ "1" := DInt 4 ]}) = Ok d) /\
   placeholders
     (bindPlaceholders (mkEvalContext {[ "1" := DInt 4 ]})
        (BinaryExpr Mult (Placeholder "1") (IndexedVar 1))) = [] /\
   forall ctx',
     MakeExpression rh_v2
       (Some (bindPlaceholders (mkEvalContext {[ "1" := DInt 4 ]})
                (BinaryExpr Mult (Placeholder "1") (IndexedVar 1))))
       ctx' None = Returned (distsqlrun.mkExpression "4 * @2"))
  /\
  (exists pv,
      MakeExpression rh_v2 (Some (BinaryExpr Mult (Placeholder "1") (IndexedVar 1)))
        ctx_empty None = Panicked pv).
Proof.
  pose proof (C7_placeholders_replaced_by_their_values rh_v2)
    as (Hok & Herr & Htree & Hpanic).
  refine (conj _ (conj _ (conj _ _))).
  - apply (Hok (mkEvalContext {[ "1" := DInt 4 ]}) (Some [2; 5]) "1" (DInt 4)).
    reflexivity.
  - apply (Herr ctx_empty None "1"
             (EvaluationError "no value provided for placeholder: $1")).
    reflexivity.
  - apply (Htree (mkEvalContext {[ "1" := DInt 4 ]}) None
             (BinaryExpr Mult (Placeholder "1") (IndexedVar 1))).
    reflexivity.
  - apply (Hpanic ctx_empty None
             (BinaryExpr Mult (Placeholder "1") (IndexedVar 1)) "1"
             (EvaluationError "no value provided for placeholder: $1")).
    + simpl. constructor.
    + reflexivity.
Defined.

(** C10.  The variable interceptor built around a table panics with the
    message "unmapped index i" exactly when [i] is an index of the table
    and the entry at [i] is negative; an index at or above the table's
    length (or below 0) gives the index-out-of-range fault of the slice
    access instead, before any entry is looked at.  For a whole expression,
    a panic whose message starts with "unmapped index" names a variable of
    the expression that is an index of the table with a negative entry, and
    an index-out-of-range fault comes from a variable that is not an index
    of the table. *)
Theorem C10_unmapped_only_within_table_bounds `{IndexedVarContainer C} (c : C) :
  (forall m flags idx buf,
      indexVarMapFormat m flags idx buf =
        Panicked (PanicString ("unmapped index " +:+ fmt_d idx))
      <->
      exists j,
        0 <= idx < Z.of_nat (length m) /\
        m !! Z.to_nat idx = Some j /\ j < 0)
  /\
  (forall m flags idx buf,
      idx < 0 \/ Z.of_nat (length m) <= idx ->
      indexVarMapFormat m flags idx buf = Panicked (RuntimeError IndexOutOfRange))
  /\
  (forall ctx m idx,
      Z.of_nat (length m) <= idx ->
      MakeExpression c (Some (IndexedVar idx)) ctx (Some m) =
      Panicked (RuntimeError IndexOutOfRange))
  /\
  (forall ctx m e s,
      MakeExpression c (Some e) ctx (Some m) = Panicked (PanicString s) ->
      String.prefix "unmapped index" s = true ->
      exists idx j,
        idx ∈ vars e /\
        0 <= idx < Z.of_nat (length m) /\
        m !! Z.to_nat idx = Some j /\ j < 0 /\
        s = "unmapped index " +:+ fmt_d idx)
  /\
  (forall ctx m e,
      MakeExpression c (Some e) ctx (Some m) =
        Panicked (RuntimeError IndexOutOfRange) ->
      exists idx,
        idx ∈ vars e /\ (idx < 0 \/ Z.of_nat (length m) <= idx)).
Proof.
  split_and!.
  - intros m flags idx buf. unfold indexVarMapFormat.
    rewrite index_remapEntry.
    destruct (remapEntry m idx) as [j|] eqn:Hj; simpl.
    + apply remapEntry_Some in Hj as [Hidx Hj].
      pose proof (lookup_lt_Some _ _ _ Hj) as Hlt.
      destruct (decide (j < 0)).
      * split; [|done]. intros _. exists j. split_and!; [lia | lia | done | done].
      * split; [done|]. intros (j' & _ & Hj' & Hneg). congruence.
    + split; [done|]. intros (j & Hidx & Hj' & _).
      apply remapEntry_None in Hj. lia.
  - intros m flags idx buf Hidx. unfold indexVarMapFormat.
    rewrite index_remapEntry.
    by apply remapEntry_None in Hidx as ->.
  - intros ctx m idx Hidx. rewrite MakeExpression_Some.
    unfold firstPanic. simpl.
    assert (remapEntry m idx = None) as -> by (apply remapEntry_None; lia).
    done.
  - intros ctx m e s. rewrite MakeExpression_Some.
    destruct (firstPanic ctx (Some m) e) as [pv|] eqn:Hf; [|done].
    intros [= ->] Hpre.
    apply firstPanic_Some in Hf as ([idx|name] & Hl & Hpv); simpl in Hpv.
    + destruct (remapEntry m idx) as [j|] eqn:Hj; [|done].
      destruct (decide (j < 0)); [|done].
      injection Hpv as <-.
      apply remapEntry_Some in Hj as [Hidx Hj].
      pose proof (lookup_lt_Some _ _ _ Hj) as Hlt.
      exists idx, j.
      split_and!; [by apply leaves_VarLeaf | lia | lia | done | done | done].
    + destruct (Placeholders ctx !! name); [done|].
      injection Hpv as <-. vm_compute in Hpre. discriminate.
  - intros ctx m e. rewrite MakeExpression_Some.
    destruct (firstPanic ctx (Some m) e) as [pv|] eqn:Hf; [|done].
    intros [= ->].
    apply firstPanic_Some in Hf as ([idx|name] & Hl & Hpv); simpl in Hpv.
    + destruct (remapEntry m idx) as [j|] eqn:Hj.
      * by destruct (decide (j < 0)).
      * exists idx. split; [by apply leaves_VarLeaf|].
        by apply remapEntry_None.
    + by destruct (Placeholders ctx !! name).
Qed.

Lemma C10_unmapped_witness :
  indexVarMapFormat [2; -1] fmtParsable 1 "" =
    Panicked (PanicString "unmapped index 1")
  /\
  indexVarMapFormat [2; 5] fmtParsable 2 "" =
    Panicked (RuntimeError IndexOutOfRange)
  /\
  MakeExpression rh_v2 (Some (IndexedVar 2)) ctx_empty (Some [2; 5]) =
    Panicked (RuntimeError IndexOutOfRange)
  /\
  (exists idx j,
      idx ∈ vars expr_sum /\
      0 <= idx < Z.of_nat (length [2; -1]) /\
      [2; -1] !! Z.to_nat idx = Some j /\ j < 0 /\
      "unmapped index 1" = "unmapped index " +:+ fmt_d idx)
  /\
  (exists idx,
      idx ∈ vars (IndexedVar 7) /\
      (idx < 0 \/ Z.of_nat (length [2; 5]) <= idx)).
Proof.
  pose proof (C10_unmapped_only_within_table_bounds rh_v2)
    as (Hiff & Hrange & Hleaf & Htree & Hfault).
  split_and!.
  - apply (Hiff [2; -1] fmtParsable 1 ""). exists (-1).
    split_and!; [lia | simpl; lia | reflexivity | lia].
  - apply (Hrange [2; 5] fmtParsable 2 ""). right. simpl. lia.
  - apply (Hleaf ctx_empty [2; 5] 2). simpl. lia.
  - apply (Htree ctx_empty [2; -1] expr_sum "unmapped index 1");
      reflexivity.
  - apply (Hfault ctx_empty [2; 5] (IndexedVar 7)). reflexivity.
Defined.

(** ** Construction: main statements *)

Section Construction.

Variable assertFn : Expr -> string -> list string -> option error.
Variable nameGen : Type.
Variable auto : nameGen.
Variable renderFn :
  planner -> SelectExpr -> T -> multiSourceInfo -> IndexedVarHelper ->
  nameGen -> ResultColumns * list TypedExpr * bool * option error.

(** The first loop passes when the check accepts every expression. *)
Lemma assertReturningExprs_None p0 rExprs :
  assertReturningExprs assertFn p0 rExprs = None <->
  forall e, e ∈ rExprs ->
    assertFn (SelectExpr_Expr e) "RETURNING" (SearchPath (session p0)) = None.
Proof.
  induction rExprs as [|e rExprs IH]; simpl.
  - split; [by intros _ e ?%elem_of_nil | done].
  - destruct (assertFn (SelectExpr_Expr e) "RETURNING"
                (SearchPath (session p0))) as [err|] eqn:He.
    + split; [done|]. intros Hall. rewrite Hall in He; [done | constructor].
    + rewrite IH. split.
      * intros Hall e' [-> | He']%elem_of_cons; [done | by apply Hall].
      * intros Hall e' He'. apply Hall. by constructor.
Qed.

(** When the first loop meets an expression the check rejects, the error it
    returns is the error of the first such expression. *)
Lemma assertReturningExprs_first p0 rExprs e :
  e ∈ rExprs ->
  is_Some (assertFn (SelectExpr_Expr e) "RETURNING" (SearchPath (session p0))) ->
  exists es1 e1 es2 err,
    rExprs = es1 ++ e1 :: es2 /\
    (forall e', e' ∈ es1 ->
       assertFn (SelectExpr_Expr e') "RETURNING" (SearchPath (session p0)) = None) /\
    assertFn (SelectExpr_Expr e1) "RETURNING" (SearchPath (session p0)) = Some err /\
    assertReturningExprs assertFn p0 rExprs = Some err.
Proof.
  induction rExprs as [|e0 rExprs IH]; [by intros ?%elem_of_nil|].
  intros He Hsome. simpl.
  destruct (assertFn (SelectExpr_Expr e0) "RETURNING"
              (SearchPath (session p0))) as [err|] eqn:He0.
  - exists [], e0, rExprs, err. split_and!; [done | | done | done].
    by intros e' ?%elem_of_nil.
  - apply elem_of_cons in He as [-> | He].
    + rewrite He0 in Hsome. by destruct Hsome.
    + destruct (IH He Hsome) as (es1 & e1 & es2 & err & -> & Hes1 & He1 & Hall).
      exists (e0 :: es1), e1, es2, err. split_and!; [done | | done | done].
      intros e' [-> | He']%elem_of_cons; [done | by apply Hes1].
Qed.

End Construction.

Lemma AssertNoAggregationOrWindowing_rejects e op searchPath :
  transform.AggregateInExpr e = true \/ transform.WindowFuncInExpr e = true ->
  transform.AssertNoAggregationOrWindowing e op searchPath =
    Some (ConstructionError ("aggregate functions are not allowed in " +:+ op))
  \/
  transform.AssertNoAggregationOrWindowing e op searchPath =
    Some (ConstructionError ("window functions are not allowed in " +:+ op)).
Proof.
  unfold transform.AssertNoAggregationOrWindowing.
  intros [Ha | Hw].
  - rewrite Ha. by left.
  - destruct (transform.AggregateInExpr e); [by left|]. rewrite Hw. by right.
Qed.

(** C6.  [newReturningHelper] treats its clause in three ways, whatever the
    check and the resolver are.  A "nothing" or "no RETURNING" clause gives
    the empty helper (no bound expressions, nil lists) and no error.  For an
    explicit list the check is applied to every source expression with the
    clause name "RETURNING" before anything is resolved: the error of the
    first expression it rejects is returned and no helper is, and a helper
    is returned only when the check accepted every expression; with the
    check of package [transform], an expression with an aggregation or a
    windowing construct makes the construction fail with a
    [ConstructionError] that names RETURNING.  A clause of any other kind
    makes the constructor panic; it does not return an error. *)
Theorem C6_clause_kinds_of_newReturningHelper :
  (forall assertFn (nameGen : Type) (auto : nameGen) renderFn
          p0 r desiredTypes tn tablecols,
      r = ReturningNothing \/ r = NoReturningClause ->
      newReturningHelper assertFn nameGen auto renderFn
        p0 r desiredTypes tn tablecols =
      Returned (Some (mkReturningHelper p0 None None 0 None Datums_nil), None))
  /\
  (forall assertFn (nameGen : Type) (auto : nameGen) renderFn
          p0 rExprs desiredTypes tn tablecols e,
      e ∈ rExprs ->
      is_Some (assertFn (SelectExpr_Expr e) "RETURNING"
                 (SearchPath (session p0))) ->
      exists es1 e1 es2 err,
        rExprs = es1 ++ e1 :: es2 /\
        (forall e', e' ∈ es1 ->
           assertFn (SelectExpr_Expr e') "RETURNING"
             (SearchPath (session p0)) = None) /\
        assertFn (SelectExpr_Expr e1) "RETURNING"
          (SearchPath (session p0)) = Some err /\
        newReturningHelper assertFn nameGen auto renderFn
          p0 (ReturningExprsClause rExprs) desiredTypes tn tablecols =
        Returned (None, Some err))
  /\
  (forall assertFn (nameGen : Type) (auto : nameGen) renderFn
          p0 rExprs desiredTypes tn tablecols rh err,
      newReturningHelper assertFn nameGen auto renderFn
        p0 (ReturningExprsClause rExprs) desiredTypes tn tablecols =
      Returned (Some rh, err) ->
      forall e, e ∈ rExprs ->
        assertFn (SelectExpr_Expr e) "RETURNING"
          (SearchPath (session p0)) = None)
  /\
  (forall (nameGen : Type) (auto : nameGen) renderFn
          p0 rExprs desiredTypes tn tablecols e,
      e ∈ rExprs ->
      transform.AggregateInExpr (SelectExpr_Expr e) = true \/
      transform.WindowFuncInExpr (SelectExpr_Expr e) = true ->
      exists what,
        (what = "aggregate functions" \/ what = "window functions") /\
        newReturningHelper transform.AssertNoAggregationOrWindowing
          nameGen auto renderFn
          p0 (ReturningExprsClause rExprs) desiredTypes tn tablecols =
        Returned (None,
                  Some (ConstructionError
                          (what +:+ " are not allowed in RETURNING"))))
  /\
  (forall assertFn (nameGen : Type) (auto : nameGen) renderFn
          p0 typeName desiredTypes tn tablecols,
      newReturningHelper assertFn nameGen auto renderFn
        p0 (OtherClause typeName) desiredTypes tn tablecols =
      Panicked (PanicError
                  (Errorf ("unexpected ReturningClause type: " +:+ typeName)))).
Proof.
  refine (conj _ (conj _ (conj _ (conj _ _)))).
  - intros assertFn nameGen auto renderFn p0 r desiredTypes tn tablecols
      [-> | ->]; reflexivity.
  - intros assertFn nameGen auto renderFn p0 rExprs desiredTypes tn tablecols e
      He Hsome.
    destruct (assertReturningExprs_first assertFn p0 rExprs e He Hsome)
      as (es1 & e1 & es2 & err & Hsplit & Hes1 & He1 & Hall).
    exists es1, e1, es2, err. split_and!; [done | done | done |].
    unfold newReturningHelper. by rewrite Hall.
  - intros assertFn nameGen auto renderFn p0 rExprs desiredTypes tn tablecols
      rh err Hnew.
    apply assertReturningExprs_None. unfold newReturningHelper in Hnew.
    by destruct (assertReturningExprs assertFn p0 rExprs).
  - intros nameGen auto renderFn p0 rExprs desiredTypes tn tablecols e He Hagg.
    pose proof (AssertNoAggregationOrWindowing_rejects (SelectExpr_Expr e)
                  "RETURNING" (SearchPath (session p0)) Hagg) as Hrej.
    destruct (assertReturningExprs_first
                transform.AssertNoAggregationOrWindowing p0 rExprs e He)
      as (es1 & e1 & es2 & err & _ & _ & He1 & Hall).
    { destruct Hrej as [-> | ->]; eauto. }
    unfold newReturningHelper. rewrite Hall.
    unfold transform.AssertNoAggregationOrWindowing in He1.
    destruct (transform.AggregateInExpr (SelectExpr_Expr e1)).
    + injection He1 as <-. exists "aggregate functions". split; [by left | done].
    + destruct (transform.WindowFuncInExpr (SelectExpr_Expr e1)); [|done].
      injection He1 as <-. exists "window functions". split; [by right | done].
  - reflexivity.
Qed.

Lemma C6_clause_kinds_witness :
  newReturningHelper_single planner_ex NoReturningClause [] "t" schema_kv =
    Returned (Some (mkReturningHelper planner_ex None None 0 None Datums_nil), None)
  /\
  (exists es1 e1 es2 err,
      returning_count = es1 ++ e1 :: es2 /\
      (forall e', e' ∈ es1 ->
         transform.AssertNoAggregationOrWindowing (SelectExpr_Expr e')
           "RETURNING" (SearchPath (session planner_ex)) = None) /\
      transform.AssertNoAggregationOrWindowing (SelectExpr_Expr e1)
        "RETURNING" (SearchPath (session planner_ex)) = Some err /\
      newReturningHelper_single planner_ex (ReturningExprsClause returning_count)
        [] "t" schema_kv = Returned (None, Some err))
  /\
  transform.AssertNoAggregationOrWindowing
    (BinaryOp Mult (UnresolvedName "v") (NumVal 2)) "RETURNING" [] = None
  /\
  (exists what,
      (what = "aggregate functions" \/ what = "window functions") /\
      newReturningHelper_single planner_ex (ReturningExprsClause returning_count)
        [] "t" schema_kv =
      Returned (None,
                Some (ConstructionError
                        (what +:+ " are not allowed in RETURNING")))).
Proof.
  pose proof C6_clause_kinds_of_newReturningHelper
    as (Hnothing & Hfirst & Hall & Hagg & _).
  refine (conj _ (conj _ (conj _ _))).
  - apply Hnothing. by right.
  - apply (Hfirst transform.AssertNoAggregationOrWindowing bool true
             computeRenderAllowingStars planner_ex returning_count [] "t"
             schema_kv
             (mkSelectExpr
                (FuncExpr (mkFunctionReference "count" AggregateClass)
                   [UnresolvedName "k"] false) None)).
    + constructor.
    + by eexists.
  - apply (Hall transform.AssertNoAggregationOrWindowing bool true
             computeRenderAllowingStars planner_ex
             [mkSelectExpr (BinaryOp Mult (UnresolvedName "v") (NumVal 2)) None]
             [] "t" schema_kv rh_v2 None eq_refl
             (mkSelectExpr (BinaryOp Mult (UnresolvedName "v") (NumVal 2)) None)).
    constructor.
  - apply (Hagg bool true computeRenderAllowingStars planner_ex returning_count
             [] "t" schema_kv
             (mkSelectExpr
                (FuncExpr (mkFunctionReference "count" AggregateClass)
                   [UnresolvedName "k"] false) None)).
    + constructor.
    + by left.
Defined.

(** ** Construction: the resolved targets *)

Section Rendering.

Variable assertFn : Expr -> string -> list string -> option error.
Variable nameGen : Type.
Variable auto : nameGen.
Variable renderFn :
  planner -> SelectExpr -> T -> multiSourceInfo -> IndexedVarHelper ->
  nameGen -> ResultColumns * list TypedExpr * bool * option error.

(** The second loop when the resolver accepts every target: the columns and
    the expressions of the targets are appended in order. *)
Lemma renderReturningExprs_ok ivarHelper rExprs : forall rh cs es,
  columns rh = Some cs ->
  exprs rh = Some es ->
  (forall target, target ∈ rExprs ->
     renderedError
       (renderFn (p rh) target TAny [source rh] ivarHelper auto) = None) ->
  renderReturningExprs nameGen auto renderFn rh ivarHelper rExprs =
  (Some (mkReturningHelper (p rh)
           (Some (cs ++ concat
                    (map (fun target =>
                            renderedColumns
                              (renderFn (p rh) target TAny [source rh]
                                 ivarHelper auto)) rExprs)))
           (Some (es ++ concat
                    (map (fun target =>
                            renderedExprs
                              (renderFn (p rh) target TAny [source rh]
                                 ivarHelper auto)) rExprs)))
           (rowCount rh) (source rh) (curSourceRow rh)),
   None).
Proof.
  induction rExprs as [|target rExprs IH]; intros rh cs es Hcs Hes Hok.
  - simpl. rewrite !app_nil_r. destruct rh; simpl in *. by subst.
  - simpl. pose proof (Hok target ltac:(constructor)) as Herr.
    unfold renderedError, renderedColumns, renderedExprs in *.
    destruct (renderFn (p rh) target TAny [source rh] ivarHelper auto)
      as [[[cols texprs] star] err] eqn:Hr.
    simpl in Herr. subst err. rewrite Hcs, Hes. simpl.
    rewrite (IH _ (cs ++ cols) (es ++ texprs)); try done.
    + simpl. by rewrite !app_assoc.
    + intros t Ht. simpl. apply Hok. by constructor.
Qed.

(** The second loop when the resolver rejects a target: the error of the
    first rejected target, and no helper. *)
Lemma renderReturningExprs_error ivarHelper ts1 target ts2 err : forall rh cs es,
  columns rh = Some cs ->
  exprs rh = Some es ->
  (forall t, t ∈ ts1 ->
     renderedError (renderFn (p rh) t TAny [source rh] ivarHelper auto) = None) ->
  renderedError (renderFn (p rh) target TAny [source rh] ivarHelper auto)
    = Some err ->
  renderReturningExprs nameGen auto renderFn rh ivarHelper
    (ts1 ++ target :: ts2) = (None, Some err).
Proof.
  induction ts1 as [|t ts1 IH]; intros rh cs es Hcs Hes Hok Herr.
  - simpl. unfold renderedError in Herr.
    destruct (renderFn (p rh) target TAny [source rh] ivarHelper auto)
      as [[[cols texprs] star] err'].
    simpl in Herr. by subst err'.
  - simpl. pose proof (Hok t ltac:(constructor)) as Ht.
    unfold renderedError in Ht, Hok, Herr, IH.
    destruct (renderFn (p rh) t TAny [source rh] ivarHelper auto)
      as [[[cols texprs] star] err'] eqn:Hr.
    simpl in Ht. subst err'. rewrite Hcs, Hes. simpl.
    apply (IH _ (cs ++ cols) (es ++ texprs)); try done.
    intros t' Ht'. simpl. apply Hok. by constructor.
Qed.

End Rendering.

(** X1.  For an explicit list whose expressions all pass the check and whose
    targets the resolver all accepts, [newReturningHelper] returns a helper
    whose result columns and bound expressions are what the resolver gave
    for the targets, concatenated in clause order (a target may give none or
    several); both lists are non-nil even when they are empty, the source is
    the single-table source over the table's columns, the counter is 0 and
    no row is current. *)
Theorem X1_explicit_list_binds_targets_in_order :
  forall assertFn (nameGen : Type) (auto : nameGen) renderFn
         p0 rExprs desiredTypes tn tablecols,
    (forall e, e ∈ rExprs ->
       assertFn (SelectExpr_Expr e) "RETURNING" (SearchPath (session p0)) = None) ->
    (forall target, target ∈ rExprs ->
       renderedError (renderTarget renderFn auto p0 tn tablecols target) = None) ->
    newReturningHelper assertFn nameGen auto renderFn
      p0 (ReturningExprsClause rExprs) desiredTypes tn tablecols =
    Returned
      (Some (mkReturningHelper p0
               (Some (concat
                        (map (fun target =>
                                renderedColumns
                                  (renderTarget renderFn auto p0 tn tablecols
                                     target)) rExprs)))
               (Some (concat
                        (map (fun target =>
                                renderedExprs
                                  (renderTarget renderFn auto p0 tn tablecols
                                     target)) rExprs)))
               0
               (Some (newSourceInfoForSingleTable tn
                        (ResultColumnsFromColDescs tablecols)))
               Datums_nil),
       None).
Proof.
  intros assertFn nameGen auto renderFn p0 rExprs desiredTypes tn tablecols
    Hcheck Hrender.
  unfold newReturningHelper.
  rewrite (proj2 (assertReturningExprs_None assertFn p0 rExprs) Hcheck).
  f_equal.
  apply (renderReturningExprs_ok nameGen auto renderFn
           (MakeIndexedVarHelper (length tablecols)) rExprs
           (mkReturningHelper p0 (Some []) (Some []) 0
              (Some (newSourceInfoForSingleTable tn
                       (ResultColumnsFromColDescs tablecols)))
              Datums_nil) [] [] eq_refl eq_refl).
  intros target Ht. apply (Hrender target Ht).
Qed.

Lemma X1_explicit_list_witness :
  newReturningHelper_single planner_ex
    (ReturningExprsClause
       [mkSelectExpr UnqualifiedStar None;
        mkSelectExpr (BinaryOp Mult (UnresolvedName "v") (NumVal 2)) (Some "w")])
    [] "t" schema_kv =
  Returned
    (Some (mkReturningHelper planner_ex
             (Some [mkResultColumn "k" TInt; mkResultColumn "v" TInt;
                    mkResultColumn "w" TInt])
             (Some [IndexedVar 0; IndexedVar 1;
                    BinaryExpr Mult (IndexedVar 1) (DatumExpr (DInt 2))])
             0
             (Some (mkDataSourceInfo (ResultColumnsFromColDescs schema_kv) "t"))
             Datums_nil),
     None).
Proof.
  apply (X1_explicit_list_binds_targets_in_order
           transform.AssertNoAggregationOrWindowing bool true
           computeRenderAllowingStars planner_ex
           [mkSelectExpr UnqualifiedStar None;
            mkSelectExpr (BinaryOp Mult (UnresolvedName "v") (NumVal 2))
              (Some "w")]
           [] "t" schema_kv).
  - intros e He. apply elem_of_cons in He as [-> | He]; [reflexivity|].
    apply list_elem_of_singleton in He as ->. reflexivity.
  - intros target Ht. apply elem_of_cons in Ht as [-> | Ht]; [reflexivity|].
    apply list_elem_of_singleton in Ht as ->. reflexivity.
Defined.

(** X2.  For an explicit list whose expressions all pass the check, when
    the resolver accepts the targets before a target and rejects that one,
    [newReturningHelper] returns the resolver's error for that target as it
    is, and no helper: what the targets before it gave is dropped. *)
Theorem X2_first_resolver_error_is_returned :
  forall assertFn (nameGen : Type) (auto : nameGen) renderFn
         p0 ts1 target ts2 desiredTypes tn tablecols err,
    (forall e, e ∈ ts1 ++ target :: ts2 ->
       assertFn (SelectExpr_Expr e) "RETURNING" (SearchPath (session p0)) = None) ->
    (forall t, t ∈ ts1 ->
       renderedError (renderTarget renderFn auto p0 tn tablecols t) = None) ->
    renderedError (renderTarget renderFn auto p0 tn tablecols target) = Some err ->
    newReturningHelper assertFn nameGen auto renderFn
      p0 (ReturningExprsClause (ts1 ++ target :: ts2)) desiredTypes tn tablecols =
    Returned (None, Some err).
Proof.
  intros assertFn nameGen auto renderFn p0 ts1 target ts2 desiredTypes tn
    tablecols err Hcheck Hok Herr.
  unfold newReturningHelper.
  rewrite (proj2 (assertReturningExprs_None assertFn p0 _) Hcheck).
  f_equal.
  apply (renderReturningExprs_error nameGen auto renderFn
           (MakeIndexedVarHelper (length tablecols)) ts1 target ts2 err
           (mkReturningHelper p0 (Some []) (Some []) 0
              (Some (newSourceInfoForSingleTable tn
                       (ResultColumnsFromColDescs tablecols)))
              Datums_nil) [] [] eq_refl eq_refl).
  - intros t Ht. apply (Hok t Ht).
  - exact Herr.
Qed.

Lemma X2_first_resolver_error_witness :
  newReturningHelper_single planner_ex
    (ReturningExprsClause
       [mkSelectExpr (UnresolvedName "k") None;
        mkSelectExpr (UnresolvedName "z") None;
        mkSelectExpr (UnresolvedName "y") None])
    [] "t" schema_kv =
  Returned (None, Some (ConstructionError "column name not found: z")).
Proof.
  apply (X2_first_resolver_error_is_returned
           transform.AssertNoAggregationOrWindowing bool true
           computeRenderAllowingStars planner_ex
           [mkSelectExpr (UnresolvedName "k") None]
           (mkSelectExpr (UnresolvedName "z") None)
           [mkSelectExpr (UnresolvedName "y") None]
           [] "t" schema_kv).
  - intros e He. repeat (apply elem_of_cons in He as [-> | He]; [reflexivity|]).
    by apply elem_of_nil in He.
  - intros t Ht. apply list_elem_of_singleton in Ht as ->. reflexivity.
  - reflexivity.
Defined.

(** ** Sequences of calls *)

Lemma set_rowCount_id rh : set_rowCount rh (rowCount rh) = rh.
Proof. by destruct rh. Qed.

Lemma cookRows_None {fv : FormatVarMethod} rows :
  forall rh (h : gmap positive (list (option Datum))),
  exprs rh = None ->
  0 <= rowCount rh ->
  rowCount rh + Z.of_nat (length rows) <= max_int ->
  cookRows rh h rows =
  Returned (set_rowCount rh (rowCount rh + Z.of_nat (length rows)), h,
            map (fun rowVals => (rowVals, None)) rows).
Proof.
  induction rows as [|rowVals rows IH]; intros rh h Hes Hlo Hhi.
  - simpl. by rewrite Z.add_0_r, set_rowCount_id.
  - cbn [cookRows]. rewrite cookResultRow_None by done.
    cbn [mbind outcome_bind]. cbn [length] in Hhi.
    assert (int_add (rowCount rh) 1 = rowCount rh + 1) as Hadd.
    { apply int_add_no_overflow. unfold min_int, max_int in *. lia. }
    rewrite IH; [| done | simpl; lia | simpl; lia].
    cbn [mbind outcome_bind map]. simpl rowCount. rewrite Hadd.
    do 3 f_equal. unfold set_rowCount. simpl. f_equal. lia.
Qed.

Lemma cookRows_helper {fv : FormatVarMethod} rows :
  forall rh (h : gmap positive (list (option Datum))) rh' h' rs,
  cookRows rh h rows = Returned (rh', h', rs) ->
  p rh' = p rh /\ exprs rh' = exprs rh /\ source rh' = source rh /\
  length rs = length rows /\
  (exprs rh <> None -> rowCount rh' = rowCount rh) /\
  (exprs rh = None -> curSourceRow rh' = curSourceRow rh).
Proof.
  induction rows as [|rowVals rows IH]; intros rh h rh' h' rs Hc.
  - injection Hc as <- <- <-. by split_and!.
  - cbn [cookRows] in Hc.
    destruct (cookResultRow rh h rowVals) as [[[rh1 h1] r]|pv] eqn:Hc1;
      [|done].
    cbn [mbind outcome_bind] in Hc.
    destruct (cookRows rh1 h1 rows) as [[[rh2 h2] rs']|pv] eqn:Hc2; [|done].
    injection Hc as <- <- <-.
    apply IH in Hc2 as (Hp2 & He2 & Hs2 & Hl2 & Hn2 & Hcur2).
    pose proof (cookResultRow_helper _ _ _ _ _ _ Hc1) as (Hp1 & He1 & Hs1 & Hn1).
    split_and!; try congruence.
    + simpl. by rewrite Hl2.
    + intros Hne. rewrite Hn2 by congruence. rewrite Hn1.
      by destruct (exprs rh).
    + intros Hnone. rewrite Hcur2 by congruence.
      rewrite cookResultRow_None in Hc1 by done. by injection Hc1 as <- _ _.
Qed.

(** X3.  On a helper without expression list (the pass-through case), any
    number of calls in sequence return each input row itself, without
    error, leave the store as it is, and leave [rowCount] at its value plus
    the number of rows (as long as that is an [int]).  On a helper with an
    expression list the counter stays where it was and one result is
    returned per row. *)
Theorem X3_pass_through_counter_counts_rows {fv : FormatVarMethod} :
  (forall rh (h : gmap positive (list (option Datum))) rows,
      exprs rh = None ->
      0 <= rowCount rh ->
      rowCount rh + Z.of_nat (length rows) <= max_int ->
      cookRows rh h rows =
      Returned (set_rowCount rh (rowCount rh + Z.of_nat (length rows)), h,
                map (fun rowVals => (rowVals, None)) rows))
  /\
  (forall rh (h : gmap positive (list (option Datum))) rows es rh' h' rs,
      exprs rh = Some es ->
      cookRows rh h rows = Returned (rh', h', rs) ->
      rowCount rh' = rowCount rh /\ length rs = length rows).
Proof.
  split.
  - intros rh h rows. apply cookRows_None.
  - intros rh h rows es rh' h' rs Hes Hc.
    apply cookRows_helper in Hc as (_ & _ & _ & Hl & Hn & _).
    split; [apply Hn; congruence | done].
Qed.

Lemma X3_pass_through_counter_witness :
  cookRows rh_nothing store_ex [row_10_20; row_1_2; row_10_20] =
    Returned (set_rowCount rh_nothing 3, store_ex,
              [(row_10_20, None); (row_1_2, None); (row_10_20, None)])
  /\
  (rowCount (set_curSourceRow rh_v2 row_1_2) = rowCount rh_v2 /\
   length [(Datums_slice 3%positive 0 1, @None error);
           (Datums_slice 4%positive 0 1, None)] = length [row_10_20; row_1_2]).
Proof.
  pose proof X3_pass_through_counter_counts_rows as [Hpass Hexprs].
  split.
  - apply (Hpass rh_nothing store_ex [row_10_20; row_1_2; row_10_20]).
    + reflexivity.
    + simpl. lia.
    + unfold max_int. simpl. lia.
  - apply (Hexprs rh_v2 store_ex [row_10_20; row_1_2]
             [BinaryExpr Mult (IndexedVar 1) (DatumExpr (DInt 2))]
             (set_curSourceRow rh_v2 row_1_2)
             (<[4%positive := [Some (DInt 4)]]>
                (<[3%positive := [Some (DInt 40)]]> store_ex))).
    + reflexivity.
    + reflexivity.
Defined.



(** X5.  A call that evaluates expressions leaves the row it was given as
    the helper's current row, whether it returns a row or an error: after
    the call [IndexedVarEval] reads cell [idx] of that row at each of its
    indices, and panics with an index-out-of-range fault at any other
    index. *)
Theorem X5_current_row_stays_installed {fv : FormatVarMethod} :
  forall rh (h : gmap positive (list (option Datum))) rowVals es rh' h' r,
    exprs rh = Some es ->
    Datums_valid h rowVals ->
    cookResultRow rh h rowVals = Returned (rh', h', r) ->
    curSourceRow rh' = rowVals /\
    (forall idx ctx,
        0 <= idx < Z.of_nat (Datums_len rowVals) ->
        exists c,
          Datums_index h rowVals idx = Returned c /\
          IndexedVarEval rh' h' idx ctx =
            match c with
            | Some d => Returned (Ok d)
            | None => Panicked (RuntimeError NilDereference)
            end) /\
    (forall idx ctx,
        ~ 0 <= idx < Z.of_nat (Datums_len rowVals) ->
        IndexedVarEval rh' h' idx ctx = Panicked (RuntimeError IndexOutOfRange)).
Proof.
  intros rh h rowVals es rh' h' r Hes Hv Hc.
  pose proof (cookResultRow_store _ _ _ _ _ _ Hv Hc) as Hstore.
  destruct (Datums_valid_store h h' rowVals Hstore Hv) as [_ Hix].
  assert (curSourceRow rh' = rowVals) as Hcur.
  { rewrite (cookResultRow_Some _ _ _ es) in Hc by done.
    destruct (evalExprs _ _ _) as [[ds err]|pv]; simpl in Hc; [|done].
    by injection Hc as <- _ _. }
  split_and!; [done | |].
  - intros idx ctx Hidx.
    destruct (Datums_index_valid h rowVals idx Hv Hidx) as (c & Hc' & _).
    exists c. split; [done|]. simpl. unfold returningHelper_IndexedVarEval.
    rewrite Hcur, Hix, Hc'. simpl. by destruct c.
  - intros idx ctx Hidx. simpl. unfold returningHelper_IndexedVarEval.
    rewrite Hcur, Hix. destruct rowVals as [|a off n]; [done|]. simpl in *.
    by destruct (decide (0 <= idx < Z.of_nat n)).
Qed.

Lemma X5_current_row_witness :
  curSourceRow (set_curSourceRow rh_overflow row_10_20) = row_10_20 /\
  (forall idx ctx,
      0 <= idx < Z.of_nat (Datums_len row_10_20) ->
      exists c,
        Datums_index store_ex row_10_20 idx = Returned c /\
        IndexedVarEval (set_curSourceRow rh_overflow row_10_20)
          (<[3%positive := [None]]> store_ex) idx ctx =
          match c with
          | Some d => Returned (Ok d)
          | None => Panicked (RuntimeError NilDereference)
          end) /\
  (forall idx ctx,
      ~ 0 <= idx < Z.of_nat (Datums_len row_10_20) ->
      IndexedVarEval (set_curSourceRow rh_overflow row_10_20)
        (<[3%positive := [None]]> store_ex) idx ctx
      = Panicked (RuntimeError IndexOutOfRange)).
Proof.
  apply (X5_current_row_stays_installed rh_overflow store_ex row_10_20
           [BinaryExpr Mult (IndexedVar 1) (DatumExpr (DInt max_int))]
           (set_curSourceRow rh_overflow row_10_20)
           (<[3%positive := [None]]> store_ex)
           (Datums_nil, Some (EvaluationError "integer out of range"))).
  - reflexivity.
  - by eexists.
  - reflexivity.
Defined.

(** ** The encoder: what an encoding depends on *)

Lemma omap_ext_elem {A B : Type} (f g : A -> option B) (l : list A) :
  (forall x, x ∈ l -> f x = g x) -> omap f l = omap g l.
Proof.
  intros Hfg. apply list_omap_ext. induction l as [|x l IH]; constructor.
  - apply Hfg. constructor.
  - apply IH. intros y Hy. apply Hfg. by constructor.
Qed.

Lemma firstPanic_ext ctx ctx' m m' e :
  (forall l, l ∈ leaves e -> leafPanic ctx m l = leafPanic ctx' m' l) ->
  firstPanic ctx m e = firstPanic ctx' m' e.
Proof. intros Hl. unfold firstPanic. f_equal. by apply omap_ext_elem. Qed.

Lemma bindPlaceholders_ext ctx ctx' e :
  (forall name, name ∈ placeholders e ->
     Placeholders ctx !! name = Placeholders ctx' !! name) ->
  bindPlaceholders ctx e = bindPlaceholders ctx' e.
Proof.
  induction e as [d|i|n|op l IHl r IHr]; simpl; intros Hph; try done.
  - rewrite Hph; [done | constructor].
  - rewrite IHl, IHr; [done | |]; intros name Hn; apply Hph;
      apply elem_of_app; tauto.
Qed.

Lemma remapVars_ext m m' e :
  (forall idx, idx ∈ vars e ->
     default idx (remapEntry m idx) = default idx (remapEntry m' idx)) ->
  remapVars (Some m) e = remapVars (Some m') e.
Proof.
  induction e as [d|i|n|op l IHl r IHr]; simpl; intros Hv; try done.
  - rewrite Hv; [done | constructor].
  - rewrite IHl, IHr; [done | |]; intros idx Hi; apply Hv;
      apply elem_of_app; tauto.
Qed.

Lemma remapVars_identity n e :
  (forall idx, idx ∈ vars e -> 0 <= idx < Z.of_nat n) ->
  remapVars (Some (identityMap n)) e = remapVars None e.
Proof.
  induction e as [d|i|name|op l IHl r IHr]; simpl; intros Hv; try done.
  - assert (remapEntry (identityMap n) i = Some i) as ->; [|done].
    apply remapEntry_Some. pose proof (Hv i ltac:(constructor)) as Hi.
    split; [lia|]. unfold identityMap.
    rewrite lookup_seqZ_lt by lia. f_equal. lia.
  - rewrite IHl, IHr; [done | |]; intros idx Hi; apply Hv;
      apply elem_of_app; tauto.
Qed.

(** X6.  An encoding depends on the table only at the variables of the
    expression, and on the evaluation context only at its placeholders: two
    tables with the same entries for these variables and two contexts with
    the same values for these placeholders give the same result, panics
    included.  In particular, when the encoder returns with a table, it
    returns the same text with that table extended by further entries. *)
Theorem X6_encoding_reads_only_what_the_expression_names
    `{IndexedVarContainer C} (c : C) :
  (forall ctx ctx' m m' e,
      (forall name, name ∈ placeholders e ->
         Placeholders ctx !! name = Placeholders ctx' !! name) ->
      (forall idx, idx ∈ vars e -> remapEntry m idx = remapEntry m' idx) ->
      MakeExpression c (Some e) ctx (Some m) = MakeExpression c (Some e) ctx' (Some m'))
  /\
  (forall ctx m extra e x,
      MakeExpression c (Some e) ctx (Some m) = Returned x ->
      MakeExpression c (Some e) ctx (Some (m ++ extra)) = Returned x).
Proof.
  assert (forall ctx ctx' m m' e,
      (forall name, name ∈ placeholders e ->
         Placeholders ctx !! name = Placeholders ctx' !! name) ->
      (forall idx, idx ∈ vars e -> remapEntry m idx = remapEntry m' idx) ->
      MakeExpression c (Some e) ctx (Some m)
      = MakeExpression c (Some e) ctx' (Some m')) as Hagree.
  { intros ctx ctx' m m' e Hph Hvar. rewrite !MakeExpression_Some.
    rewrite (firstPanic_ext ctx ctx' (Some m) (Some m')); cycle 1.
    { intros [idx|name] Hl; simpl.
      - by rewrite (Hvar idx) by (by apply leaves_VarLeaf).
      - by rewrite (Hph name) by (by apply leaves_PlaceholderLeaf). }
    rewrite (bindPlaceholders_ext ctx ctx') by done.
    rewrite (remapVars_ext m m'); [done|].
    intros idx Hidx. rewrite vars_bindPlaceholders in Hidx.
    by rewrite Hvar. }
  split; [exact Hagree|].
  intros ctx m extra e x Hx. rewrite <- Hx. symmetry.
  apply Hagree; [done|].
  intros idx Hidx.
  rewrite MakeExpression_Some in Hx.
  destruct (firstPanic ctx (Some m) e) as [pv|] eqn:Hf; [done|].
  apply firstPanic_None_iff in Hf as [_ Hvar].
  destruct (Hvar m idx eq_refl Hidx) as (j & Hj & _).
  rewrite Hj. symmetry. apply remapEntry_Some in Hj as [Hpos Hj].
  apply remapEntry_Some. split; [done|]. by apply lookup_app_l_Some.
Qed.

Lemma X6_encoding_witness :
  MakeExpression rh_v2 (Some expr_sum) (mkEvalContext {[ "1" := DInt 4 ]})
    (Some [2; 5; -1])
  = MakeExpression rh_v2 (Some expr_sum) ctx_empty (Some [2; 5; 7; 9])
  /\
  MakeExpression rh_v2 (Some expr_sum) ctx_empty (Some ([2; 5] ++ [-1; -1]))
  = Returned (distsqlrun.mkExpression "@3 + @6").
Proof.
  pose proof (X6_encoding_reads_only_what_the_expression_names rh_v2)
    as [Hagree Hextend].
  split.
  - apply (Hagree (mkEvalContext {[ "1" := DInt 4 ]}) ctx_empty
             [2; 5; -1] [2; 5; 7; 9] expr_sum).
    + intros name Hn. simpl in Hn. by apply elem_of_nil in Hn.
    + intros idx Hidx. simpl in Hidx.
      apply elem_of_cons in Hidx as [-> | Hidx]; [reflexivity|].
      apply list_elem_of_singleton in Hidx as ->. reflexivity.
  - apply (Hextend ctx_empty [2; 5] [-1; -1] expr_sum). reflexivity.
Defined.

(** X7.  With the identity table of [n] columns, an expression whose
    variables all are indices below [n] is encoded exactly as without
    table (same text, or the same placeholder panic). *)
Theorem X7_identity_table_is_no_table `{IndexedVarContainer C} (c : C) :
  forall ctx n e,
    (forall idx, idx ∈ vars e -> 0 <= idx < Z.of_nat n) ->
    MakeExpression c (Some e) ctx (Some (identityMap n))
    = MakeExpression c (Some e) ctx None.
Proof.
  intros ctx n e Hv. rewrite !MakeExpression_Some.
  rewrite (firstPanic_ext ctx ctx (Some (identityMap n)) None); cycle 1.
  { intros [idx|name] Hl; simpl; [|done].
    apply leaves_VarLeaf in Hl. specialize (Hv idx Hl).
    assert (remapEntry (identityMap n) idx = Some idx) as ->.
    { apply remapEntry_Some. split; [lia|]. unfold identityMap.
      rewrite lookup_seqZ_lt by lia. f_equal. lia. }
    destruct (decide (idx < 0)); [lia | done]. }
  rewrite remapVars_identity; [done|].
  intros idx Hidx. rewrite vars_bindPlaceholders in Hidx. by apply Hv.
Qed.

Lemma X7_identity_table_witness :
  MakeExpression rh_v2 (Some expr_sum) ctx_empty (Some (identityMap 2))
  = MakeExpression rh_v2 (Some expr_sum) ctx_empty None.
Proof.
  apply (X7_identity_table_is_no_table rh_v2 ctx_empty 2 expr_sum).
  intros idx Hidx. simpl in Hidx.
  apply elem_of_cons in Hidx as [-> | Hidx]; [simpl; lia|].
  apply list_elem_of_singleton in Hidx as ->. simpl. lia.
Defined.

(** ** The helper as a container of variables *)

Lemma index_fmap {A B} (f : A -> B) (l : list A) (i : Z) :
  index (f <$> l) i = (c ← index l i; Returned (f c)).
Proof.
  unfold index. destruct (decide (0 <= i)); [|done].
  rewrite list_lookup_fmap. by destruct (l !! Z.to_nat i).
Qed.

(** The second loop of the constructor never touches the source. *)
Lemma renderReturningExprs_source (nameGen : Type) (auto : nameGen) renderFn
    ivarHelper rExprs : forall rh rh' err,
  renderReturningExprs nameGen auto renderFn rh ivarHelper rExprs = (Some rh', err) ->
  source rh' = source rh.
Proof.
  induction rExprs as [|target rExprs IH]; intros rh rh' err; simpl.
  - by intros [= <- _].
  - destruct (renderFn (p rh) target TAny [source rh] ivarHelper auto)
      as [[[cols typedExprs] b] [e|]]; [done|].
    intros Hr. by apply IH in Hr.
Qed.

(** X21.  In a helper that [newReturningHelper] returned for an explicit
    list over a table, a variable is typed by the table's column of the
    same index, whatever the check and the resolver are and after any
    number of [cookResultRow] calls: [IndexedVarResolvedType] returns the
    type of column [idx], and panics with an index-out-of-range fault when
    the table has no column [idx].  [IndexedVarFormat] hands the flags, the
    index and the buffer it is given to [FormatVar] on the single-table
    source over the table's columns, whatever that method writes. *)
Theorem X21_variables_typed_by_table_columns {fv : FormatVarMethod} :
  forall assertFn (nameGen : Type) (auto : nameGen) renderFn
         p0 rExprs desiredTypes tn tablecols rh err
         (h : gmap positive (list (option Datum))) rows rh' h' rs idx f buf,
    newReturningHelper assertFn nameGen auto renderFn
      p0 (ReturningExprsClause rExprs) desiredTypes tn tablecols =
    Returned (Some rh, err) ->
    cookRows rh h rows = Returned (rh', h', rs) ->
    IndexedVarResolvedType rh' idx =
      (c ← index tablecols idx; Returned (Type_ c)) /\
    (idx < 0 \/ Z.of_nat (length tablecols) <= idx ->
     IndexedVarResolvedType rh' idx = Panicked (RuntimeError IndexOutOfRange)) /\
    IndexedVarFormat rh' f idx buf =
      FormatVar
        (newSourceInfoForSingleTable tn (ResultColumnsFromColDescs tablecols))
        f idx buf.
Proof.
  intros assertFn nameGen auto renderFn p0 rExprs desiredTypes tn tablecols
    rh err h rows rh' h' rs idx f buf Hnew Hcook.
  assert (source rh' =
          Some (newSourceInfoForSingleTable tn (ResultColumnsFromColDescs tablecols)))
    as Hsrc.
  { apply cookRows_helper in Hcook as (_ & _ & -> & _).
    unfold newReturningHelper in Hnew.
    destruct (assertReturningExprs assertFn p0 rExprs); [done|].
    injection Hnew as Hnew.
    by apply renderReturningExprs_source in Hnew as ->. }
  assert (IndexedVarResolvedType rh' idx =
          (c ← index tablecols idx; Returned (Type_ c))) as Hty.
  { cbn [IndexedVarResolvedType returningHelper_container].
    unfold returningHelper_IndexedVarResolvedType.
    rewrite Hsrc. unfold newSourceInfoForSingleTable, ResultColumnsFromColDescs.
    cbn [sourceColumns].
    change (map ?g ?l) with (g <$> l). rewrite index_fmap.
    by destruct (index tablecols idx). }
  split_and!.
  - exact Hty.
  - intros Hidx. rewrite Hty. unfold index.
    destruct (decide (0 <= idx)); [|done].
    rewrite (proj2 (lookup_ge_None tablecols (Z.to_nat idx))) by lia. done.
  - cbn [IndexedVarFormat returningHelper_container].
    unfold returningHelper_IndexedVarFormat. by rewrite Hsrc.
Qed.

Lemma X21_variables_witness :
  (newReturningHelper_single planner_ex returning_v2 [] "t" schema_kv =
     Returned (Some rh_v2, None) /\
   cookRows rh_v2 store_ex [row_10_20; row_1_2] =
     Returned (set_curSourceRow rh_v2 row_1_2,
               <[4%positive := [Some (DInt 4)]]>
                 (<[3%positive := [Some (DInt 40)]]> store_ex),
               [(Datums_slice 3%positive 0 1, @None error);
                (Datums_slice 4%positive 0 1, None)])) /\
  IndexedVarResolvedType (set_curSourceRow rh_v2 row_1_2) 1 =
    (c ← index schema_kv 1; Returned (Type_ c)) /\
  (1 < 0 \/ Z.of_nat (length schema_kv) <= 1 ->
   IndexedVarResolvedType (set_curSourceRow rh_v2 row_1_2) 1 =
     Panicked (RuntimeError IndexOutOfRange)) /\
  IndexedVarFormat (set_curSourceRow rh_v2 row_1_2) FmtParsable 1 "x = "%string =
    FormatVar
      (newSourceInfoForSingleTable "t" (ResultColumnsFromColDescs schema_kv))
      FmtParsable 1 "x = "%string.
Proof.
  assert (newReturningHelper_single planner_ex returning_v2 [] "t" schema_kv =
            Returned (Some rh_v2, None) /\
          cookRows rh_v2 store_ex [row_10_20; row_1_2] =
            Returned (set_curSourceRow rh_v2 row_1_2,
                      <[4%positive := [Some (DInt 4)]]>
                        (<[3%positive := [Some (DInt 40)]]> store_ex),
                      [(Datums_slice 3%positive 0 1, @None error);
                       (Datums_slice 4%positive 0 1, None)])) as H
    by (split; reflexivity).
  split; [exact H|].
  destruct H as [H1 H2].
  exact (X21_variables_typed_by_table_columns
           transform.AssertNoAggregationOrWindowing bool true
           computeRenderAllowingStars planner_ex _ [] "t" schema_kv rh_v2 None
           store_ex [row_10_20; row_1_2] _ _ _ 1 FmtParsable "x = "%string H1 H2).
Defined.

(** ** Varints: sizes and bytes *)

Lemma shiftr7_zero x : 0 <= x -> (Z.shiftr x 7 = 0 <-> x < 128).
Proof.
  intros Hx. rewrite Z.shiftr_div_pow2 by lia. change (2 ^ 7) with 128.
  split.
  - intros H. apply Z.div_small_iff in H; lia.
  - intros H. apply Z.div_small. lia.
Qed.

Lemma log2_lt_128 x : 0 <= x < 128 -> Z.log2 x / 7 = 0.
Proof.
  intros Hx. apply Z.div_small. split; [apply Z.log2_nonneg|].
  destruct (decide (x = 0)) as [->|]; [simpl; lia|].
  apply Z.log2_lt_pow2; [lia|]. change (2^7) with 128. lia.
Qed.

Lemma log2_shiftr7 x : 128 <= x -> Z.log2 (Z.shiftr x 7) / 7 = Z.log2 x / 7 - 1.
Proof.
  intros Hx. rewrite Z.log2_shiftr by lia.
  assert (7 <= Z.log2 x) by (apply Z.log2_le_pow2; [lia|]; change (2^7) with 128; lia).
  rewrite Z.max_r by lia.
  replace (Z.log2 x - 7) with (Z.log2 x + (-1) * 7) by lia.
  rewrite Z.div_add by lia. lia.
Qed.

Lemma sovStatus_loop_varintLen fuel : forall n x,
  0 <= x -> Z.log2 x / 7 <= Z.of_nat fuel ->
  0 <= n -> n + varintLen x <= max_int ->
  sovStatus_loop fuel n x = Ret (n + varintLen x).
Proof.
  unfold varintLen.
  induction fuel as [|fuel IH]; intros n x Hx Hfuel Hn Hmax; simpl.
  - assert (Hlog : 0 <= Z.log2 x / 7) by (apply Z.div_pos; [apply Z.log2_nonneg | lia]).
    assert (x < 128).
    { destruct (decide (x < 128)); [done|]. 
      pose proof (log2_shiftr7 x ltac:(lia)). 
      assert (0 <= Z.log2 (Z.shiftr x 7) / 7) by (apply Z.div_pos; [apply Z.log2_nonneg | lia]). lia. }
    destruct (decide (Z.shiftr x 7 = 0)) as [_|Hne]; [|by apply shiftr7_zero in H].
    rewrite log2_lt_128 by lia. f_equal. apply int_add_no_overflow. unfold min_int, max_int in *. lia.
  - assert (Hlog : 0 <= Z.log2 x / 7) by (apply Z.div_pos; [apply Z.log2_nonneg | lia]).
    destruct (decide (Z.shiftr x 7 = 0)) as [Hz|Hne].
    + apply shiftr7_zero in Hz; [|done]. rewrite log2_lt_128 by lia. f_equal. apply int_add_no_overflow. unfold min_int, max_int in *. lia.
    + assert (128 <= x) by (destruct (decide (x < 128)) as [Hlt|]; [by apply shiftr7_zero in Hlt|lia]).
      pose proof (log2_shiftr7 x ltac:(lia)) as Hl.
      assert (int_add n 1 = n + 1) as -> by (apply int_add_no_overflow; unfold min_int, max_int in *; lia).
      rewrite IH; [f_equal; lia | apply Z.shiftr_nonneg; lia | lia | lia | lia].
Qed.

Lemma land_127 v : Z.land v 127 = v mod 128.
Proof. change 127 with (Z.ones 7). by rewrite Z.land_ones. Qed.

Lemma land_127_bounds v : 0 <= Z.land v 127 < 128.
Proof. rewrite land_127. apply Z.mod_pos_bound. lia. Qed.

Lemma lor_128 a : 0 <= a < 128 -> Z.lor a 128 = a + 128.
Proof.
  intros Ha. assert (Z.land a 128 = 0) as Hdisj.
  { rewrite <- (Z.mod_small a 128) by lia. rewrite <- land_127.
    rewrite <- Z.land_assoc. change (Z.land 127 128) with 0. apply Z.land_0_r. }
  rewrite <- Z.lxor_lor by done. by rewrite Z.add_nocarry_lxor.
Qed.

Lemma continuation_byte v :
  128 <= Z.lor (Z.land v 127) 128 < 256 /\
  Z.land (Z.lor (Z.land v 127) 128) 127 = Z.land v 127.
Proof.
  pose proof (land_127_bounds v) as Hb. split.
  - rewrite lor_128 by done. lia.
  - rewrite Z.land_lor_distr_l. change (Z.land 128 127) with 0.
    rewrite Z.lor_0_r, <- Z.land_assoc. by change (Z.land 127 127) with 127.
Qed.

Lemma septet_split v s : 0 <= s ->
  Z.lor (Z.shiftl (Z.land v 127) s) (Z.shiftl (Z.shiftr v 7) (s + 7))
  = Z.shiftl v s.
Proof.
  intros Hs. rewrite (Z.add_comm s 7), <- Z.shiftl_shiftl by lia.
  rewrite <- Z.shiftl_lor. f_equal.
  change 127 with (Z.ones 7). rewrite <- Z.ldiff_ones_r by lia.
  rewrite Z.lor_comm. apply Z.lor_ldiff_and.
Qed.

Lemma uint8_small b : 0 <= b < 256 -> uint8 b = b.
Proof. intros. apply Z.mod_small. unfold uint8. lia. Qed.

Lemma uint64_small b : 0 <= b < 2 ^ 64 -> uint64 b = b.
Proof. intros. by apply Z.mod_small. Qed.

Lemma varintLen_small v : 0 <= v < 128 -> varintLen v = 1.
Proof. intros Hv. unfold varintLen. by rewrite log2_lt_128. Qed.

Lemma varintLen_shiftr7 v : 128 <= v -> varintLen (Z.shiftr v 7) = varintLen v - 1.
Proof. intros Hv. unfold varintLen. rewrite log2_shiftr7 by done. lia. Qed.

Lemma varintLen_pos v : 0 <= v -> 1 <= varintLen v.
Proof.
  intros Hv. unfold varintLen.
  assert (0 <= Z.log2 v / 7) by (apply Z.div_pos; [apply Z.log2_nonneg | lia]).
  lia.
Qed.

Lemma varintLen_uint64 v : 0 <= v < 2 ^ 64 -> 1 <= varintLen v <= 10.
Proof.
  intros Hv. split; [apply varintLen_pos; lia|]. unfold varintLen.
  assert (Z.log2 v < 64).
  { destruct (decide (v = 0)) as [->|]; [simpl; lia|].
    apply Z.log2_lt_pow2; lia. }
  assert (Z.log2 v / 7 <= 63 / 7) by (apply Z.div_le_mono; lia).
  change (63 / 7) with 9 in *. lia.
Qed.

Lemma varintLen_fuel v : 0 <= v < 2 ^ 64 -> Z.log2 v / 7 <= Z.of_nat 10.
Proof. intros Hv. pose proof (varintLen_uint64 v Hv). unfold varintLen in *. lia. Qed.

(** The groups of seven bits a value has: [varintLen] is the least number
    of groups that hold it. *)
Lemma varintLen_bounds v :
  0 <= v -> v < 2 ^ (7 * varintLen v) /\ (varintLen v = 1 \/ 2 ^ (7 * (varintLen v - 1)) <= v).
Proof.
  intros Hv. unfold varintLen.
  destruct (decide (v = 0)) as [->|Hne].
  { split; [reflexivity | left; reflexivity]. }
  pose proof (Z.log2_spec v ltac:(lia)) as [Hlo Hhi].
  pose proof (Z.log2_nonneg v) as Hl.
  pose proof (Z.div_mod (Z.log2 v) 7 ltac:(lia)) as Hdm.
  pose proof (Z.mod_pos_bound (Z.log2 v) 7 ltac:(lia)) as Hm.
  split.
  - eapply Z.lt_le_trans; [exact Hhi|]. apply Z.pow_le_mono_r; lia.
  - destruct (decide (Z.log2 v / 7 = 0)) as [Hz|Hnz]; [left; lia | right].
    eapply Z.le_trans; [|exact Hlo]. apply Z.pow_le_mono_r; lia.
Qed.

Lemma varintBytes_length fuel : forall v,
  0 <= v -> Z.log2 v / 7 <= Z.of_nat fuel ->
  Z.of_nat (length (varintBytes fuel v)) = varintLen v.
Proof.
  induction fuel as [|fuel IH]; intros v Hv Hfuel; simpl.
  - destruct (decide (v >= 2 ^ 7)) as [Hge|Hlt].
    + change (2 ^ 7) with 128 in Hge.
      pose proof (log2_shiftr7 v ltac:(lia)) as Hl.
      assert (0 <= Z.log2 (Z.shiftr v 7) / 7)
        by (apply Z.div_pos; [apply Z.log2_nonneg | lia]). lia.
    + change (2 ^ 7) with 128 in Hlt. simpl. rewrite varintLen_small; lia.
  - destruct (decide (v >= 2 ^ 7)) as [Hge|Hlt]; change (2 ^ 7) with 128 in *.
    + simpl length. rewrite Nat2Z.inj_succ, IH.
      * rewrite varintLen_shiftr7 by lia. lia.
      * apply Z.shiftr_nonneg. lia.
      * pose proof (log2_shiftr7 v ltac:(lia)). lia.
    + simpl. rewrite varintLen_small; lia.
Qed.

(** Every byte of a varint but the last has its high bit set, and the last
    has not. *)
Lemma varintBytes_shape fuel : forall v,
  0 <= v -> Z.log2 v / 7 <= Z.of_nat fuel ->
  exists bs last,
    varintBytes fuel v = bs ++ [last] /\
    Forall (fun b => 128 <= b < 256) bs /\ 0 <= last < 128.
Proof.
  induction fuel as [|fuel IH]; intros v Hv Hfuel; simpl.
  - destruct (decide (v >= 2 ^ 7)) as [Hge|Hlt]; change (2 ^ 7) with 128 in *.
    + pose proof (log2_shiftr7 v ltac:(lia)) as Hl.
      assert (0 <= Z.log2 (Z.shiftr v 7) / 7)
        by (apply Z.div_pos; [apply Z.log2_nonneg | lia]). lia.
    + exists [], v. refine (conj _ (conj _ _)); [done | constructor | lia].
  - destruct (decide (v >= 2 ^ 7)) as [Hge|Hlt]; change (2 ^ 7) with 128 in *.
    + destruct (IH (Z.shiftr v 7)) as (bs & last & -> & Hbs & Hlast).
      * apply Z.shiftr_nonneg. lia.
      * pose proof (log2_shiftr7 v ltac:(lia)). lia.
      * exists (Z.lor (Z.land v 127) 128 :: bs), last.
        refine (conj _ (conj _ _)); [done | | done].
        constructor; [apply continuation_byte | done].
    + exists [], v. refine (conj _ (conj _ _)); [done | constructor | lia].
Qed.

Lemma varintBytes_isBytes fuel v :
  0 <= v -> Z.log2 v / 7 <= Z.of_nat fuel -> isBytes (varintBytes fuel v).
Proof.
  intros Hv Hfuel.
  destruct (varintBytes_shape fuel v Hv Hfuel) as (bs & last & -> & Hbs & Hlast).
  apply Forall_app. split.
  - eapply Forall_impl; [exact Hbs|]. simpl. lia.
  - constructor; [lia | constructor].
Qed.

(** The bound on the passes does not matter once it is large enough. *)
Lemma varintBytes_fuel fuel fuel' : forall v,
  0 <= v -> Z.log2 v / 7 <= Z.of_nat fuel -> Z.log2 v / 7 <= Z.of_nat fuel' ->
  varintBytes fuel v = varintBytes fuel' v.
Proof.
  revert fuel'. induction fuel as [|fuel IH]; intros fuel' v Hv Hf Hf'.
  - destruct fuel' as [|fuel']; [done|]. simpl.
    destruct (decide (v >= 2 ^ 7)) as [Hge|Hlt]; [|done].
    change (2 ^ 7) with 128 in *.
    pose proof (log2_shiftr7 v ltac:(lia)) as Hl.
    assert (0 <= Z.log2 (Z.shiftr v 7) / 7)
      by (apply Z.div_pos; [apply Z.log2_nonneg | lia]). lia.
  - destruct fuel' as [|fuel']; simpl;
      (destruct (decide (v >= 2 ^ 7)) as [Hge|Hlt]; [|done]);
      change (2 ^ 7) with 128 in *;
      pose proof (log2_shiftr7 v ltac:(lia)) as Hl;
      assert (0 <= Z.log2 (Z.shiftr v 7) / 7)
        by (apply Z.div_pos; [apply Z.log2_nonneg | lia]); [lia|].
    f_equal. apply IH; [apply Z.shiftr_nonneg; lia | lia | lia].
Qed.

(** ** Varints: the encoder and the loops of the decoders *)

Lemma setByte_Ret dAtA i b :
  0 <= i < Z.of_nat (length dAtA) ->
  setByte dAtA i b = Ret (<[Z.to_nat i := b]> dAtA).
Proof. intros Hi. unfold setByte. by destruct (decide _). Qed.

Lemma setByte_Panic dAtA i b :
  ~ 0 <= i < Z.of_nat (length dAtA) ->
  setByte dAtA i b = Panic (RuntimeError IndexOutOfRange).
Proof. intros Hi. unfold setByte. by destruct (decide _). Qed.

(** The loop of the encoder with room for the varint: the bytes of the
    varint replace the bytes from [offset] on. *)
Lemma encodeVarintStatus_loop_Ret fuel : forall dAtA offset v,
  0 <= v -> Z.log2 v / 7 <= Z.of_nat fuel ->
  0 <= offset ->
  offset + varintLen v <= Z.of_nat (length dAtA) ->
  Z.of_nat (length dAtA) <= max_int ->
  encodeVarintStatus_loop fuel dAtA offset v =
  Ret (take (Z.to_nat offset) dAtA ++ varintBytes fuel v
         ++ drop (Z.to_nat (offset + varintLen v)) dAtA,
       offset + varintLen v).
Proof.
  induction fuel as [|fuel IH]; intros dAtA offset v Hv Hfuel Hoff Hroom Hmax;
    pose proof (varintLen_pos v Hv) as Hlen; simpl;
    destruct (decide (v >= 2 ^ 7)) as [Hge|Hlt]; change (2 ^ 7) with 128 in *.
  - pose proof (log2_shiftr7 v ltac:(lia)) as Hl.
    assert (0 <= Z.log2 (Z.shiftr v 7) / 7)
      by (apply Z.div_pos; [apply Z.log2_nonneg | lia]). lia.
  - rewrite setByte_Ret by lia. cbn [mbind run_bind].
    rewrite uint8_small by lia. rewrite varintLen_small by lia.
    rewrite int_add_no_overflow by (unfold min_int, max_int in *; lia).
    f_equal. f_equal.
    rewrite insert_take_drop by lia. do 2 f_equal. f_equal. lia.
  - rewrite setByte_Ret by lia. cbn [mbind run_bind].
    rewrite int_add_no_overflow by (unfold min_int, max_int in *; lia).
    rewrite uint8_small by (pose proof (continuation_byte v); lia).
    pose proof (varintLen_shiftr7 v ltac:(lia)) as Hs.
    pose proof (log2_shiftr7 v ltac:(lia)) as Hl.
    rewrite IH; rewrite ?length_insert;
      [| apply Z.shiftr_nonneg; lia | lia | lia | lia | lia].
    rewrite Hs. f_equal. f_equal; [|lia].
    replace (Z.to_nat (offset + 1)) with (S (Z.to_nat offset)) by lia.
    erewrite take_S_r by (apply list_lookup_insert_eq; lia).
    rewrite take_insert_ge by lia.
    rewrite drop_insert_lt by lia.
    rewrite <- app_assoc. simpl. do 4 f_equal. lia.
  - rewrite setByte_Ret by lia. cbn [mbind run_bind].
    rewrite uint8_small by lia. rewrite varintLen_small by lia.
    rewrite int_add_no_overflow by (unfold min_int, max_int in *; lia).
    f_equal. f_equal.
    rewrite insert_take_drop by lia. do 2 f_equal. f_equal. lia.
Qed.

(** The loop of the encoder without room for the varint: the store that
    leaves the slice faults. *)
Lemma encodeVarintStatus_loop_Panic fuel : forall dAtA offset v,
  0 <= v -> Z.log2 v / 7 <= Z.of_nat fuel ->
  offset < 0 \/ Z.of_nat (length dAtA) < offset + varintLen v ->
  Z.of_nat (length dAtA) <= max_int ->
  encodeVarintStatus_loop fuel dAtA offset v =
  Panic (RuntimeError IndexOutOfRange).
Proof.
  induction fuel as [|fuel IH]; intros dAtA offset v Hv Hfuel Hroom Hmax;
    pose proof (varintLen_pos v Hv) as Hlen; simpl;
    destruct (decide (v >= 2 ^ 7)) as [Hge|Hlt]; change (2 ^ 7) with 128 in *.
  - pose proof (log2_shiftr7 v ltac:(lia)) as Hl.
    assert (0 <= Z.log2 (Z.shiftr v 7) / 7)
      by (apply Z.div_pos; [apply Z.log2_nonneg | lia]). lia.
  - rewrite varintLen_small in Hroom by lia. by rewrite setByte_Panic by lia.
  - destruct (decide (0 <= offset < Z.of_nat (length dAtA))) as [Hin|Hout].
    + rewrite setByte_Ret by lia. cbn [mbind run_bind].
      rewrite int_add_no_overflow by (unfold min_int, max_int in *; lia).
      pose proof (varintLen_shiftr7 v ltac:(lia)) as Hs.
      pose proof (log2_shiftr7 v ltac:(lia)) as Hl.
      apply IH; rewrite ?length_insert;
        [apply Z.shiftr_nonneg; lia | lia | lia | lia].
    + by rewrite setByte_Panic.
  - rewrite varintLen_small in Hroom by lia. by rewrite setByte_Panic by lia.
Qed.

(** The varint loop of the decoders over the bytes of a varint: for an
    accumulating statement that is [acc | (b & 0x7F) << shift] as long as
    the shifted group stays below [bound], the value shifted is or-ed into
    the accumulator and the index moves behind the varint. *)
Lemma varintLoop_varintBytes accum bound fuel :
  bound <= 2 ^ 64 ->
  (forall acc b s, 0 <= b < 256 -> 0 <= s -> Z.land b 127 * 2 ^ s < bound ->
     accum acc b s = Z.lor acc (Z.shiftl (Z.land b 127) s)) ->
  forall v shift acc iNdEx rest,
    0 <= v -> Z.log2 v / 7 <= Z.of_nat fuel ->
    0 <= shift < 64 -> v * 2 ^ shift < bound ->
    0 <= iNdEx -> iNdEx + varintLen v <= max_int ->
    varintLoop accum (varintBytes fuel v ++ rest) shift acc iNdEx =
    Ok (Z.lor acc (Z.shiftl v shift), iNdEx + varintLen v).
Proof.
  intros Hbound Haccum.
  induction fuel as [|fuel IH];
    intros v shift acc iNdEx rest Hv Hfuel Hshift Hfit Hi Hmax;
    pose proof (varintLen_pos v Hv) as Hlen; simpl;
    destruct (decide (v >= 2 ^ 7)) as [Hge|Hlt]; change (2 ^ 7) with 128 in *.
  - pose proof (log2_shiftr7 v ltac:(lia)) as Hl.
    assert (0 <= Z.log2 (Z.shiftr v 7) / 7)
      by (apply Z.div_pos; [apply Z.log2_nonneg | lia]). lia.
  - simpl. destruct (decide (shift >= 64)); [lia|].
    destruct (decide (v < 128)); [|lia].
    rewrite varintLen_small by lia.
    rewrite int_add_no_overflow by (unfold min_int, max_int in *; lia).
    rewrite Haccum; [| lia | lia |].
    + rewrite land_127, Z.mod_small by lia. done.
    + rewrite land_127, Z.mod_small by lia. done.
  - simpl. destruct (decide (shift >= 64)); [lia|].
    pose proof (continuation_byte v) as [Hb Hland].
    destruct (decide (Z.lor (Z.land v 127) 128 < 128)); [lia|].
    rewrite int_add_no_overflow by (unfold min_int, max_int in *; lia).
    pose proof (varintLen_shiftr7 v ltac:(lia)) as Hs.
    pose proof (log2_shiftr7 v ltac:(lia)) as Hl.
    assert (0 < 2 ^ shift) as Hpow by (apply Z.pow_pos_nonneg; lia).
    assert (Z.shiftr v 7 * 2 ^ (shift + 7) <= v * 2 ^ shift) as Hhigh.
    { rewrite Z.shiftr_div_pow2 by lia. rewrite Z.pow_add_r by lia.
      change (2 ^ 7) with 128.
      pose proof (Z.mul_div_le v 128 ltac:(lia)). nia. }
    assert (1 <= Z.shiftr v 7) as Hone.
    { rewrite Z.shiftr_div_pow2 by lia. change (2 ^ 7) with 128.
      apply Z.div_le_lower_bound; lia. }
    assert (shift + 7 < 64) as Hnext.
    { destruct (decide (shift + 7 < 64)); [done|]. exfalso.
      assert (2 ^ 64 <= 2 ^ (shift + 7)) by (apply Z.pow_le_mono_r; lia).
      nia. }
    rewrite Haccum; [| lia | lia |]; cycle 1.
    { rewrite Hland. pose proof (land_127_bounds v).
      rewrite land_127 in *. pose proof (Z.mod_le v 128 ltac:(lia) ltac:(lia)).
      nia. }
    rewrite IH; [| apply Z.shiftr_nonneg; lia | lia | lia | lia | lia | lia].
    rewrite Hland, <- Z.lor_assoc, septet_split by lia.
    f_equal. f_equal. lia.
  - simpl. destruct (decide (shift >= 64)); [lia|].
    destruct (decide (v < 128)); [|lia].
    rewrite varintLen_small by lia.
    rewrite int_add_no_overflow by (unfold min_int, max_int in *; lia).
    rewrite Haccum; [| lia | lia |].
    + rewrite land_127, Z.mod_small by lia. done.
    + rewrite land_127, Z.mod_small by lia. done.
Qed.

Lemma accumUint64_spec acc b s :
  0 <= b < 256 -> 0 <= s -> Z.land b 127 * 2 ^ s < 2 ^ 64 ->
  accumUint64 acc b s = Z.lor acc (Z.shiftl (Z.land b 127) s).
Proof.
  intros Hb Hs Hfit. unfold accumUint64.
  rewrite (uint64_small b) by lia.
  rewrite uint64_small; [done|].
  rewrite Z.shiftl_mul_pow2 by lia. pose proof (land_127_bounds b).
  assert (0 < 2 ^ s) by (apply Z.pow_pos_nonneg; lia). nia.
Qed.

Lemma wrap_small z : min_int <= z <= max_int -> wrap z = z.
Proof.
  intros Hz. pose proof (int_add_no_overflow z 0) as H.
  unfold int_add in H. rewrite Z.add_0_r in H. by apply H.
Qed.

Lemma accumInt_spec acc b s :
  0 <= b < 256 -> 0 <= s -> Z.land b 127 * 2 ^ s < 2 ^ 63 ->
  accumInt acc b s = Z.lor acc (Z.shiftl (Z.land b 127) s).
Proof.
  intros Hb Hs Hfit. unfold accumInt.
  rewrite wrap_small; [done|].
  rewrite Z.shiftl_mul_pow2 by lia. pose proof (land_127_bounds b).
  assert (0 < 2 ^ s) by (apply Z.pow_pos_nonneg; lia).
  unfold min_int, max_int. nia.
Qed.

(** The loop that only skips a varint stops behind its last byte. *)
Lemma varintLoop_skip fuel : forall v shift acc iNdEx rest,
  0 <= v -> Z.log2 v / 7 <= Z.of_nat fuel ->
  0 <= shift -> shift + 7 * (varintLen v - 1) < 64 ->
  0 <= iNdEx -> iNdEx + varintLen v <= max_int ->
  varintLoop accumNone (varintBytes fuel v ++ rest) shift acc iNdEx =
  Ok (acc, iNdEx + varintLen v).
Proof.
  induction fuel as [|fuel IH];
    intros v shift acc iNdEx rest Hv Hfuel Hshift Hfit Hi Hmax;
    pose proof (varintLen_pos v Hv) as Hlen; simpl;
    destruct (decide (v >= 2 ^ 7)) as [Hge|Hlt]; change (2 ^ 7) with 128 in *.
  - pose proof (log2_shiftr7 v ltac:(lia)) as Hl.
    assert (0 <= Z.log2 (Z.shiftr v 7) / 7)
      by (apply Z.div_pos; [apply Z.log2_nonneg | lia]). lia.
  - simpl. destruct (decide (shift >= 64)); [lia|].
    destruct (decide (v < 128)); [|lia].
    rewrite varintLen_small by lia.
    by rewrite int_add_no_overflow by (unfold min_int, max_int in *; lia).
  - simpl. destruct (decide (shift >= 64)); [lia|].
    pose proof (continuation_byte v) as [Hb Hland].
    destruct (decide (Z.lor (Z.land v 127) 128 < 128)); [lia|].
    rewrite int_add_no_overflow by (unfold min_int, max_int in *; lia).
    pose proof (varintLen_shiftr7 v ltac:(lia)) as Hs.
    pose proof (log2_shiftr7 v ltac:(lia)) as Hl.
    unfold accumNone at 1.
    rewrite IH; [| apply Z.shiftr_nonneg; lia | lia | lia | lia | lia | lia].
    f_equal. f_equal. lia.
  - simpl. destruct (decide (shift >= 64)); [lia|].
    destruct (decide (v < 128)); [|lia].
    rewrite varintLen_small by lia.
    by rewrite int_add_no_overflow by (unfold min_int, max_int in *; lia).
Qed.

Lemma drop_length_app {A} (pre l : list A) (i : Z) :
  i = Z.of_nat (length pre) -> drop (Z.to_nat i) (pre ++ l) = l.
Proof.
  intros ->. rewrite Nat2Z.id. by rewrite drop_app_length.
Qed.

(** The three loops started at a varint of the slice. *)
Lemma readVarint_uint64 pre v rest iNdEx :
  0 <= v < 2 ^ 64 ->
  iNdEx = Z.of_nat (length pre) -> iNdEx + varintLen v <= max_int ->
  readVarint accumUint64 (pre ++ varint v ++ rest) iNdEx =
  Ret (Ok (v, iNdEx + varintLen v)).
Proof.
  intros Hv Hi Hmax. unfold readVarint.
  destruct (decide (iNdEx < 0)); [lia|].
  rewrite drop_length_app by done. unfold varint.
  rewrite (varintLoop_varintBytes accumUint64 (2 ^ 64));
    [ | done | apply accumUint64_spec | lia | by apply varintLen_fuel
      | lia | rewrite Z.mul_1_r; lia | lia | lia].
  by rewrite Z.shiftl_0_r, Z.lor_0_l.
Qed.

Lemma readVarint_int pre v rest iNdEx :
  0 <= v < 2 ^ 63 ->
  iNdEx = Z.of_nat (length pre) -> iNdEx + varintLen v <= max_int ->
  readVarint accumInt (pre ++ varint v ++ rest) iNdEx =
  Ret (Ok (v, iNdEx + varintLen v)).
Proof.
  intros Hv Hi Hmax. unfold readVarint.
  destruct (decide (iNdEx < 0)); [lia|].
  rewrite drop_length_app by done. unfold varint.
  rewrite (varintLoop_varintBytes accumInt (2 ^ 63));
    [ | done | apply accumInt_spec | lia | apply varintLen_fuel; lia
      | lia | rewrite Z.mul_1_r; lia | lia | lia].
  by rewrite Z.shiftl_0_r, Z.lor_0_l.
Qed.

Lemma readVarint_none pre v rest iNdEx :
  0 <= v < 2 ^ 64 ->
  iNdEx = Z.of_nat (length pre) -> iNdEx + varintLen v <= max_int ->
  readVarint accumNone (pre ++ varint v ++ rest) iNdEx =
  Ret (Ok (0, iNdEx + varintLen v)).
Proof.
  intros Hv Hi Hmax. unfold readVarint.
  destruct (decide (iNdEx < 0)); [lia|].
  rewrite drop_length_app by done. unfold varint.
  pose proof (varintLen_uint64 v Hv).
  by rewrite varintLoop_skip by
    (first [by apply varintLen_fuel | lia]).
Qed.

Lemma varint_length v : 0 <= v < 2 ^ 64 -> Z.of_nat (length (varint v)) = varintLen v.
Proof.
  intros Hv. apply varintBytes_length; [lia | by apply varintLen_fuel].
Qed.

Lemma varint_nonempty v rest : 0 <= v < 2 ^ 64 -> 0 < Z.of_nat (length (varint v ++ rest)).
Proof.
  intros Hv. rewrite length_app, Nat2Z.inj_add, varint_length by done.
  pose proof (varintLen_uint64 v Hv). lia.
Qed.

Lemma wireType_mod t : 0 <= t -> wrap (Z.land t 7) = t mod 8.
Proof.
  intros Ht. change 7 with (Z.ones 3). rewrite Z.land_ones by lia.
  change (2 ^ 3) with 8. pose proof (Z.mod_pos_bound t 8 ltac:(lia)).
  apply wrap_small. unfold min_int, max_int. lia.
Qed.

(** [skipStatus] up to its switch, on a slice that starts with a tag. *)
Lemma skipStatus_tag fuel t rest :
  0 <= t < 2 ^ 64 ->
  skipStatus (S fuel) (varint t ++ rest) =
  let dAtA := varint t ++ rest in
  let iNdEx := varintLen t in
  let wireType := t mod 8 in
  if decide (wireType = 0) then
    r ← readVarint accumNone dAtA iNdEx;
    match r with
    | Err err => Ret (0, Some err)
    | Ok (_, iNdEx) => Ret (iNdEx, None)
    end
  else if decide (wireType = 1) then Ret (int_add iNdEx 8, None)
  else if decide (wireType = 2) then
    r ← readVarint accumInt dAtA iNdEx;
    match r with
    | Err err => Ret (0, Some err)
    | Ok (length, iNdEx) =>
        let iNdEx := int_add iNdEx length in
        if decide (length < 0)
        then Ret (0, Some ErrInvalidLengthStatus)
        else Ret (iNdEx, None)
    end
  else if decide (wireType = 3) then skipGroup fuel dAtA iNdEx
  else if decide (wireType = 4) then Ret (iNdEx, None)
  else if decide (wireType = 5) then Ret (int_add iNdEx 4, None)
  else Ret (0, Some (Errorf ("proto: illegal wireType " +:+ fmt_d wireType))).
Proof.
  intros Ht. pose proof (varintLen_uint64 t Ht) as Hlen.
  cbn [skipStatus].
  destruct (decide (0 < Z.of_nat (length (varint t ++ rest)))) as [_|Hn];
    [| by pose proof (varint_nonempty t rest Ht)].
  pose proof (readVarint_uint64 [] t rest 0 Ht eq_refl) as Hr.
  rewrite app_nil_l in Hr. rewrite Hr by (unfold max_int; lia).
  cbn [mbind run_bind]. rewrite wireType_mod by lia. by rewrite Z.add_0_l.
Qed.

(** ** [skipStatus]: bounds and termination *)

Lemma wrap_range z : min_int <= wrap z <= max_int.
Proof.
  unfold wrap, min_int, max_int.
  pose proof (Z.mod_pos_bound (z + 2 ^ 63) (2 ^ 64) ltac:(lia)). lia.
Qed.

Lemma wrap_overflow z : max_int < z <= max_int + 2 ^ 64 -> wrap z = z - 2 ^ 64.
Proof.
  unfold wrap, max_int. intros Hz.
  rewrite <- (Z.mod_unique (z + 2 ^ 63) (2 ^ 64) 1 (z + 2 ^ 63 - 2 ^ 64)); lia.
Qed.

Lemma lor_lt_pow2 a b n :
  0 < n -> 0 <= a < 2 ^ n -> 0 <= b < 2 ^ n -> Z.lor a b < 2 ^ n.
Proof.
  intros Hn Ha Hb.
  assert (0 <= Z.lor a b) as Hnn by (apply Z.lor_nonneg; lia).
  destruct (decide (Z.lor a b = 0)) as [->|Hne]; [lia|].
  apply Z.log2_lt_pow2; [lia|]. rewrite Z.log2_lor by lia.
  assert (forall c, 0 <= c < 2 ^ n -> Z.log2 c < n) as Hlog.
  { intros c Hc. destruct (decide (c = 0)) as [->|Hc0]; [simpl; lia|].
    apply Z.log2_lt_pow2; lia. }
  pose proof (Hlog a Ha). pose proof (Hlog b Hb). lia.
Qed.

Lemma land_lt_pow2 x y n :
  0 < n -> 0 <= x < 2 ^ n -> - 2 ^ n <= y -> Z.land x y < 2 ^ n.
Proof.
  intros Hn Hx Hy.
  assert (0 <= Z.land x y) as Hnn by (apply Z.land_nonneg; lia).
  destruct (decide (0 <= y)) as [Hy0|Hyneg].
  - destruct (decide (Z.land x y = 0)) as [->|Hne]; [lia|].
    apply Z.log2_lt_pow2; [lia|].
    pose proof (Z.log2_land x y ltac:(lia) ltac:(lia)) as Hl.
    destruct (decide (x = 0)) as [->|Hx0]; [by rewrite Z.land_0_l in Hne|].
    assert (Z.log2 x < n) by (apply Z.log2_lt_pow2; lia). lia.
  - pose proof (Z.sub_lor_l_same_r x (Z.lnot y)) as Hsub.
    rewrite Z.lnot_involutive in Hsub.
    pose proof (Z.lnot_eq_pred_opp y) as Hnot.
    pose proof (lor_lt_pow2 x (Z.lnot y) n Hn Hx ltac:(lia)). lia.
Qed.

(** [|] on two [int]s is an [int]. *)
Lemma lor_int_range a b :
  min_int <= a <= max_int -> min_int <= b <= max_int ->
  min_int <= Z.lor a b <= max_int.
Proof.
  unfold min_int, max_int. intros Ha Hb.
  destruct (decide (0 <= a /\ 0 <= b)) as [[Ha0 Hb0]|Hneg].
  - pose proof (proj2 (Z.lor_nonneg a b) (conj Ha0 Hb0)).
    pose proof (lor_lt_pow2 a b 63 ltac:(lia) ltac:(lia) ltac:(lia)). lia.
  - assert (Z.lor a b < 0) as Hlt by (apply Z.lor_neg; lia).
    split; [|lia].
    pose proof (Z.lnot_lor a b) as Hl.
    pose proof (Z.lnot_eq_pred_opp (Z.lor a b)).
    pose proof (Z.lnot_eq_pred_opp a). pose proof (Z.lnot_eq_pred_opp b).
    destruct (decide (a < 0)) as [Ha0|Ha0].
    + pose proof (land_lt_pow2 (Z.lnot a) (Z.lnot b) 63 ltac:(lia) ltac:(lia) ltac:(lia)).
      lia.
    + pose proof (land_lt_pow2 (Z.lnot b) (Z.lnot a) 63 ltac:(lia) ltac:(lia) ltac:(lia)).
      rewrite Z.land_comm in Hl. lia.
Qed.

(** The length the [int] loop returns is an [int]. *)
Lemma varintLoop_accumInt_range : forall rest shift acc iNdEx a iNdEx',
  min_int <= acc <= max_int ->
  varintLoop accumInt rest shift acc iNdEx = Ok (a, iNdEx') ->
  min_int <= a <= max_int.
Proof.
  induction rest as [|b rest IH]; intros shift acc iNdEx a iNdEx' Hacc; simpl;
    destruct (decide (shift >= 64)); try done.
  assert (min_int <= accumInt acc b shift <= max_int) as Hnext
    by (apply lor_int_range; [done | apply wrap_range]).
  destruct (decide (b < 128)).
  - by intros [= <- <-].
  - by apply IH.
Qed.

Lemma readVarint_accumInt_range dAtA iNdEx a iNdEx' :
  readVarint accumInt dAtA iNdEx = Ret (Ok (a, iNdEx')) ->
  min_int <= a <= max_int.
Proof.
  unfold readVarint. destruct (decide (iNdEx < 0)); [done|].
  intros [= Hr]. eapply varintLoop_accumInt_range; [|exact Hr].
  unfold min_int, max_int. lia.
Qed.

(** A varint loop that returns has read at least one byte and no byte
    behind the slice. *)
Lemma varintLoop_index accum : forall rest shift acc iNdEx a iNdEx',
  0 <= iNdEx -> iNdEx + Z.of_nat (length rest) <= max_int ->
  varintLoop accum rest shift acc iNdEx = Ok (a, iNdEx') ->
  iNdEx + 1 <= iNdEx' <= iNdEx + Z.of_nat (length rest).
Proof.
  induction rest as [|b rest IH]; intros shift acc iNdEx a iNdEx' Hi Hmax; simpl;
    destruct (decide (shift >= 64)); try done.
  rewrite int_add_no_overflow by (simpl in Hmax; unfold min_int, max_int in *; lia).
  destruct (decide (b < 128)).
  - intros [= <- <-]. simpl. lia.
  - intros Hr. apply IH in Hr; simpl in *; lia.
Qed.

Lemma readVarint_cases accum dAtA iNdEx :
  Z.of_nat (length dAtA) <= max_int ->
  (iNdEx < 0 /\ readVarint accum dAtA iNdEx = Panic (RuntimeError IndexOutOfRange)) \/
  (exists err, readVarint accum dAtA iNdEx = Ret (Err err)) \/
  (exists a iNdEx', readVarint accum dAtA iNdEx = Ret (Ok (a, iNdEx')) /\
     0 <= iNdEx < Z.of_nat (length dAtA) /\
     iNdEx + 1 <= iNdEx' <= Z.of_nat (length dAtA)).
Proof.
  intros Hmax. unfold readVarint.
  destruct (decide (iNdEx < 0)) as [Hneg|Hpos]; [by left|]. right.
  destruct (varintLoop accum (drop (Z.to_nat iNdEx) dAtA) 0 0 iNdEx)
    as [[a iNdEx']|err] eqn:Hloop; [right | by left; exists err].
  exists a, iNdEx'. split; [done|].
  destruct (decide (iNdEx < Z.of_nat (length dAtA))) as [Hlt|Hge].
  - apply varintLoop_index in Hloop; rewrite ?length_drop in *; lia.
  - rewrite drop_ge in Hloop by lia. done.
Qed.

(** The group loop entered at a negative index faults at its first read. *)
Lemma skipGroup_negative fuel dAtA iNdEx :
  iNdEx < 0 ->
  skipGroup (S fuel) dAtA iNdEx = Panic (RuntimeError IndexOutOfRange).
Proof.
  intros Hneg. cbn [skipGroup]. unfold readVarint.
  by destruct (decide (iNdEx < 0)).
Qed.

(** With a bound of twice the length and one, [skipStatus] is not cut off;
    an index it returns without error is never [0]; the group loop returns
    an index behind its start and inside the slice. *)
Lemma skip_adequate fuel :
  (forall dAtA,
     Z.of_nat (length dAtA) < 2 ^ 62 ->
     2 * Z.of_nat (length dAtA) + 1 <= Z.of_nat fuel ->
     skipStatus fuel dAtA <> OutOfFuel /\
     forall n, skipStatus fuel dAtA = Ret (n, None) ->
               min_int <= n <= max_int /\ (1 <= n \/ n < - 2 ^ 62)) /\
  (forall dAtA iNdEx,
     Z.of_nat (length dAtA) < 2 ^ 62 ->
     1 <= Z.of_nat fuel ->
     iNdEx < 0 \/ 2 * Z.max 0 (Z.of_nat (length dAtA) - iNdEx) + 2 <= Z.of_nat fuel ->
     skipGroup fuel dAtA iNdEx <> OutOfFuel /\
     forall n, skipGroup fuel dAtA iNdEx = Ret (n, None) ->
               iNdEx + 1 <= n <= Z.of_nat (length dAtA)).
Proof.
  induction fuel as [|fuel [IHs IHg]].
  { split; [intros dAtA _ Hf; lia | intros dAtA i _ Hf; lia]. }
  assert (2 ^ 62 < max_int) as Hpow by (unfold max_int; lia).
  split.
  - intros dAtA Hlen Hfuel. cbn [skipStatus].
    destruct (decide (0 < Z.of_nat (length dAtA))) as [Hne|He]; [|by split].
    destruct (readVarint_cases accumUint64 dAtA 0 ltac:(lia))
      as [[Hneg _]|[[err ->]|(wire & i & -> & Hi0 & Hi)]]; [lia | by split |].
    cbn [mbind run_bind].
    repeat case_decide.
    + destruct (readVarint_cases accumNone dAtA i ltac:(lia))
        as [[Hneg _]|[[err ->]|(a & i' & -> & Hi0' & Hi')]]; [lia | by split |].
      cbn [mbind run_bind]. split; [done|]. intros n [= <-].
      unfold min_int, max_int in *. lia.
    + rewrite int_add_no_overflow by (unfold min_int, max_int in *; lia).
      split; [done|]. intros n [= <-]. unfold min_int, max_int in *. lia.
    + destruct (readVarint_cases accumInt dAtA i ltac:(lia))
        as [[Hneg _]|[[err Hr]|(len & i' & Hr & Hi0' & Hi')]];
        [lia | by rewrite Hr |].
      pose proof (readVarint_accumInt_range _ _ _ _ Hr) as Hrange.
      rewrite Hr. cbn [mbind run_bind]. case_decide; [by split|].
      split; [done|]. intros n [= <-].
      split; [apply wrap_range|].
      destruct (decide (i' + len <= max_int)) as [Hno|Hov].
      * left. rewrite int_add_no_overflow by (unfold min_int, max_int in *; lia).
        lia.
      * right. unfold int_add. rewrite wrap_overflow by (unfold max_int in *; lia).
        unfold max_int in *. lia.
    + destruct fuel as [|fuel']; [lia|].
      destruct (IHg dAtA i Hlen ltac:(lia) ltac:(right; lia)) as [Hnf Hret].
      split; [done|]. intros n Hn. apply Hret in Hn.
      unfold min_int, max_int in *. lia.
    + split; [done|]. intros n [= <-]. unfold min_int, max_int in *. lia.
    + rewrite int_add_no_overflow by (unfold min_int, max_int in *; lia).
      split; [done|]. intros n [= <-]. unfold min_int, max_int in *. lia.
    + by split.
  - intros dAtA i Hlen _ Hfuel. cbn [skipGroup].
    destruct (readVarint_cases accumUint64 dAtA i ltac:(lia))
      as [[Hneg ->]|[[err ->]|(wire & i' & -> & Hi0 & Hi)]];
      [by split | by split |].
    cbn [mbind run_bind]. case_decide.
    { split; [done|]. intros n [= <-]. lia. }
    destruct (IHs (drop (Z.to_nat i) dAtA)) as [Hnf Hret];
      [rewrite length_drop; lia | rewrite length_drop; lia |].
    destruct (skipStatus fuel (drop (Z.to_nat i) dAtA))
      as [[next [err|]]|pv|] eqn:Hskip; [by split | | by split | done].
    cbn [mbind run_bind].
    destruct (Hret next eq_refl) as [Hnext Hprog]. clear Hret.
    destruct fuel as [|fuel']; [lia|].
    assert (int_add i next < 0 \/ i + 1 <= int_add i next) as [Hj|Hj].
    { pose proof (wrap_range (i + next)) as Hw. fold (int_add i next) in Hw.
      destruct Hprog as [Hpos|Hneg].
      - destruct (decide (i + next <= max_int)).
        + right. rewrite int_add_no_overflow by (unfold min_int, max_int in *; lia).
          lia.
        + left. unfold int_add.
          rewrite wrap_overflow by (unfold min_int, max_int in *; lia).
          unfold min_int, max_int in *. lia.
      - left. rewrite int_add_no_overflow by (unfold min_int, max_int in *; lia).
        lia. }
    + rewrite skipGroup_negative by done. by split.
    + destruct (IHg dAtA (int_add i next) Hlen ltac:(lia) ltac:(lia)) as [Hnf' Hret'].
      split; [done|]. intros n Hn. apply Hret' in Hn. lia.
Qed.

(** A larger bound does not change a call that was not cut off. *)
Lemma skip_fuel_S fuel :
  (forall dAtA, skipStatus fuel dAtA <> OutOfFuel ->
                skipStatus (S fuel) dAtA = skipStatus fuel dAtA) /\
  (forall dAtA iNdEx, skipGroup fuel dAtA iNdEx <> OutOfFuel ->
                      skipGroup (S fuel) dAtA iNdEx = skipGroup fuel dAtA iNdEx).
Proof.
  induction fuel as [|fuel [IHs IHg]]; [by split|]. split.
  - intros dAtA. remember (S fuel) as fuel1 eqn:Hfuel1.
    cbn [skipStatus]. subst fuel1. cbn [skipStatus].
    destruct (decide (0 < Z.of_nat (length dAtA))); [|done].
    destruct (readVarint accumUint64 dAtA 0) as [[[wire i]|err]|pv|]; try done.
    cbn [mbind run_bind]. repeat case_decide; try done.
    intros Hnf. by apply IHg.
  - intros dAtA i. remember (S fuel) as fuel1 eqn:Hfuel1.
    cbn [skipGroup]. subst fuel1. cbn [skipGroup].
    destruct (readVarint accumUint64 dAtA i) as [[[wire i']|err]|pv|]; try done.
    cbn [mbind run_bind]. case_decide; [done|].
    destruct (skipStatus fuel (drop (Z.to_nat i) dAtA)) as [[next err]|pv|] eqn:Hs;
      [| |done].
    + rewrite IHs by (by rewrite Hs). rewrite Hs.
      cbn [mbind run_bind]. destruct err as [err|]; [done|]. apply IHg.
    + rewrite IHs by (by rewrite Hs). by rewrite Hs.
Qed.

Lemma skipStatus_fuel_le fuel fuel' dAtA :
  (fuel <= fuel')%nat -> skipStatus fuel dAtA <> OutOfFuel ->
  skipStatus fuel' dAtA = skipStatus fuel dAtA.
Proof.
  induction 1 as [|fuel' Hle IH]; [done|]. intros Hnf.
  rewrite <- (IH Hnf). apply skip_fuel_S. by rewrite IH.
Qed.

(** A varint loop over continuation bytes only: the tenth byte is not
    read, and the end of the slice before it is the end of the input. *)
Lemma varintLoop_overflow accum : forall bs rest shift acc iNdEx,
  Forall (fun b => 128 <= b) bs ->
  64 <= shift + 7 * Z.of_nat (length bs) ->
  varintLoop accum (bs ++ rest) shift acc iNdEx = Err ErrIntOverflowStatus.
Proof.
  induction bs as [|b bs IH]; intros rest shift acc iNdEx Hbs Hlen.
  - simpl in Hlen. destruct rest; simpl; by destruct (decide (shift >= 64)); try lia.
  - simpl. destruct (decide (shift >= 64)); [done|].
    inversion Hbs as [|? ? Hb Hbs']; subst.
    destruct (decide (b < 128)); [lia|].
    apply IH; [done|]. simpl length in Hlen. lia.
Qed.

Lemma varintLoop_eof accum : forall bs shift acc iNdEx,
  Forall (fun b => 128 <= b) bs ->
  shift + 7 * Z.of_nat (length bs) < 64 ->
  varintLoop accum bs shift acc iNdEx = Err ErrUnexpectedEOF.
Proof.
  induction bs as [|b bs IH]; intros shift acc iNdEx Hbs Hlen.
  - simpl in *. destruct (decide (shift >= 64)); [lia | done].
  - simpl. destruct (decide (shift >= 64)); [simpl length in Hlen; lia|].
    inversion Hbs as [|? ? Hb Hbs']; subst.
    destruct (decide (b < 128)); [lia|].
    apply IH; [done|]. simpl length in Hlen. lia.
Qed.

Lemma readVarint_overflow accum pre bs rest iNdEx :
  iNdEx = Z.of_nat (length pre) ->
  Forall (fun b => 128 <= b) bs -> length bs = 10%nat ->
  readVarint accum (pre ++ bs ++ rest) iNdEx = Ret (Err ErrIntOverflowStatus).
Proof.
  intros Hi Hbs Hlen. unfold readVarint. destruct (decide (iNdEx < 0)); [lia|].
  rewrite drop_length_app by done. rewrite varintLoop_overflow; [done..|lia].
Qed.

Lemma readVarint_eof accum pre bs iNdEx :
  iNdEx = Z.of_nat (length pre) ->
  Forall (fun b => 128 <= b) bs -> (length bs < 10)%nat ->
  readVarint accum (pre ++ bs) iNdEx = Ret (Err ErrUnexpectedEOF).
Proof.
  intros Hi Hbs Hlen. unfold readVarint. destruct (decide (iNdEx < 0)); [lia|].
  rewrite drop_length_app by done. rewrite varintLoop_eof; [done..|lia].
Qed.

(** ** Varints: main statements *)

Lemma sovStatus_varintLen x : 0 <= x < 2 ^ 64 -> sovStatus x = Ret (varintLen x).
Proof.
  intros Hx. unfold sovStatus.
  pose proof (varintLen_uint64 x Hx).
  rewrite sovStatus_loop_varintLen;
    [done | lia | by apply varintLen_fuel | lia | unfold max_int; lia].
Qed.

Lemma lxor_ones_64 y : 0 <= y < 2 ^ 64 -> Z.lxor y (2 ^ 64 - 1) = 2 ^ 64 - 1 - y.
Proof.
  intros Hy. pose proof (Z.add_lxor_2land y (Z.ones 64)) as Hadd.
  rewrite Z.land_ones, Z.mod_small in Hadd by lia.
  change (Z.ones 64) with (2 ^ 64 - 1) in Hadd. lia.
Qed.

(** The operand of [sovStatus] in [sozStatus] is the zigzag code. *)
Lemma sozStatus_operand s :
  min_int <= s <= max_int ->
  uint64 (Z.lxor (uint64 (Z.shiftl (uint64 s) 1))
                 (uint64 (Z.shiftr (wrap (uint64 s)) 63))) = zigzag s.
Proof.
  unfold min_int, max_int. intros Hs.
  assert (wrap (uint64 s) = s) as ->.
  { unfold wrap, uint64. rewrite Zplus_mod_idemp_l.
    rewrite Z.mod_small by lia. lia. }
  rewrite Z.shiftl_mul_pow2, Z.shiftr_div_pow2 by lia.
  change (2 ^ 1) with 2. unfold zigzag, uint64.
  destruct (decide (0 <= s)) as [Hpos|Hneg].
  - rewrite (Z.mod_small s) by lia. rewrite (Z.div_small s) by lia.
    rewrite (Z.mod_small 0) by lia. rewrite Z.lxor_0_r.
    rewrite Z.mod_mod by lia.
    rewrite (Z.mul_comm s 2). 
    destruct (decide (2 * s < 2 ^ 64)).
    + rewrite Z.mod_small; lia.
    + lia.
  - assert (s / 2 ^ 63 = -1) as ->
      by (symmetry; apply (Z.div_unique s (2 ^ 63) (-1) (s + 2 ^ 63)); lia).
    assert (s mod 2 ^ 64 = s + 2 ^ 64) as ->
      by (symmetry; apply (Z.mod_unique s (2 ^ 64) (-1) (s + 2 ^ 64)); lia).
    assert (((s + 2 ^ 64) * 2) mod 2 ^ 64 = 2 * s + 2 ^ 64) as ->
      by (symmetry; apply (Z.mod_unique _ (2 ^ 64) 1 (2 * s + 2 ^ 64)); lia).
    assert (-1 mod 2 ^ 64 = 2 ^ 64 - 1) as -> by reflexivity.
    rewrite lxor_ones_64 by lia. rewrite Z.mod_small; lia.
Qed.

(** X8.  [sovStatus] returns, for every [uint64], the number of groups of
    seven bits the value has: between one and ten, the least [n] with
    [x < 2^(7n)]. *)
Theorem X8_sovStatus_counts_groups_of_seven_bits (x : Z) :
  0 <= x < 2 ^ 64 ->
  exists n,
    sovStatus x = Ret n /\ 1 <= n <= 10 /\
    x < 2 ^ (7 * n) /\ (n = 1 \/ 2 ^ (7 * (n - 1)) <= x).
Proof.
  intros Hx. exists (varintLen x).
  pose proof (varintLen_bounds x ltac:(lia)) as [Hlt Hge].
  refine (conj _ (conj _ (conj _ _)));
    [by apply sovStatus_varintLen | by apply varintLen_uint64 | done | done].
Qed.

Lemma X8_sovStatus_witness :
  0 <= 300 < 2 ^ 64 /\
  exists n,
    sovStatus 300 = Ret n /\ 1 <= n <= 10 /\
    300 < 2 ^ (7 * n) /\ (n = 1 \/ 2 ^ (7 * (n - 1)) <= 300).
Proof.
  split; [lia | apply (X8_sovStatus_counts_groups_of_seven_bits 300); lia].
Defined.

(** X9.  With room for it, [encodeVarintStatus] writes the varint of [v]
    at [offset] and returns the offset behind it: it writes as many bytes as
    [sovStatus] counts, leaves every other byte and the length of the slice
    alone, and every byte it writes but the last has its high bit set. *)
Theorem X9_encodeVarintStatus_writes_sovStatus_bytes (dAtA : list Z) (offset v : Z) :
  0 <= v < 2 ^ 64 ->
  0 <= offset ->
  offset + varintLen v <= Z.of_nat (length dAtA) ->
  Z.of_nat (length dAtA) <= max_int ->
  exists n dAtA',
    sovStatus v = Ret n /\
    encodeVarintStatus dAtA offset v = Ret (dAtA', offset + n) /\
    dAtA' = take (Z.to_nat offset) dAtA ++ varint v
              ++ drop (Z.to_nat (offset + n)) dAtA /\
    length dAtA' = length dAtA /\
    Z.of_nat (length (varint v)) = n /\
    exists bs last,
      varint v = bs ++ [last] /\
      Forall (fun b => 128 <= b < 256) bs /\ 0 <= last < 128.
Proof.
  intros Hv Hoff Hroom Hmax.
  pose proof (varintLen_fuel v Hv) as Hfuel.
  pose proof (varintLen_uint64 v Hv) as Hlen.
  pose proof (varint_length v Hv) as Hvl.
  eexists (varintLen v), _.
  refine (conj _ (conj _ (conj eq_refl (conj _ (conj _ _))))).
  - by apply sovStatus_varintLen.
  - unfold encodeVarintStatus. apply encodeVarintStatus_loop_Ret; lia.
  - rewrite !length_app, length_take, length_drop. lia.
  - done.
  - apply varintBytes_shape; lia.
Qed.

Lemma X9_encodeVarintStatus_witness :
  (0 <= 300 < 2 ^ 64 /\ 0 <= 1 /\
   1 + varintLen 300 <= Z.of_nat (length [7; 7; 7; 7]) /\
   Z.of_nat (length [7; 7; 7; 7]) <= max_int) /\
  exists n dAtA',
    sovStatus 300 = Ret n /\
    encodeVarintStatus [7; 7; 7; 7] 1 300 = Ret (dAtA', 1 + n) /\
    dAtA' = take (Z.to_nat 1) [7; 7; 7; 7] ++ varint 300
              ++ drop (Z.to_nat (1 + n)) [7; 7; 7; 7] /\
    length dAtA' = length [7; 7; 7; 7] /\
    Z.of_nat (length (varint 300)) = n /\
    exists bs last,
      varint 300 = bs ++ [last] /\
      Forall (fun b => 128 <= b < 256) bs /\ 0 <= last < 128.
Proof.
  assert (0 <= 300 < 2 ^ 64 /\ 0 <= 1 /\
          1 + varintLen 300 <= Z.of_nat (length [7; 7; 7; 7]) /\
          Z.of_nat (length [7; 7; 7; 7]) <= max_int) as H
    by (vm_compute; intuition discriminate).
  split; [exact H|].
  destruct H as (H1 & H2 & H3 & H4).
  exact (X9_encodeVarintStatus_writes_sovStatus_bytes [7; 7; 7; 7] 1 300 H1 H2 H3 H4).
Defined.

(** X10.  Without room for the varint (a negative offset, or fewer bytes
    from [offset] on than [sovStatus] counts), [encodeVarintStatus] does not
    return: a store leaves the slice and the call panics with the index
    error of the runtime. *)
Theorem X10_encodeVarintStatus_panics_without_room (dAtA : list Z) (offset v : Z) :
  0 <= v < 2 ^ 64 ->
  offset < 0 \/ Z.of_nat (length dAtA) < offset + varintLen v ->
  Z.of_nat (length dAtA) <= max_int ->
  sovStatus v = Ret (varintLen v) /\
  encodeVarintStatus dAtA offset v = Panic (RuntimeError IndexOutOfRange).
Proof.
  intros Hv Hroom Hmax. split; [by apply sovStatus_varintLen|].
  unfold encodeVarintStatus.
  apply encodeVarintStatus_loop_Panic; [lia | by apply varintLen_fuel | done | done].
Qed.

Lemma X10_encodeVarintStatus_witness :
  (0 <= 300 < 2 ^ 64 /\
   (3 < 0 \/ Z.of_nat (length [7; 7; 7; 7]) < 3 + varintLen 300) /\
   Z.of_nat (length [7; 7; 7; 7]) <= max_int) /\
  sovStatus 300 = Ret (varintLen 300) /\
  encodeVarintStatus [7; 7; 7; 7] 3 300 = Panic (RuntimeError IndexOutOfRange).
Proof.
  assert (0 <= 300 < 2 ^ 64 /\
          (3 < 0 \/ Z.of_nat (length [7; 7; 7; 7]) < 3 + varintLen 300) /\
          Z.of_nat (length [7; 7; 7; 7]) <= max_int) as H
    by (refine (conj _ (conj (or_intror _) _)); vm_compute; intuition discriminate).
  split; [exact H|].
  destruct H as (H1 & H2 & H3).
  exact (X10_encodeVarintStatus_panics_without_room [7; 7; 7; 7] 3 300 H1 H2 H3).
Defined.

(** X11.  What [encodeVarintStatus] writes, the varint loops of the
    decoders read back: started at [offset], the [uint64] loop returns [v]
    and the offset the encoder returned, the loop that only skips stops at
    the same offset, and the [int] loop returns [v] when [v] is below
    [2^63]. *)
Theorem X11_varint_round_trip (dAtA : list Z) (offset v : Z) :
  0 <= v < 2 ^ 64 ->
  0 <= offset ->
  offset + varintLen v <= Z.of_nat (length dAtA) ->
  Z.of_nat (length dAtA) <= max_int ->
  exists dAtA' offset',
    encodeVarintStatus dAtA offset v = Ret (dAtA', offset') /\
    readVarint accumUint64 dAtA' offset = Ret (Ok (v, offset')) /\
    readVarint accumNone dAtA' offset = Ret (Ok (0, offset')) /\
    (v < 2 ^ 63 -> readVarint accumInt dAtA' offset = Ret (Ok (v, offset'))).
Proof.
  intros Hv Hoff Hroom Hmax.
  pose proof (varintLen_uint64 v Hv) as Hlen.
  eexists _, _. split.
  { unfold encodeVarintStatus.
    apply encodeVarintStatus_loop_Ret; [lia | by apply varintLen_fuel | lia..]. }
  fold (varint v).
  assert (offset = Z.of_nat (length (take (Z.to_nat offset) dAtA))) as Hpre
    by (rewrite length_take; lia).
  refine (conj _ (conj _ _)).
  - apply readVarint_uint64; [done | done | lia].
  - apply readVarint_none; [done | done | lia].
  - intros Hv63. apply readVarint_int; [lia | done | lia].
Qed.

Lemma X11_varint_round_trip_witness :
  (0 <= 300 < 2 ^ 64 /\ 0 <= 1 /\
   1 + varintLen 300 <= Z.of_nat (length [7; 7; 7; 7]) /\
   Z.of_nat (length [7; 7; 7; 7]) <= max_int) /\
  exists dAtA' offset',
    encodeVarintStatus [7; 7; 7; 7] 1 300 = Ret (dAtA', offset') /\
    readVarint accumUint64 dAtA' 1 = Ret (Ok (300, offset')) /\
    readVarint accumNone dAtA' 1 = Ret (Ok (0, offset')) /\
    (300 < 2 ^ 63 -> readVarint accumInt dAtA' 1 = Ret (Ok (300, offset'))).
Proof.
  assert (0 <= 300 < 2 ^ 64 /\ 0 <= 1 /\
          1 + varintLen 300 <= Z.of_nat (length [7; 7; 7; 7]) /\
          Z.of_nat (length [7; 7; 7; 7]) <= max_int) as H
    by (vm_compute; intuition discriminate).
  split; [exact H|].
  destruct H as (H1 & H2 & H3 & H4).
  exact (X11_varint_round_trip [7; 7; 7; 7] 1 300 H1 H2 H3 H4).
Defined.

(** X12.  [sozStatus] on the [uint64] of a signed integer [s] is the size
    of the varint of its zigzag code, [2s] for [s >= 0] and [-2s - 1] for
    [s < 0]; so the integers from [-64] to [63] take one byte. *)
Theorem X12_sozStatus_is_size_of_zigzag (s : Z) :
  min_int <= s <= max_int ->
  0 <= zigzag s < 2 ^ 64 /\
  sozStatus (uint64 s) = sovStatus (zigzag s) /\
  sozStatus (uint64 s) = Ret (varintLen (zigzag s)) /\
  (- 64 <= s < 64 -> sozStatus (uint64 s) = Ret 1).
Proof.
  intros Hs.
  assert (0 <= zigzag s < 2 ^ 64) as Hz
    by (unfold zigzag, min_int, max_int in *; case_decide; lia).
  assert (sozStatus (uint64 s) = sovStatus (zigzag s)) as Heq
    by (unfold sozStatus; by rewrite sozStatus_operand).
  refine (conj Hz (conj Heq (conj _ _))).
  - rewrite Heq. by apply sovStatus_varintLen.
  - intros Hsmall. rewrite Heq, sovStatus_varintLen by done.
    rewrite varintLen_small; [done|]. unfold zigzag. case_decide; lia.
Qed.

Lemma X12_sozStatus_witness :
  min_int <= -3 <= max_int /\
  0 <= zigzag (-3) < 2 ^ 64 /\
  sozStatus (uint64 (-3)) = sovStatus (zigzag (-3)) /\
  sozStatus (uint64 (-3)) = Ret (varintLen (zigzag (-3))) /\
  (- 64 <= -3 < 64 -> sozStatus (uint64 (-3)) = Ret 1).
Proof.
  assert (min_int <= -3 <= max_int) as H by (unfold min_int, max_int; lia).
  split; [exact H | exact (X12_sozStatus_is_size_of_zigzag (-3) H)].
Defined.

(** ** [skipStatus]: main statements *)

Lemma tag_mod num w : 0 <= w < 8 -> (8 * num + w) mod 8 = w.
Proof.
  intros Hw. rewrite Z.add_comm, Z.mul_comm, Z_mod_plus_full.
  by apply Z.mod_small.
Qed.

Lemma fieldNumber_tag num w :
  fieldNumber num = true -> 0 <= w < 8 -> 0 <= 8 * num + w < 2 ^ 64.
Proof. unfold fieldNumber. intros Hnum%bool_decide_eq_true Hw. lia. Qed.

Lemma tag_length num w :
  fieldNumber num = true -> 0 <= w < 8 ->
  Z.of_nat (length (tag num w)) = varintLen (8 * num + w) /\
  1 <= varintLen (8 * num + w) <= 10.
Proof.
  intros Hnum Hw. pose proof (fieldNumber_tag num w Hnum Hw) as Ht.
  split; [by apply varint_length | by apply varintLen_uint64].
Qed.

(** A field starts with a tag that is no end-group tag. *)
Lemma fieldBytes_tag f :
  wellFormed f = true ->
  exists num w tail,
    fieldBytes f = tag num w ++ tail /\ fieldNumber num = true /\
    0 <= w < 8 /\ w <> 4.
Proof.
  destruct f as [num v|num p|num p|num body e|num p]; simpl;
    rewrite ?andb_true_iff; intros Hwf.
  - exists num, 0, (varint v). by intuition lia.
  - exists num, 1, p. by intuition lia.
  - exists num, 2, (varint (Z.of_nat (length p)) ++ p). by intuition lia.
  - exists num, 3, (fieldsBytes body ++ tag e 4). by intuition lia.
  - exists num, 5, p. by intuition lia.
Qed.

(** [skipStatus] on a field returns the length of the field; its group loop
    over the fields left in a group returns the index behind the end-group
    tag. *)
Lemma skip_wellFormed :
  (forall f, wellFormed f = true ->
     forall fuel rest,
       (fieldFuel f <= fuel)%nat ->
       Z.of_nat (length (fieldBytes f)) < 2 ^ 62 ->
       skipStatus fuel (fieldBytes f ++ rest) =
       Ret (Z.of_nat (length (fieldBytes f)), None)) /\
  (forall fs, allWellFormed fs = true ->
     forall fuel pre endNum rest,
       fieldNumber endNum = true ->
       (fieldsFuel fs <= fuel)%nat ->
       Z.of_nat (length pre) + Z.of_nat (length (fieldsBytes fs))
         + varintLen (8 * endNum + 4) < 2 ^ 62 ->
       skipGroup fuel (pre ++ fieldsBytes fs ++ tag endNum 4 ++ rest)
                 (Z.of_nat (length pre)) =
       Ret (Z.of_nat (length pre) + Z.of_nat (length (fieldsBytes fs))
            + varintLen (8 * endNum + 4), None)).
Proof.
  assert (2 ^ 62 < max_int) as Hpow by (unfold max_int; lia).
  apply wireField_mutind.
  - (* a varint *)
    intros num v [Hnum Hv%bool_decide_eq_true]%andb_true_iff fuel rest Hfuel Hlen.
    destruct fuel as [|fuel]; [simpl in Hfuel; lia|].
    destruct (tag_length num 0 Hnum ltac:(lia)) as [Htl Htb].
    pose proof (fieldNumber_tag num 0 Hnum ltac:(lia)) as Ht.
    cbn [fieldBytes]. unfold tag in *. rewrite <- app_assoc.
    rewrite skipStatus_tag by done. cbv zeta. rewrite tag_mod by lia.
    rewrite decide_True by done.
    rewrite readVarint_none by (first [done | unfold max_int in *; pose proof (varintLen_uint64 v Hv); lia]).
    cbn [mbind run_bind]. rewrite length_app, Nat2Z.inj_add, Htl.
    by rewrite varint_length.
  - (* 64 bits *)
    intros num p [Hnum Hp%bool_decide_eq_true]%andb_true_iff fuel rest Hfuel Hlen.
    destruct fuel as [|fuel]; [simpl in Hfuel; lia|].
    destruct (tag_length num 1 Hnum ltac:(lia)) as [Htl Htb].
    pose proof (fieldNumber_tag num 1 Hnum ltac:(lia)) as Ht.
    cbn [fieldBytes]. unfold tag in *. rewrite <- app_assoc.
    rewrite skipStatus_tag by done. cbv zeta. rewrite tag_mod by lia.
    rewrite decide_False, decide_True by done.
    rewrite int_add_no_overflow by (unfold min_int, max_int in *; lia).
    rewrite length_app, Nat2Z.inj_add, Htl, Hp. done.
  - (* bytes *)
    intros num p Hnum fuel rest Hfuel Hlen. simpl in Hnum.
    destruct fuel as [|fuel]; [simpl in Hfuel; lia|].
    destruct (tag_length num 2 Hnum ltac:(lia)) as [Htl Htb].
    pose proof (fieldNumber_tag num 2 Hnum ltac:(lia)) as Ht.
    cbn [fieldBytes] in *. unfold tag in *.
    rewrite !length_app, !Nat2Z.inj_add, Htl in Hlen.
    assert (0 <= Z.of_nat (length p) < 2 ^ 63) as Hp by lia.
    pose proof (varintLen_uint64 (Z.of_nat (length p)) ltac:(lia)) as Hpl.
    rewrite <- !app_assoc.
    rewrite skipStatus_tag by done. cbv zeta. rewrite tag_mod by lia.
    rewrite decide_False, decide_False, decide_True by done.
    rewrite readVarint_int by (first [done | unfold max_int in *; lia]).
    cbn [mbind run_bind]. rewrite decide_False by lia.
    rewrite int_add_no_overflow by (unfold min_int, max_int in *; lia).
    rewrite !length_app, !Nat2Z.inj_add, Htl, varint_length by lia.
    do 2 f_equal. lia.
  - (* a group *)
    intros num body IH e [[Hnum Hbody]%andb_true_iff He]%andb_true_iff
           fuel rest Hfuel Hlen.
    destruct fuel as [|fuel]; [simpl in Hfuel; lia|].
    destruct (tag_length num 3 Hnum ltac:(lia)) as [Htl Htb].
    destruct (tag_length e 4 He ltac:(lia)) as [Hel Heb].
    pose proof (fieldNumber_tag num 3 Hnum ltac:(lia)) as Ht.
    cbn [fieldBytes fieldFuel] in *.
    change (tag num 3) with (varint (8 * num + 3)) in *.
    rewrite !length_app, !Nat2Z.inj_add, Hel in *.
    rewrite <- !app_assoc.
    rewrite skipStatus_tag by done. cbv zeta. rewrite tag_mod by lia.
    do 3 (rewrite decide_False by done). rewrite decide_True by done.
    rewrite <- Htl. rewrite (IH Hbody fuel (varint (8 * num + 3)) e rest He);
      [ | lia | lia].
    do 2 f_equal. lia.
  - (* 32 bits *)
    intros num p [Hnum Hp%bool_decide_eq_true]%andb_true_iff fuel rest Hfuel Hlen.
    destruct fuel as [|fuel]; [simpl in Hfuel; lia|].
    destruct (tag_length num 5 Hnum ltac:(lia)) as [Htl Htb].
    pose proof (fieldNumber_tag num 5 Hnum ltac:(lia)) as Ht.
    cbn [fieldBytes]. unfold tag in *. rewrite <- app_assoc.
    rewrite skipStatus_tag by done. cbv zeta. rewrite tag_mod by lia.
    do 5 (rewrite decide_False by done). rewrite decide_True by done.
    rewrite int_add_no_overflow by (unfold min_int, max_int in *; lia).
    rewrite length_app, Nat2Z.inj_add, Htl, Hp. done.
  - (* the end of a group *)
    intros _ fuel pre e rest He Hfuel Hlen.
    destruct fuel as [|fuel]; [simpl in Hfuel; lia|].
    destruct (tag_length e 4 He ltac:(lia)) as [Hel Heb].
    pose proof (fieldNumber_tag e 4 He ltac:(lia)) as Ht.
    cbn [fieldsBytes skipGroup]. rewrite app_nil_l. unfold tag.
    rewrite readVarint_uint64 by (first [done | unfold max_int in *; simpl in *; lia]).
    cbn [mbind run_bind]. rewrite wireType_mod, tag_mod by lia.
    rewrite decide_True by done. simpl length. do 2 f_equal. lia.
  - (* a field of a group *)
    intros f IHf fs IHfs [Hf Hfs]%andb_true_iff fuel pre e rest He Hfuel Hlen.
    destruct fuel as [|fuel]; [simpl in Hfuel; lia|].
    cbn [fieldsFuel] in Hfuel.
    destruct (fieldBytes_tag f Hf) as (num & w & tail & Hbytes & Hnum & Hw & Hw4).
    destruct (tag_length num w Hnum Hw) as [Htl Htb].
    destruct (tag_length e 4 He ltac:(lia)) as [Hel Heb].
    pose proof (fieldNumber_tag num w Hnum Hw) as Ht.
    cbn [fieldsBytes skipGroup] in *.
    rewrite length_app, Nat2Z.inj_add in Hlen.
    assert (readVarint accumUint64
              (pre ++ (fieldBytes f ++ fieldsBytes fs) ++ tag e 4 ++ rest)
              (Z.of_nat (length pre)) =
            Ret (Ok (8 * num + w, Z.of_nat (length pre) + varintLen (8 * num + w))))
      as ->.
    { rewrite Hbytes. unfold tag at 1. rewrite <- !app_assoc.
      apply readVarint_uint64; [done | done | unfold max_int in *; lia]. }
    cbn [mbind run_bind]. rewrite wireType_mod, tag_mod by lia.
    rewrite decide_False by done.
    rewrite drop_length_app by done. rewrite <- app_assoc.
    rewrite IHf; [ | done | lia | lia].
    cbn [mbind run_bind].
    rewrite int_add_no_overflow by (unfold min_int, max_int in *; lia).
    rewrite <- Nat2Z.inj_add, <- length_app.
    rewrite (app_assoc pre).
    rewrite IHfs; [ | done | done | lia | rewrite length_app; lia].
    rewrite !length_app. do 2 f_equal. lia.
Qed.

Lemma skipStatus_adequate fuel dAtA :
  Z.of_nat (length dAtA) < 2 ^ 62 ->
  2 * Z.of_nat (length dAtA) + 1 <= Z.of_nat fuel ->
  skipStatus fuel dAtA <> OutOfFuel.
Proof. intros Hlen Hfuel. by apply skip_adequate. Qed.

(** X13.  [skipStatus] skips one field: on a slice that starts with a
    well-formed field of any wire type, groups and groups inside groups
    included, it returns the length of that field and no error, whatever
    follows the field. *)
Theorem X13_skipStatus_skips_one_field (f : wireField) (rest : list Z) (fuel : nat) :
  wellFormed f = true ->
  Z.of_nat (length (fieldBytes f ++ rest)) < 2 ^ 62 ->
  2 * Z.of_nat (length (fieldBytes f ++ rest)) + 1 <= Z.of_nat fuel ->
  skipStatus fuel (fieldBytes f ++ rest) =
  Ret (Z.of_nat (length (fieldBytes f)), None).
Proof.
  intros Hwf Hlen Hfuel.
  pose proof (skipStatus_adequate fuel _ Hlen Hfuel) as Hnf.
  rewrite <- (skipStatus_fuel_le fuel (max fuel (fieldFuel f))) by (done || lia).
  apply skip_wellFormed; [done | lia |].
  rewrite length_app in Hlen. lia.
Qed.

Lemma X13_skipStatus_witness :
  (wellFormed field_nested = true /\
   Z.of_nat (length (fieldBytes field_nested ++ [255; 255])) < 2 ^ 62 /\
   2 * Z.of_nat (length (fieldBytes field_nested ++ [255; 255])) + 1
     <= Z.of_nat 100) /\
  skipStatus 100 (fieldBytes field_nested ++ [255; 255]) =
  Ret (Z.of_nat (length (fieldBytes field_nested)), None).
Proof.
  assert (wellFormed field_nested = true /\
          Z.of_nat (length (fieldBytes field_nested ++ [255; 255])) < 2 ^ 62 /\
          2 * Z.of_nat (length (fieldBytes field_nested ++ [255; 255])) + 1
            <= Z.of_nat 100) as H
    by (vm_compute; intuition discriminate).
  split; [exact H|].
  destruct H as (H1 & H2 & H3).
  exact (X13_skipStatus_skips_one_field field_nested [255; 255] 100 H1 H2 H3).
Defined.

(** X14.  [skipStatus] does not look for the payload of a field of fixed
    width or of a declared length: after a tag of wire type 1 or 5 it
    returns the index eight or four bytes behind the tag, and after a tag of
    wire type 2 and a length the index that many bytes behind the length,
    whatever bytes follow and also when none do; the index can lie behind
    the end of the input. *)
Theorem X14_skipStatus_does_not_check_payload (fuel : nat) (num n : Z) (rest : list Z) :
  fieldNumber num = true ->
  0 <= n < 2 ^ 62 ->
  skipStatus (S fuel) (tag num 1 ++ rest) =
    Ret (Z.of_nat (length (tag num 1)) + 8, None) /\
  skipStatus (S fuel) (tag num 5 ++ rest) =
    Ret (Z.of_nat (length (tag num 5)) + 4, None) /\
  skipStatus (S fuel) (tag num 2 ++ varint n ++ rest) =
    Ret (Z.of_nat (length (tag num 2 ++ varint n)) + n, None).
Proof.
  intros Hnum Hn.
  assert (2 ^ 62 < max_int) as Hpow by (unfold max_int; lia).
  refine (conj _ (conj _ _)).
  - destruct (tag_length num 1 Hnum ltac:(lia)) as [Htl Htb].
    pose proof (fieldNumber_tag num 1 Hnum ltac:(lia)) as Ht.
    rewrite Htl. unfold tag. rewrite skipStatus_tag by done. cbv zeta.
    rewrite tag_mod by lia. rewrite decide_False, decide_True by done.
    by rewrite int_add_no_overflow by (unfold min_int, max_int in *; lia).
  - destruct (tag_length num 5 Hnum ltac:(lia)) as [Htl Htb].
    pose proof (fieldNumber_tag num 5 Hnum ltac:(lia)) as Ht.
    rewrite Htl. unfold tag. rewrite skipStatus_tag by done. cbv zeta.
    rewrite tag_mod by lia. do 5 (rewrite decide_False by done).
    rewrite decide_True by done.
    by rewrite int_add_no_overflow by (unfold min_int, max_int in *; lia).
  - destruct (tag_length num 2 Hnum ltac:(lia)) as [Htl Htb].
    pose proof (fieldNumber_tag num 2 Hnum ltac:(lia)) as Ht.
    pose proof (varintLen_uint64 n ltac:(lia)) as Hnl.
    rewrite length_app, Nat2Z.inj_add, Htl, varint_length by lia.
    unfold tag in *. rewrite skipStatus_tag by done. cbv zeta.
    rewrite tag_mod by lia. do 2 (rewrite decide_False by done).
    rewrite decide_True by done.
    rewrite readVarint_int by (first [done | unfold max_int in *; lia]).
    cbn [mbind run_bind]. rewrite decide_False by lia.
    by rewrite int_add_no_overflow by (unfold min_int, max_int in *; lia).
Qed.

Lemma X14_skipStatus_witness :
  (fieldNumber 1 = true /\ 0 <= 1000 < 2 ^ 62) /\
  skipStatus 1 (tag 1 1 ++ []) = Ret (Z.of_nat (length (tag 1 1)) + 8, None) /\
  skipStatus 1 (tag 1 5 ++ []) = Ret (Z.of_nat (length (tag 1 5)) + 4, None) /\
  skipStatus 1 (tag 1 2 ++ varint 1000 ++ []) =
    Ret (Z.of_nat (length (tag 1 2 ++ varint 1000)) + 1000, None).
Proof.
  assert (fieldNumber 1 = true /\ 0 <= 1000 < 2 ^ 62) as H
    by (vm_compute; intuition discriminate).
  split; [exact H|].
  destruct H as (H1 & H2).
  exact (X14_skipStatus_does_not_check_payload 0 1 1000 [] H1 H2).
Defined.

(** X15.  A tag of wire type 6 or 7 is rejected with the index [0] and the
    error that names the wire type; a lone end-group tag is accepted and its
    length returned. *)
Theorem X15_skipStatus_illegal_wire_types (fuel : nat) (num : Z) (rest : list Z) :
  fieldNumber num = true ->
  skipStatus (S fuel) (tag num 6 ++ rest) =
    Ret (0, Some (Errorf "proto: illegal wireType 6")) /\
  skipStatus (S fuel) (tag num 7 ++ rest) =
    Ret (0, Some (Errorf "proto: illegal wireType 7")) /\
  skipStatus (S fuel) (tag num 4 ++ rest) =
    Ret (Z.of_nat (length (tag num 4)), None).
Proof.
  intros Hnum. refine (conj _ (conj _ _)).
  - pose proof (fieldNumber_tag num 6 Hnum ltac:(lia)) as Ht.
    unfold tag. rewrite skipStatus_tag by done. cbv zeta.
    rewrite tag_mod by lia. by do 6 (rewrite decide_False by done).
  - pose proof (fieldNumber_tag num 7 Hnum ltac:(lia)) as Ht.
    unfold tag. rewrite skipStatus_tag by done. cbv zeta.
    rewrite tag_mod by lia. by do 6 (rewrite decide_False by done).
  - destruct (tag_length num 4 Hnum ltac:(lia)) as [Htl Htb].
    pose proof (fieldNumber_tag num 4 Hnum ltac:(lia)) as Ht.
    rewrite Htl. unfold tag. rewrite skipStatus_tag by done. cbv zeta.
    rewrite tag_mod by lia. do 4 (rewrite decide_False by done).
    by rewrite decide_True by done.
Qed.

Lemma X15_skipStatus_witness :
  fieldNumber 9 = true /\
  skipStatus 1 (tag 9 6 ++ [1; 2]) =
    Ret (0, Some (Errorf "proto: illegal wireType 6")) /\
  skipStatus 1 (tag 9 7 ++ [1; 2]) =
    Ret (0, Some (Errorf "proto: illegal wireType 7")) /\
  skipStatus 1 (tag 9 4 ++ [1; 2]) = Ret (Z.of_nat (length (tag 9 4)), None).
Proof.
  assert (fieldNumber 9 = true) as H by reflexivity.
  split; [exact H | exact (X15_skipStatus_illegal_wire_types 0 9 [1; 2] H)].
Defined.

(** X16.  Input that ends inside a varint gives the index [0] and
    [io.ErrUnexpectedEOF]: in the tag, in the value of a varint field, in
    the length of a length-delimited field and in the first tag inside a
    group, also when the input ends right behind the tag.  Empty input is
    not reported as an error: the call panics with "unreachable". *)
Theorem X16_skipStatus_truncated_input (fuel : nat) (num b : Z) (bs : list Z) :
  fieldNumber num = true ->
  128 <= b ->
  Forall (fun b => 128 <= b) bs ->
  (length bs < 9)%nat ->
  skipStatus (S fuel) [] = Panic (PanicString "unreachable") /\
  skipStatus (S fuel) (b :: bs) = Ret (0, Some ErrUnexpectedEOF) /\
  skipStatus (S fuel) (tag num 0 ++ bs) = Ret (0, Some ErrUnexpectedEOF) /\
  skipStatus (S fuel) (tag num 2 ++ bs) = Ret (0, Some ErrUnexpectedEOF) /\
  skipStatus (S (S fuel)) (tag num 3 ++ bs) = Ret (0, Some ErrUnexpectedEOF).
Proof.
  intros Hnum Hb Hbs Hlen.
  refine (conj eq_refl (conj _ (conj _ (conj _ _)))).
  - cbn [skipStatus]. rewrite decide_True by (simpl; lia).
    assert (Forall (fun b => 128 <= b) (b :: bs)) as Hall by (by constructor).
    pose proof (readVarint_eof accumUint64 [] (b :: bs) 0 eq_refl Hall
                  ltac:(simpl; lia)) as Hr.
    rewrite app_nil_l in Hr. by rewrite Hr.
  - pose proof (fieldNumber_tag num 0 Hnum ltac:(lia)) as Ht.
    destruct (tag_length num 0 Hnum ltac:(lia)) as [Htl Htb].
    unfold tag in *. rewrite skipStatus_tag by done. cbv zeta.
    rewrite tag_mod by lia. rewrite decide_True by done.
    by rewrite readVarint_eof by (done || lia).
  - pose proof (fieldNumber_tag num 2 Hnum ltac:(lia)) as Ht.
    destruct (tag_length num 2 Hnum ltac:(lia)) as [Htl Htb].
    unfold tag in *. rewrite skipStatus_tag by done. cbv zeta.
    rewrite tag_mod by lia. do 2 (rewrite decide_False by done).
    rewrite decide_True by done.
    by rewrite readVarint_eof by (done || lia).
  - pose proof (fieldNumber_tag num 3 Hnum ltac:(lia)) as Ht.
    destruct (tag_length num 3 Hnum ltac:(lia)) as [Htl Htb].
    unfold tag in *. rewrite skipStatus_tag by done. cbv zeta.
    rewrite tag_mod by lia. do 3 (rewrite decide_False by done).
    rewrite decide_True by done. cbn [skipGroup].
    by rewrite readVarint_eof by (done || lia).
Qed.

Lemma X16_skipStatus_witness :
  (fieldNumber 1 = true /\ 128 <= 200 /\
   Forall (fun b => 128 <= b) [129; 255] /\ (length [129; 255] < 9)%nat) /\
  skipStatus 1 [] = Panic (PanicString "unreachable") /\
  skipStatus 1 [200; 129; 255] = Ret (0, Some ErrUnexpectedEOF) /\
  skipStatus 1 (tag 1 0 ++ [129; 255]) = Ret (0, Some ErrUnexpectedEOF) /\
  skipStatus 1 (tag 1 2 ++ [129; 255]) = Ret (0, Some ErrUnexpectedEOF) /\
  skipStatus 2 (tag 1 3 ++ [129; 255]) = Ret (0, Some ErrUnexpectedEOF).
Proof.
  assert (fieldNumber 1 = true /\ 128 <= 200 /\
          Forall (fun b => 128 <= b) [129; 255] /\ (length [129; 255] < 9)%nat)
    as H.
  { refine (conj eq_refl (conj _ (conj _ _))); [lia | | simpl; lia].
    repeat constructor; lia. }
  split; [exact H|].
  destruct H as (H1 & H2 & H3 & H4).
  exact (X16_skipStatus_truncated_input 0 1 200 [129; 255] H1 H2 H3 H4).
Defined.

(** X17.  A varint of ten bytes that all have their high bit set gives the
    index [0] and [ErrIntOverflowStatus], whatever follows: in the tag, in
    the value of a varint field, in the length of a length-delimited field
    and in the first tag inside a group. *)
Theorem X17_skipStatus_overlong_varint (fuel : nat) (num : Z) (bs rest : list Z) :
  fieldNumber num = true ->
  Forall (fun b => 128 <= b) bs ->
  length bs = 10%nat ->
  skipStatus (S fuel) (bs ++ rest) = Ret (0, Some ErrIntOverflowStatus) /\
  skipStatus (S fuel) (tag num 0 ++ bs ++ rest) = Ret (0, Some ErrIntOverflowStatus) /\
  skipStatus (S fuel) (tag num 2 ++ bs ++ rest) = Ret (0, Some ErrIntOverflowStatus) /\
  skipStatus (S (S fuel)) (tag num 3 ++ bs ++ rest) =
    Ret (0, Some ErrIntOverflowStatus).
Proof.
  intros Hnum Hbs Hlen.
  refine (conj _ (conj _ (conj _ _))).
  - cbn [skipStatus]. rewrite decide_True by (rewrite length_app; lia).
    pose proof (readVarint_overflow accumUint64 [] bs rest 0 eq_refl Hbs Hlen) as Hr.
    rewrite app_nil_l in Hr. by rewrite Hr.
  - pose proof (fieldNumber_tag num 0 Hnum ltac:(lia)) as Ht.
    destruct (tag_length num 0 Hnum ltac:(lia)) as [Htl Htb].
    unfold tag in *. rewrite skipStatus_tag by done. cbv zeta.
    rewrite tag_mod by lia. rewrite decide_True by done.
    by rewrite readVarint_overflow by (done || lia).
  - pose proof (fieldNumber_tag num 2 Hnum ltac:(lia)) as Ht.
    destruct (tag_length num 2 Hnum ltac:(lia)) as [Htl Htb].
    unfold tag in *. rewrite skipStatus_tag by done. cbv zeta.
    rewrite tag_mod by lia. do 2 (rewrite decide_False by done).
    rewrite decide_True by done.
    by rewrite readVarint_overflow by (done || lia).
  - pose proof (fieldNumber_tag num 3 Hnum ltac:(lia)) as Ht.
    destruct (tag_length num 3 Hnum ltac:(lia)) as [Htl Htb].
    unfold tag in *. rewrite skipStatus_tag by done. cbv zeta.
    rewrite tag_mod by lia. do 3 (rewrite decide_False by done).
    rewrite decide_True by done. cbn [skipGroup].
    by rewrite readVarint_overflow by (done || lia).
Qed.

Lemma X17_skipStatus_witness :
  (fieldNumber 1 = true /\
   Forall (fun b => 128 <= b) (replicate 10 255) /\
   length (replicate 10 255) = 10%nat) /\
  skipStatus 1 (replicate 10 255 ++ [1]) = Ret (0, Some ErrIntOverflowStatus) /\
  skipStatus 1 (tag 1 0 ++ replicate 10 255 ++ [1]) =
    Ret (0, Some ErrIntOverflowStatus) /\
  skipStatus 1 (tag 1 2 ++ replicate 10 255 ++ [1]) =
    Ret (0, Some ErrIntOverflowStatus) /\
  skipStatus 2 (tag 1 3 ++ replicate 10 255 ++ [1]) =
    Ret (0, Some ErrIntOverflowStatus).
Proof.
  assert (fieldNumber 1 = true /\
          Forall (fun b => 128 <= b) (replicate 10 255) /\
          length (replicate 10 255) = 10%nat) as H.
  { refine (conj eq_refl (conj _ eq_refl)). repeat constructor; lia. }
  split; [exact H|].
  destruct H as (H1 & H2 & H3).
  exact (X17_skipStatus_overlong_varint 0 1 (replicate 10 255) [1] H1 H2 H3).
Defined.

(** X18.  [skipStatus] always comes to an end: on every input with less
    than [2^62] bytes, twice the length and one calls and passes through the
    group loop are enough, so the call returns or panics, and a larger bound
    gives the same outcome. *)
Theorem X18_skipStatus_terminates (dAtA : list Z) (fuel : nat) :
  Z.of_nat (length dAtA) < 2 ^ 62 ->
  (2 * length dAtA + 1 <= fuel)%nat ->
  skipStatus fuel dAtA <> OutOfFuel /\
  skipStatus fuel dAtA = skipStatus (2 * length dAtA + 1) dAtA.
Proof.
  intros Hlen Hfuel.
  assert (skipStatus (2 * length dAtA + 1) dAtA <> OutOfFuel) as Hnf
    by (apply skipStatus_adequate; [done | lia]).
  rewrite (skipStatus_fuel_le _ _ _ Hfuel Hnf). done.
Qed.

Lemma X18_skipStatus_witness :
  (Z.of_nat (length (fieldBytes field_nested)) < 2 ^ 62 /\
   (2 * length (fieldBytes field_nested) + 1 <= 1000)%nat) /\
  skipStatus 1000 (fieldBytes field_nested) <> OutOfFuel /\
  skipStatus 1000 (fieldBytes field_nested) =
  skipStatus (2 * length (fieldBytes field_nested) + 1) (fieldBytes field_nested).
Proof.
  assert (Z.of_nat (length (fieldBytes field_nested)) < 2 ^ 62 /\
          (2 * length (fieldBytes field_nested) + 1 <= 1000)%nat) as H
    by (split; [by vm_compute | vm_compute; lia]).
  split; [exact H|].
  destruct H as (H1 & H2).
  exact (X18_skipStatus_terminates (fieldBytes field_nested) 1000 H1 H2).
Defined.

(** An error comes with the index [0]. *)
Lemma skip_error_index fuel :
  (forall dAtA n err, skipStatus fuel dAtA = Ret (n, Some err) -> n = 0) /\
  (forall dAtA iNdEx n err, skipGroup fuel dAtA iNdEx = Ret (n, Some err) -> n = 0).
Proof.
  induction fuel as [|fuel [IHs IHg]]; [by split|]. split.
  - intros dAtA n err. cbn [skipStatus].
    destruct (decide (0 < Z.of_nat (length dAtA))); [|done].
    destruct (readVarint accumUint64 dAtA 0) as [[[wire i]|e]|pv|];
      cbn [mbind run_bind]; [ | by intros [= <- _] | done | done].
    repeat case_decide; try by intros [= <- _].
    + destruct (readVarint accumNone dAtA i) as [[[a i']|e]|pv|];
        cbn [mbind run_bind]; by intros [= <- _] || done.
    + destruct (readVarint accumInt dAtA i) as [[[a i']|e]|pv|];
        cbn [mbind run_bind]; [ | by intros [= <- _] | done | done].
      case_decide; by intros [= <- _].
    + apply IHg.
  - intros dAtA i n err. cbn [skipGroup].
    destruct (readVarint accumUint64 dAtA i) as [[[wire i']|e]|pv|];
      cbn [mbind run_bind]; [ | by intros [= <- _] | done | done].
    case_decide; [done|].
    destruct (skipStatus fuel (drop (Z.to_nat i) dAtA)) as [[next [e|]]|pv|];
      cbn [mbind run_bind]; [by intros [= <- _] | apply IHg | done | done].
Qed.

(** X19.  An index [skipStatus] returns without error is never [0]: it is
    at least [1], or it is negative (below [-2^62]) because a declared
    length overflowed it; with an error the index is [0]. *)
Theorem X19_skipStatus_makes_progress (dAtA : list Z) (fuel : nat) (n : Z)
    (err : option error) :
  Z.of_nat (length dAtA) < 2 ^ 62 ->
  (2 * length dAtA + 1 <= fuel)%nat ->
  skipStatus fuel dAtA = Ret (n, err) ->
  match err with
  | None => 1 <= n <= max_int \/ min_int <= n < - 2 ^ 62
  | Some _ => n = 0
  end.
Proof.
  intros Hlen Hfuel Hr. destruct err as [err|].
  - by apply (proj1 (skip_error_index fuel)) in Hr.
  - destruct (skip_adequate fuel) as [Hs _].
    destruct (Hs dAtA Hlen ltac:(lia)) as [_ Hret].
    apply Hret in Hr. lia.
Qed.

Lemma X19_skipStatus_witness :
  (Z.of_nat (length [8; 1]) < 2 ^ 62 /\ (2 * length [8; 1] + 1 <= 5)%nat /\
   skipStatus 5 [8; 1] = Ret (2, None)) /\
  (1 <= 2 <= max_int \/ min_int <= 2 < - 2 ^ 62).
Proof.
  assert (Z.of_nat (length [8; 1]) < 2 ^ 62 /\ (2 * length [8; 1] + 1 <= 5)%nat /\
          skipStatus 5 [8; 1] = Ret (2, None)) as H
    by (refine (conj _ (conj _ _)); [by vm_compute | vm_compute; lia | by vm_compute]).
  split; [exact H|].
  destruct H as (H1 & H2 & H3).
  exact (X19_skipStatus_makes_progress [8; 1] 5 2 None H1 H2 H3).
Defined.

Lemma varintLen_huge n : 2 ^ 62 <= n < 2 ^ 63 -> varintLen n = 9.
Proof.
  intros Hn. unfold varintLen.
  by rewrite (Z.log2_unique n 62) by lia.
Qed.

(** X20.  A declared length next to the largest [int] overflows the index:
    [skipStatus] then returns a negative index and no error, and when the
    field is inside a group the group loop uses that index and the call
    panics with the index error of the runtime. *)
Theorem X20_skipStatus_length_overflow (fuel : nat) (num num' n : Z) (rest : list Z) :
  fieldNumber num = true ->
  fieldNumber num' = true ->
  2 ^ 63 - 10 <= n < 2 ^ 63 ->
  (exists i, skipStatus (S fuel) (tag num' 2 ++ varint n ++ rest) = Ret (i, None) /\
             i < 0) /\
  skipStatus (S (S (S fuel))) (tag num 3 ++ tag num' 2 ++ varint n ++ rest) =
    Panic (RuntimeError IndexOutOfRange).
Proof.
  intros Hnum Hnum' Hn.
  destruct (tag_length num 3 Hnum ltac:(lia)) as [Htl Htb].
  destruct (tag_length num' 2 Hnum' ltac:(lia)) as [Htl' Htb'].
  pose proof (fieldNumber_tag num 3 Hnum ltac:(lia)) as Ht.
  pose proof (fieldNumber_tag num' 2 Hnum' ltac:(lia)) as Ht'.
  pose proof (varintLen_huge n ltac:(lia)) as Hn9.
  unfold tag in *.
  assert (forall fuel rest,
            skipStatus (S fuel) (varint (8 * num' + 2) ++ varint n ++ rest) =
            Ret (varintLen (8 * num' + 2) + 9 + n - 2 ^ 64, None)) as Hinner.
  { intros fuel0 rest0. rewrite skipStatus_tag by done. cbv zeta.
    rewrite tag_mod by lia. do 2 (rewrite decide_False by done).
    rewrite decide_True by done.
    rewrite readVarint_int by (first [lia | done | unfold max_int in *; lia]).
    cbn [mbind run_bind]. rewrite decide_False by lia.
    unfold int_add. rewrite Hn9, wrap_overflow by (unfold max_int; lia). done. }
  split.
  - eexists. split; [apply Hinner | lia].
  - rewrite skipStatus_tag by done. cbv zeta.
    rewrite tag_mod by lia. do 3 (rewrite decide_False by done).
    rewrite decide_True by done. cbn [skipGroup].
    rewrite readVarint_uint64 by (first [done | lia | unfold max_int; lia]).
    cbn [mbind run_bind]. rewrite wireType_mod, tag_mod by lia.
    rewrite decide_False by done.
    rewrite drop_length_app by done.
    rewrite Hinner. cbn [mbind run_bind].
    apply skipGroup_negative.
    rewrite int_add_no_overflow; unfold min_int, max_int; lia.
Qed.

Lemma X20_skipStatus_witness :
  (fieldNumber 1 = true /\ fieldNumber 2 = true /\
   2 ^ 63 - 10 <= 2 ^ 63 - 1 < 2 ^ 63) /\
  (exists i, skipStatus 1 (tag 2 2 ++ varint (2 ^ 63 - 1) ++ []) = Ret (i, None) /\
             i < 0) /\
  skipStatus 3 (tag 1 3 ++ tag 2 2 ++ varint (2 ^ 63 - 1) ++ []) =
    Panic (RuntimeError IndexOutOfRange).
Proof.
  assert (fieldNumber 1 = true /\ fieldNumber 2 = true /\
          2 ^ 63 - 10 <= 2 ^ 63 - 1 < 2 ^ 63) as H
    by (refine (conj eq_refl (conj eq_refl _)); lia).
  split; [exact H|].
  destruct H as (H1 & H2 & H3).
  exact (X20_skipStatus_length_overflow 0 1 2 (2 ^ 63 - 1) [] H1 H2 H3).
Defined.

(** ** The wire form of a store status: what is written *)

Lemma written_length w dAtA :
  (length w <= length dAtA)%nat -> length (written w dAtA) = length dAtA.
Proof. intros Hw. unfold written. rewrite length_app, length_drop. lia. Qed.

Lemma written_take w dAtA : take (length w) (written w dAtA) = w.
Proof. unfold written. by rewrite take_app_length. Qed.

Lemma written_drop w dAtA n :
  drop (length w + n) (written w dAtA) = drop (length w + n) dAtA.
Proof.
  unfold written. rewrite drop_app_add, drop_drop. done.
Qed.

Lemma written_app w new dAtA :
  w ++ new ++ drop (length w + length new) dAtA = written (w ++ new) dAtA.
Proof. unfold written. by rewrite <- app_assoc, length_app. Qed.

Lemma written_setByte w dAtA b :
  Z.of_nat (length w) < Z.of_nat (length dAtA) ->
  setByte (written w dAtA) (Z.of_nat (length w)) b = Ret (written (w ++ [b]) dAtA).
Proof.
  intros Hw. unfold setByte.
  rewrite decide_True by (rewrite written_length; lia).
  f_equal. rewrite Nat2Z.id. unfold written.
  destruct (lookup_lt_is_Some_2 dAtA (length w) ltac:(lia)) as [x Hx].
  rewrite (drop_S _ _ _ Hx).
  replace (length w) with (length w + 0)%nat at 1 by lia.
  rewrite insert_app_r. simpl.
  rewrite <- app_assoc, length_app. simpl.
  by replace (length w + 1)%nat with (S (length w)) by lia.
Qed.

Lemma written_encodeVarintStatus w dAtA v :
  0 <= v < 2 ^ 64 ->
  Z.of_nat (length w) + varintLen v <= Z.of_nat (length dAtA) ->
  Z.of_nat (length dAtA) <= max_int ->
  encodeVarintStatus (written w dAtA) (Z.of_nat (length w)) v =
  Ret (written (w ++ varint v) dAtA, Z.of_nat (length (w ++ varint v))).
Proof.
  intros Hv Hroom Hmax.
  pose proof (varintLen_uint64 v Hv) as Hlen.
  pose proof (varint_length v Hv) as Hvl.
  unfold encodeVarintStatus.
  rewrite encodeVarintStatus_loop_Ret;
    [ | lia | by apply varintLen_fuel | lia
      | rewrite written_length; lia | rewrite written_length; lia].
  fold (varint v). rewrite Nat2Z.id, written_take.
  replace (Z.to_nat (Z.of_nat (length w) + varintLen v))
    with (length w + length (varint v))%nat by lia.
  rewrite written_drop, written_app.
  rewrite length_app. do 2 f_equal. lia.
Qed.

Lemma written_sliceFrom w dAtA :
  (length w <= length dAtA)%nat ->
  sliceFrom (written w dAtA) (Z.of_nat (length w)) = Ret (drop (length w) dAtA).
Proof.
  intros Hw. unfold sliceFrom.
  rewrite decide_True by (rewrite written_length; lia).
  rewrite Nat2Z.id. unfold written. by rewrite drop_app_length.
Qed.

Lemma bytesOf_length k : length (bytesOf k) = String.length k.
Proof.
  unfold bytesOf. rewrite length_fmap.
  induction k as [|c k IH]; simpl; [done | by rewrite IH].
Qed.

Lemma written_copyString w dAtA k :
  Z.of_nat (length w) + lenString k <= Z.of_nat (length dAtA) ->
  copyString (written w dAtA) (Z.of_nat (length w)) k =
  Ret (written (w ++ bytesOf k) dAtA, lenString k).
Proof.
  unfold lenString. intros Hroom. unfold copyString.
  rewrite written_sliceFrom by lia. cbn [mbind run_bind].
  rewrite length_drop.
  replace (Nat.min (length dAtA - length w) (String.length k))
    with (String.length k) by lia.
  rewrite Nat2Z.id, written_take.
  rewrite take_ge by (rewrite bytesOf_length; lia).
  rewrite drop_drop.
  rewrite <- (bytesOf_length k) at 1. by rewrite written_app.
Qed.

Lemma le64_PutUint64 v : 
  [uint8 v; uint8 (Z.shiftr v 8); uint8 (Z.shiftr v 16);
   uint8 (Z.shiftr v 24); uint8 (Z.shiftr v 32);
   uint8 (Z.shiftr v 40); uint8 (Z.shiftr v 48);
   uint8 (Z.shiftr v 56)] = le64 v.
Proof. reflexivity. Qed.

Lemma le64_length v : length (le64 v) = 8%nat.
Proof. reflexivity. Qed.

Lemma PutUint64_Ret b v :
  8 <= Z.of_nat (length b) -> PutUint64 b v = Ret (le64 v ++ drop 8 b).
Proof. intros Hb. unfold PutUint64. by rewrite decide_True by lia. Qed.

Lemma written_put w dAtA v :
  take (Z.to_nat (Z.of_nat (length w))) (written w dAtA)
    ++ le64 v ++ drop 8 (drop (length w) dAtA) =
  written (w ++ le64 v) dAtA.
Proof.
  rewrite Nat2Z.id, written_take, drop_drop. apply written_app.
Qed.

Lemma run_bind_Ret {A B} (a : A) (k : A -> run B) : (Ret a ≫= k) = k a.
Proof. reflexivity. Qed.

(** A call that returned: the rest of the body goes on with its result. *)
Ltac run_step := rewrite run_bind_Ret; cbv beta iota zeta.

(** Additions on [int] that stay in range. *)
Ltac int_add_in_range :=
  repeat match goal with
         | |- context [int_add ?a ?b] =>
             rewrite (int_add_no_overflow a b)
               by (unfold min_int, max_int in *; lia)
         end.

Lemma int_add_length (w new : list Z) :
  Z.of_nat (length (w ++ new)) <= max_int ->
  int_add (Z.of_nat (length w)) (Z.of_nat (length new)) = Z.of_nat (length (w ++ new)).
Proof.
  intros Hmax. rewrite length_app in *.
  rewrite int_add_no_overflow by (unfold min_int, max_int in *; lia). lia.
Qed.

Lemma app_assoc_7 {A} (w a b c d e f g : list A) :
  ((((((w ++ a) ++ b) ++ c) ++ d) ++ e) ++ f) ++ g =
  w ++ a ++ b ++ c ++ d ++ e ++ f ++ g.
Proof. by rewrite <- !app_assoc. Qed.

Lemma int_add_length_1 (w : list Z) (b : Z) :
  Z.of_nat (length (w ++ [b])) <= max_int ->
  int_add (Z.of_nat (length w)) 1 = Z.of_nat (length (w ++ [b])).
Proof. apply (int_add_length w [b]). Qed.

Lemma int_add_length_8 (w : list Z) (v : Z) :
  Z.of_nat (length (w ++ le64 v)) <= max_int ->
  int_add (Z.of_nat (length w)) 8 = Z.of_nat (length (w ++ le64 v)).
Proof. apply (int_add_length w (le64 v)). Qed.

Lemma lenString_bytesOf k : lenString k = Z.of_nat (length (bytesOf k)).
Proof. unfold lenString. by rewrite bytesOf_length. Qed.

Lemma int_add_length_bytesOf (w : list Z) (k : string) :
  Z.of_nat (length (w ++ bytesOf k)) <= max_int ->
  int_add (Z.of_nat (length w)) (lenString k) = Z.of_nat (length (w ++ bytesOf k)).
Proof. rewrite lenString_bytesOf. apply int_add_length. Qed.

Lemma entrySize_bounds k :
  lenString k < 2 ^ 62 -> 11 <= entrySize k <= lenString k + 20.
Proof.
  intros Hk. unfold entrySize.
  assert (0 <= lenString k) by (unfold lenString; lia).
  pose proof (varintLen_uint64 (lenString k) ltac:(lia)). lia.
Qed.

Lemma mapEntrySize_entrySize k :
  lenString k < 2 ^ 62 -> mapEntrySize k = Ret (entrySize k).
Proof.
  intros Hk. unfold mapEntrySize, entrySize.
  assert (0 <= lenString k) by (unfold lenString; lia).
  pose proof (varintLen_uint64 (lenString k) ltac:(lia)).
  rewrite uint64_small by lia. rewrite sovStatus_varintLen by lia.
  cbn [mbind run_bind]. by int_add_in_range.
Qed.

Lemma entryBytes_length k v :
  lenString k < 2 ^ 62 ->
  Z.of_nat (length (entryBytes k v)) = 1 + varintLen (entrySize k) + entrySize k.
Proof.
  intros Hk. pose proof (entrySize_bounds k Hk).
  assert (0 <= lenString k) by (unfold lenString; lia).
  unfold entryBytes. rewrite !length_app, !Nat2Z.inj_add.
  rewrite !varint_length by lia. rewrite <- lenString_bytesOf.
  simpl length. unfold entrySize. lia.
Qed.

Lemma mapSize_entrySize k :
  lenString k < 2 ^ 62 ->
  int_add (int_add (int_add (int_add 1 (lenString k)) (varintLen (lenString k))) 1) 8
  = entrySize k.
Proof.
  intros Hk. unfold entrySize.
  assert (0 <= lenString k) by (unfold lenString; lia).
  pose proof (varintLen_uint64 (lenString k) ltac:(lia)).
  by int_add_in_range.
Qed.

(** One pass of the loop of [MarshalTo] writes one entry. *)
Lemma MarshalTo_loop_written metrics keys : forall w dAtA,
  Z.of_nat (length w)
    + Z.of_nat (length (concat ((fun k => entryBytes k (mapIndex metrics k)) <$> keys)))
    <= Z.of_nat (length dAtA) ->
  Z.of_nat (length dAtA) < 2 ^ 62 ->
  Forall (fun k => isFloat64 (mapIndex metrics k)) keys ->
  StoreStatus_MarshalTo_loop metrics keys (written w dAtA) (Z.of_nat (length w)) =
  Ret (written (w ++ concat ((fun k => entryBytes k (mapIndex metrics k)) <$> keys)) dAtA,
       Z.of_nat (length (w ++ concat ((fun k => entryBytes k (mapIndex metrics k)) <$> keys)))).
Proof.
  assert (2 ^ 62 < max_int) as Hpow by (unfold max_int; lia).
  induction keys as [|k keys IH]; intros w dAtA Hroom Hlen Hvals.
  { simpl. by rewrite app_nil_r. }
  inversion Hvals as [|? ? Hv Hvals']; subst.
  cbn [fmap list_fmap concat] in *.
  rewrite length_app, Nat2Z.inj_add in Hroom.
  assert (lenString k < 2 ^ 62) as Hk.
  { unfold entryBytes in Hroom. rewrite !length_app, !Nat2Z.inj_add in Hroom.
    rewrite <- lenString_bytesOf in Hroom. lia. }
  pose proof (entryBytes_length k (mapIndex metrics k) Hk) as Hel.
  pose proof (entrySize_bounds k Hk) as Hes.
  assert (0 <= lenString k) as Hk0 by (unfold lenString; lia).
  pose proof (varintLen_uint64 (lenString k) ltac:(lia)) as Hkl.
  pose proof (varintLen_uint64 (entrySize k) ltac:(lia)) as Hesl.
  pose proof (varint_length (entrySize k) ltac:(lia)) as Hvl1.
  pose proof (varint_length (lenString k) ltac:(lia)) as Hvl2.
  pose proof (lenString_bytesOf k) as Hb.
  assert (entrySize k = 1 + lenString k + varintLen (lenString k) + 1 + 8)
    as Hesdef by done.
  cbn [StoreStatus_MarshalTo_loop].
  (* the tag of the entry *)
  rewrite written_setByte by lia. run_step.
  rewrite (int_add_length_1 _ 18) by (rewrite ?length_app, ?le64_length; cbn [length]; lia).
  (* the size of the body *)
  rewrite !(uint64_small (lenString k)) by lia.
  rewrite sovStatus_varintLen by lia.
  run_step.
  rewrite (mapSize_entrySize k Hk).
  rewrite (uint64_small (entrySize k)) by lia.
  rewrite written_encodeVarintStatus;
    [ | lia | rewrite ?length_app, ?le64_length; cbn [length]; lia | lia].
  run_step.
  (* the key *)
  rewrite written_setByte by (rewrite ?length_app, ?le64_length; cbn [length]; lia).
  run_step.
  rewrite (int_add_length_1 _ 10) by (rewrite ?length_app, ?le64_length; cbn [length]; lia).
  rewrite written_encodeVarintStatus;
    [ | lia | rewrite ?length_app, ?le64_length; cbn [length]; lia | lia].
  run_step.
  rewrite written_copyString by (rewrite ?length_app, ?le64_length; cbn [length]; lia).
  run_step.
  rewrite int_add_length_bytesOf by (rewrite ?length_app, ?le64_length; cbn [length]; lia).
  (* the value *)
  rewrite written_setByte by (rewrite ?length_app, ?le64_length; cbn [length]; lia).
  run_step.
  rewrite (int_add_length_1 _ 17) by (rewrite ?length_app, ?le64_length; cbn [length]; lia).
  unfold Float64bits. rewrite (uint64_small (mapIndex metrics k)) by exact Hv.
  rewrite written_sliceFrom by (rewrite ?length_app, ?le64_length; cbn [length]; lia).
  run_step.
  rewrite PutUint64_Ret
    by (rewrite length_drop, ?length_app, ?le64_length; cbn [length]; lia).
  run_step. rewrite written_put.
  rewrite (int_add_length_8 _ (mapIndex metrics k))
    by (rewrite ?length_app, ?le64_length; cbn [length]; lia).
  assert (forall w0, w0 = w ++ entryBytes k (mapIndex metrics k) ->
            StoreStatus_MarshalTo_loop metrics keys (written w0 dAtA)
              (Z.of_nat (length w0)) =
            Ret (written (w ++ entryBytes k (mapIndex metrics k) ++
                   concat ((fun k => entryBytes k (mapIndex metrics k)) <$> keys)) dAtA,
                 Z.of_nat (length (w ++ entryBytes k (mapIndex metrics k) ++
                   concat ((fun k => entryBytes k (mapIndex metrics k)) <$> keys)))))
    as Hnext.
  { intros w0 ->. rewrite IH; [by rewrite <- !app_assoc | | done | done].
    rewrite length_app. lia. }
  apply Hnext. unfold entryBytes. apply app_assoc_7.
Qed.

Lemma entriesLen_Permutation keys keys' :
  keys ≡ₚ keys' -> entriesLen keys = entriesLen keys'.
Proof.
  induction 1 as [|k l l' _ IH|k k' l|l l' l'' _ IH1 _ IH2]; simpl; lia.
Qed.

Lemma entriesLen_nonneg keys :
  Forall (fun k => lenString k < 2 ^ 62) keys -> 0 <= entriesLen keys.
Proof.
  induction 1 as [|k keys Hk _ IH]; simpl; [lia|].
  pose proof (entrySize_bounds k Hk).
  pose proof (varintLen_uint64 (entrySize k) ltac:(lia)). lia.
Qed.

Lemma entries_length metrics keys :
  Forall (fun k => lenString k < 2 ^ 62) keys ->
  Z.of_nat (length (concat ((fun k => entryBytes k (mapIndex metrics k)) <$> keys)))
  = entriesLen keys.
Proof.
  induction 1 as [|k keys Hk _ IH]; [done|].
  cbn [fmap list_fmap concat entriesLen foldr].
  rewrite length_app, Nat2Z.inj_add, entryBytes_length by done.
  fold (entriesLen keys). rewrite <- IH. done.
Qed.

(** Keys whose entries fit a slice are short. *)
Lemma entries_keys_short metrics keys :
  Z.of_nat (length (concat ((fun k => entryBytes k (mapIndex metrics k)) <$> keys)))
    < 2 ^ 62 ->
  Forall (fun k => lenString k < 2 ^ 62) keys.
Proof.
  induction keys as [|k keys IH]; [constructor|].
  cbn [fmap list_fmap concat]. rewrite length_app, Nat2Z.inj_add. intros Hlen.
  constructor; [|apply IH; lia].
  unfold entryBytes in Hlen. rewrite !length_app, !Nat2Z.inj_add in Hlen.
  rewrite <- lenString_bytesOf in Hlen. lia.
Qed.

(** The loop of [Size] adds the length of every entry. *)
Lemma Size_loop_entriesLen kvs : forall n,
  Forall (fun k => lenString k < 2 ^ 62) kvs.*1 ->
  0 <= n -> n + entriesLen kvs.*1 < 2 ^ 62 ->
  StoreStatus_Size_loop kvs n = Ret (n + entriesLen kvs.*1).
Proof.
  induction kvs as [|[k v] kvs IH]; intros n Hks Hn Hmax.
  { simpl. by rewrite Z.add_0_r. }
  cbn [fmap list_fmap fst entriesLen foldr] in *.
  fold (entriesLen kvs.*1) in *.
  inversion Hks as [|? ? Hk Hks']; subst.
  pose proof (entrySize_bounds k Hk) as Hes.
  pose proof (varintLen_uint64 (entrySize k) ltac:(lia)) as Hesl.
  pose proof (entriesLen_nonneg _ Hks') as Hrest.
  cbn [StoreStatus_Size_loop].
  rewrite mapEntrySize_entrySize by done. run_step.
  rewrite uint64_small by lia. rewrite sovStatus_varintLen by lia. run_step.
  rewrite (int_add_no_overflow (entrySize k) 1)
    by (unfold min_int, max_int; lia).
  rewrite (int_add_no_overflow (entrySize k + 1))
    by (unfold min_int, max_int; lia).
  rewrite (int_add_no_overflow n)
    by (unfold min_int, max_int; lia).
  rewrite IH; [f_equal; lia | done | lia | lia].
Qed.

Lemma sortStrings_Permutation keys : sortStrings keys ≡ₚ keys.
Proof. apply merge_sort_Permutation. Qed.

Lemma lenMap_mapRange metrics : lenMap metrics = Z.of_nat (length (mapRange metrics)).
Proof.
  destruct metrics as [metrics|]; [|done]. simpl.
  by rewrite length_map_to_list.
Qed.

Lemma mapIndex_mapRange metrics k v :
  (k, v) ∈ mapRange metrics -> mapIndex metrics k = v.
Proof.
  unfold mapIndex, mapRange.
  destruct metrics as [metrics|]; [|by intros ?%elem_of_nil].
  intros Hkv%elem_of_map_to_list. by rewrite Hkv.
Qed.

Lemma float64Values_keys metrics :
  float64Values metrics ->
  Forall (fun k => isFloat64 (mapIndex metrics k)) (sortStrings (mapRange metrics).*1).
Proof.
  intros Hvals. apply Forall_forall. intros k Hk.
  rewrite sortStrings_Permutation in Hk.
  apply list_elem_of_fmap in Hk as ([k' v] & -> & Hkv). simpl.
  rewrite (mapIndex_mapRange _ _ _ Hkv). by apply (Hvals k' v).
Qed.

Lemma written_nil dAtA : written [] dAtA = dAtA.
Proof. reflexivity. Qed.

Lemma metricsBytes_empty metrics : lenMap metrics <= 0 -> metricsBytes metrics = [].
Proof.
  rewrite lenMap_mapRange. intros Hlen. unfold metricsBytes.
  destruct (mapRange metrics) as [|kv kvs]; [|simpl in Hlen; lia].
  assert (sortStrings ([] : list (string * Z)).*1 = []) as ->; [|done].
  apply Permutation_nil_r. apply sortStrings_Permutation.
Qed.

Lemma metricsBytes_length metrics :
  Z.of_nat (length (metricsBytes metrics)) < 2 ^ 62 ->
  Z.of_nat (length (metricsBytes metrics)) = entriesLen (mapRange metrics).*1 /\
  Forall (fun k => lenString k < 2 ^ 62) (mapRange metrics).*1.
Proof.
  intros Hlen. unfold metricsBytes in *.
  pose proof (entries_keys_short _ _ Hlen) as Hshort.
  rewrite entries_length by done.
  split.
  - apply entriesLen_Permutation, sortStrings_Permutation.
  - by rewrite sortStrings_Permutation in Hshort.
Qed.

(** [Size] is the length of the wire form. *)
Lemma StoreStatus_Size_storeStatusBytes {D} `{!Message D} (m : StoreStatus D) desc :
  Size (Desc m) = Z.of_nat (length desc) ->
  Z.of_nat (length (storeStatusBytes desc (Metrics m))) < 2 ^ 62 ->
  StoreStatus_Size m = Ret (Z.of_nat (length (storeStatusBytes desc (Metrics m)))).
Proof.
  intros Hsize Hlen. unfold storeStatusBytes in *.
  rewrite !length_app, !Nat2Z.inj_add in *. cbn [length] in *.
  pose proof (varintLen_uint64 (Z.of_nat (length desc)) ltac:(lia)) as Hdl.
  rewrite varint_length in * by lia.
  destruct (metricsBytes_length (Metrics m) ltac:(lia)) as [Hml Hshort].
  pose proof (entriesLen_nonneg _ Hshort) as Hnn.
  unfold StoreStatus_Size. rewrite Hsize.
  rewrite uint64_small by lia. rewrite sovStatus_varintLen by lia. run_step.
  rewrite (int_add_no_overflow 1) by (unfold min_int, max_int; lia).
  rewrite (int_add_no_overflow (1 + _)) by (unfold min_int, max_int; lia).
  rewrite (int_add_no_overflow 0) by (unfold min_int, max_int; lia).
  destruct (decide (lenMap (Metrics m) > 0)) as [Hpos|Hzero].
  - rewrite Size_loop_entriesLen; [f_equal; lia | done | lia | lia].
  - rewrite metricsBytes_empty in * by lia. simpl length in *. f_equal. lia.
Qed.

(** [MarshalTo] writes the wire form at the start of the slice. *)
Lemma StoreStatus_MarshalTo_storeStatusBytes {D} `{!Message D} (m : StoreStatus D)
    desc dAtA :
  descriptorBytes (Desc m) desc ->
  float64Values (Metrics m) ->
  (length (storeStatusBytes desc (Metrics m)) <= length dAtA)%nat ->
  Z.of_nat (length dAtA) < 2 ^ 62 ->
  StoreStatus_MarshalTo m dAtA =
  Ret (written (storeStatusBytes desc (Metrics m)) dAtA,
       (Z.of_nat (length (storeStatusBytes desc (Metrics m))), None)).
Proof.
  intros [Hsize Hdesc] Hvals Hroom Hlen.
  assert (2 ^ 62 < max_int) as Hpow by (unfold max_int; lia).
  unfold storeStatusBytes in *.
  rewrite !length_app in Hroom. cbn [length] in Hroom.
  pose proof (varintLen_uint64 (Z.of_nat (length desc)) ltac:(lia)) as Hdl.
  pose proof (varint_length (Z.of_nat (length desc)) ltac:(lia)) as Hvl.
  unfold StoreStatus_MarshalTo.
  rewrite <- (written_nil dAtA) at 1.
  change 0 with (Z.of_nat (length (@nil Z))) at 1.
  rewrite written_setByte by (simpl; lia). run_step. cbn [app].
  rewrite (int_add_no_overflow 0 1) by (unfold min_int, max_int; lia).
  change (0 + 1) with (Z.of_nat (length [10])).
  rewrite Hsize. rewrite uint64_small by lia.
  rewrite written_encodeVarintStatus; [ | lia | simpl length; lia | lia].
  run_step.
  rewrite written_sliceFrom by (rewrite ?length_app; cbn [length]; lia).
  run_step.
  rewrite Hdesc by (rewrite length_drop, ?length_app; cbn [length]; lia).
  run_step.
  rewrite Nat2Z.id, written_take, drop_drop, written_app.
  rewrite int_add_length by (rewrite ?length_app; cbn [length]; lia).
  destruct (decide (lenMap (Metrics m) > 0)) as [Hpos|Hzero].
  - rewrite MarshalTo_loop_written;
      [ | fold (metricsBytes (Metrics m)); rewrite ?length_app; cbn [length]; lia
        | done | by apply float64Values_keys].
    run_step. fold (metricsBytes (Metrics m)).
    by rewrite <- !app_assoc.
  - rewrite (metricsBytes_empty (Metrics m)) by lia.
    rewrite !app_nil_r. by rewrite <- !app_assoc.
Qed.

(** [Marshal] returns the wire form. *)
Lemma StoreStatus_Marshal_storeStatusBytes {D} `{!Message D} (m : StoreStatus D) desc :
  descriptorBytes (Desc m) desc ->
  float64Values (Metrics m) ->
  Z.of_nat (length (storeStatusBytes desc (Metrics m))) < 2 ^ 62 ->
  StoreStatus_Marshal m = Ret (Some (storeStatusBytes desc (Metrics m)), None).
Proof.
  intros Hdesc Hvals Hlen. unfold StoreStatus_Marshal.
  rewrite (StoreStatus_Size_storeStatusBytes m desc) by (done || apply Hdesc).
  run_step. unfold make. rewrite decide_True by lia. run_step.
  rewrite Nat2Z.id.
  rewrite (StoreStatus_MarshalTo_storeStatusBytes m desc);
    [ | done | done | by rewrite length_replicate | rewrite length_replicate; lia].
  run_step. unfold slice.
  rewrite decide_True
    by (rewrite written_length, length_replicate by (by rewrite length_replicate); lia).
  run_step. rewrite Z.sub_0_r, Nat2Z.id. change (Z.to_nat 0) with 0%nat.
  rewrite drop_0. by rewrite written_take.
Qed.

Lemma stringOf_bytesOf k : stringOf (bytesOf k) = k.
Proof.
  unfold stringOf, bytesOf. rewrite <- list_fmap_compose.
  rewrite <- (string_of_list_ascii_of_string k) at 2. f_equal.
  rewrite <- (list_fmap_id (list_ascii_of_string k)) at 2.
  apply list_fmap_ext. intros _ c _. simpl.
  by rewrite N2Z.id, ascii_N_embedding.
Qed.

Lemma bytesOf_isBytes k : isBytes (bytesOf k).
Proof.
  unfold isBytes, bytesOf. apply Forall_fmap, Forall_forall. intros c _. simpl.
  pose proof (N_ascii_bounded c). lia.
Qed.

(** One more byte of a little-endian value. *)
Lemma lor_next_byte v a b :
  0 <= a -> b = a + 8 ->
  Z.lor (v mod 2 ^ a) (Z.shiftl (Z.shiftr v a mod 2 ^ 8) a) = v mod 2 ^ b.
Proof.
  intros Ha ->. apply Z.bits_inj'. intros n Hn.
  rewrite Z.lor_spec, Z.shiftl_spec by lia.
  destruct (decide (n < a)) as [Hlow|Hhigh].
  - rewrite (Z.testbit_neg_r _ (n - a)) by lia.
    rewrite !Z.mod_pow2_bits_low by lia. by rewrite orb_false_r.
  - rewrite (Z.mod_pow2_bits_high v a n) by lia. rewrite orb_false_l.
    destruct (decide (n < a + 8)) as [Hin|Hout].
    + rewrite !Z.mod_pow2_bits_low by lia. rewrite Z.shiftr_spec by lia.
      f_equal. lia.
    + rewrite !Z.mod_pow2_bits_high by lia. done.
Qed.

Lemma le64_isBytes v : isBytes (le64 v).
Proof.
  unfold isBytes, le64. apply Forall_fmap, Forall_forall. intros k _. simpl.
  apply Z.mod_pos_bound. lia.
Qed.

(** [Uint64] reads back what [PutUint64] wrote. *)
Lemma Uint64_le64 v rest : 0 <= v < 2 ^ 64 -> Uint64 (le64 v ++ rest) = Ret v.
Proof.
  intros Hv. unfold le64. cbn [fmap list_fmap app Uint64]. f_equal.
  assert (forall a, 0 <= a <= 56 ->
            uint64 (Z.shiftl (uint64 (Z.shiftr v a mod 256)) a) =
            Z.shiftl (Z.shiftr v a mod 2 ^ 8) a) as Hbyte.
  { intros a Ha. change 256 with (2 ^ 8).
    pose proof (Z.mod_pos_bound (Z.shiftr v a) (2 ^ 8) ltac:(lia)) as Hb.
    rewrite (uint64_small (_ mod _)) by lia.
    apply uint64_small. rewrite Z.shiftl_mul_pow2 by lia.
    assert (2 ^ a <= 2 ^ 56) by (apply Z.pow_le_mono_r; lia).
    assert (0 < 2 ^ a) by (apply Z.pow_pos_nonneg; lia). nia. }
  change (8 * 0) with 0. change (8 * 1) with 8. change (8 * 2) with 16.
  change (8 * 3) with 24. change (8 * 4) with 32. change (8 * 5) with 40.
  change (8 * 6) with 48. change (8 * 7) with 56.
  rewrite !Hbyte by lia.
  rewrite Z.shiftr_0_r. rewrite (uint64_small (v mod 256))
    by (pose proof (Z.mod_pos_bound v 256 ltac:(lia)); lia).
  change 256 with (2 ^ 8).
  rewrite (lor_next_byte v 8 16) by lia. rewrite (lor_next_byte v 16 24) by lia.
  rewrite (lor_next_byte v 24 32) by lia. rewrite (lor_next_byte v 32 40) by lia.
  rewrite (lor_next_byte v 40 48) by lia. rewrite (lor_next_byte v 48 56) by lia.
  rewrite (lor_next_byte v 56 64) by lia.
  apply Z.mod_small. exact Hv.
Qed.

(** ** The wire form of a store status: what is read *)

Lemma cursor_start dAtA : cursor dAtA 0 dAtA.
Proof. by refine (conj _ (conj _ _)); [lia | lia |]. Qed.

Lemma cursor_app dAtA i a rest n :
  cursor dAtA i (a ++ rest) -> n = Z.of_nat (length a) ->
  cursor dAtA (i + n) rest.
Proof.
  intros (Hi & Hlen & Hdrop) ->. rewrite length_app in Hlen.
  refine (conj _ (conj _ _)); [lia | lia |].
  replace (Z.to_nat (i + Z.of_nat (length a)))
    with (Z.to_nat i + length a)%nat by lia.
  rewrite <- drop_drop, Hdrop. by rewrite drop_app_length.
Qed.

Lemma cursor_lt dAtA i x rest : cursor dAtA i (x :: rest) -> 0 <= i < Z.of_nat (length dAtA).
Proof. intros (Hi & Hlen & _). simpl in Hlen. lia. Qed.

Lemma cursor_end dAtA i : cursor dAtA i [] -> i = Z.of_nat (length dAtA).
Proof. intros (Hi & Hlen & _). simpl in Hlen. lia. Qed.

Lemma cursor_le dAtA i rest : cursor dAtA i rest -> 0 <= i <= Z.of_nat (length dAtA).
Proof. intros (Hi & Hlen & _). lia. Qed.

Lemma cursor_readVarint_uint64 dAtA i v rest :
  cursor dAtA i (varint v ++ rest) -> 0 <= v < 2 ^ 64 ->
  Z.of_nat (length dAtA) <= max_int ->
  readVarint accumUint64 dAtA i = Ret (Ok (v, i + varintLen v)).
Proof.
  intros (Hi & Hlen & Hdrop) Hv Hmax. unfold readVarint.
  rewrite decide_False by lia. rewrite Hdrop. unfold varint.
  rewrite length_app, Nat2Z.inj_add, (varint_length v Hv) in Hlen.
  rewrite (varintLoop_varintBytes accumUint64 (2 ^ 64));
    [ | done | apply accumUint64_spec | lia | by apply varintLen_fuel
      | lia | rewrite Z.mul_1_r; lia | lia | lia].
  by rewrite Z.shiftl_0_r, Z.lor_0_l.
Qed.

Lemma cursor_readVarint_int dAtA i v rest :
  cursor dAtA i (varint v ++ rest) -> 0 <= v < 2 ^ 63 ->
  Z.of_nat (length dAtA) <= max_int ->
  readVarint accumInt dAtA i = Ret (Ok (v, i + varintLen v)).
Proof.
  intros (Hi & Hlen & Hdrop) Hv Hmax. unfold readVarint.
  rewrite decide_False by lia. rewrite Hdrop. unfold varint.
  rewrite length_app, Nat2Z.inj_add, (varint_length v ltac:(lia)) in Hlen.
  rewrite (varintLoop_varintBytes accumInt (2 ^ 63));
    [ | done | apply accumInt_spec | lia | apply varintLen_fuel; lia
      | lia | rewrite Z.mul_1_r; lia | lia | lia].
  by rewrite Z.shiftl_0_r, Z.lor_0_l.
Qed.

Lemma cursor_slice dAtA i a rest n :
  cursor dAtA i (a ++ rest) -> n = Z.of_nat (length a) ->
  slice dAtA i (i + n) = Ret a.
Proof.
  intros (Hi & Hlen & Hdrop) ->. rewrite length_app in Hlen.
  unfold slice. rewrite decide_True by lia. rewrite Hdrop.
  replace (Z.to_nat (i + Z.of_nat (length a) - i)) with (length a) by lia.
  by rewrite take_app_length.
Qed.

Lemma cursor_sliceFrom dAtA i rest :
  cursor dAtA i rest -> sliceFrom dAtA i = Ret rest.
Proof.
  intros (Hi & Hlen & Hdrop). unfold sliceFrom.
  rewrite decide_True by lia. by rewrite Hdrop.
Qed.

Lemma varint_small v : 0 <= v < 128 -> varint v = [v].
Proof.
  intros Hv. unfold varint. cbn [varintBytes].
  rewrite decide_False; [done|]. change (2 ^ 7) with 128. lia.
Qed.

(** The passes through the loop over a map entry, on the bytes
    [MarshalTo] writes for it. *)
Lemma Unmarshal_entry_entryBody fuel dAtA i k v rest mapkey mapvalue :
  cursor dAtA i (entryBody k v ++ rest) ->
  Z.of_nat (length dAtA) < 2 ^ 62 ->
  isFloat64 v ->
  StoreStatus_Unmarshal_entry (S (S (S fuel))) dAtA i (i + entrySize k)
    mapkey mapvalue = Ret (Ok (k, v)).
Proof.
  intros Hcur Hlen Hv.
  assert (2 ^ 62 < max_int) as Hpow by (unfold max_int; lia).
  pose proof (cursor_le _ _ _ Hcur) as Hi.
  assert (0 <= lenString k) as Hk0 by (unfold lenString; lia).
  assert (Z.of_nat (length (entryBody k v)) <= Z.of_nat (length dAtA)) as Hfit
    by (destruct Hcur as (_ & Hl & _); rewrite length_app in Hl; lia).
  assert (lenString k < 2 ^ 62) as Hk.
  { unfold entryBody in Hfit. rewrite !length_app, !Nat2Z.inj_add in Hfit.
    rewrite <- lenString_bytesOf in Hfit. lia. }
  pose proof (varintLen_uint64 (lenString k) ltac:(lia)) as Hkl.
  pose proof (entrySize_bounds k Hk) as Hes.
  assert (entrySize k = 1 + lenString k + varintLen (lenString k) + 1 + 8)
    as Hesdef by done.
  unfold entryBody in Hcur. rewrite <- (varint_small 10) in Hcur by lia.
  rewrite <- (varint_small 17) in Hcur by lia.
  rewrite <- !app_assoc in Hcur.
  (* the key *)
  cbn [StoreStatus_Unmarshal_entry].
  rewrite decide_True by lia.
  rewrite (cursor_readVarint_uint64 _ _ _ _ Hcur) by lia. run_step.
  change (int32 (Z.shiftr 10 3)) with 1. rewrite decide_True by done.
  change (varintLen 10) with 1.
  pose proof (cursor_app _ _ _ _ 1 Hcur eq_refl) as Hcur1.
  rewrite (cursor_readVarint_uint64 _ _ _ _ Hcur1) by lia. run_step.
  rewrite wrap_small by (unfold min_int, max_int; lia).
  rewrite decide_False by lia.
  pose proof (cursor_app _ _ _ _ (varintLen (lenString k)) Hcur1
                ltac:(symmetry; apply varint_length; lia)) as Hcur2.
  pose proof (cursor_app _ _ _ _ (lenString k) Hcur2 (lenString_bytesOf k))
    as Hcur3.
  pose proof (cursor_le _ _ _ Hcur3) as Hi3.
  rewrite int_add_no_overflow by (unfold min_int, max_int; lia).
  rewrite decide_False by lia.
  rewrite (cursor_slice _ _ _ _ _ Hcur2 (lenString_bytesOf k)). run_step.
  rewrite stringOf_bytesOf.
  (* the value *)
  cbn [StoreStatus_Unmarshal_entry].
  rewrite decide_True by lia.
  rewrite (cursor_readVarint_uint64 _ _ _ _ Hcur3) by lia. run_step.
  change (int32 (Z.shiftr 17 3)) with 2.
  rewrite decide_False by done. rewrite decide_True by done.
  change (varintLen 17) with 1.
  pose proof (cursor_app _ _ _ _ 1 Hcur3 eq_refl) as Hcur4.
  pose proof (cursor_app _ _ _ _ 8 Hcur4 eq_refl) as Hcur5.
  pose proof (cursor_le _ _ _ Hcur5) as Hi5.
  rewrite int_add_no_overflow by (unfold min_int, max_int; lia).
  rewrite decide_False by lia.
  rewrite (cursor_sliceFrom _ _ _ Hcur4). run_step.
  rewrite Uint64_le64 by exact Hv. run_step.
  (* the end of the entry *)
  cbn [StoreStatus_Unmarshal_entry].
  rewrite decide_False by lia. done.
Qed.

Lemma entryBytes_split k v :
  entryBytes k v = varint 18 ++ varint (entrySize k) ++ entryBody k v.
Proof. reflexivity. Qed.

Lemma entryBody_length k v :
  lenString k < 2 ^ 62 -> Z.of_nat (length (entryBody k v)) = entrySize k.
Proof.
  intros Hk. assert (0 <= lenString k) by (unfold lenString; lia).
  unfold entryBody. rewrite !length_app, !Nat2Z.inj_add.
  rewrite varint_length by lia. rewrite <- lenString_bytesOf.
  cbn [length]. rewrite le64_length. unfold entrySize. lia.
Qed.

(** The loop of [Unmarshal] over the entries [MarshalTo] writes: one pass
    for each entry, then the loop goes on behind them. *)
Lemma Unmarshal_loop_entries {D} `{!Message D} metrics keys :
  forall fuel (m : StoreStatus D) dAtA i tail,
    cursor dAtA i
      (concat ((fun k => entryBytes k (mapIndex metrics k)) <$> keys) ++ tail) ->
    Z.of_nat (length dAtA) < 2 ^ 62 ->
    Forall (fun k => isFloat64 (mapIndex metrics k)) keys ->
    StoreStatus_Unmarshal_loop (length keys + fuel) m dAtA i =
    StoreStatus_Unmarshal_loop fuel (foldl (withEntry metrics) m keys) dAtA
      (i + Z.of_nat (length (concat ((fun k => entryBytes k (mapIndex metrics k))
                                       <$> keys)))).
Proof.
  assert (2 ^ 62 < max_int) as Hpow by (unfold max_int; lia).
  induction keys as [|k keys IH]; intros fuel m dAtA i tail Hcur Hlen Hvals.
  { cbn [fmap list_fmap concat foldl length]. by rewrite Z.add_0_r. }
  inversion Hvals as [|? ? Hv Hvals']; subst.
  change (length (k :: keys) + fuel)%nat with (S (length keys + fuel)).
  cbn [fmap list_fmap concat foldl] in *.
  rewrite <- app_assoc in Hcur.
  pose proof (cursor_le _ _ _ Hcur) as Hi.
  assert (Z.of_nat (length (entryBytes k (mapIndex metrics k)))
            <= Z.of_nat (length dAtA)) as Hfit
    by (destruct Hcur as (_ & Hl & _); rewrite length_app in Hl; lia).
  assert (lenString k < 2 ^ 62) as Hk.
  { unfold entryBytes in Hfit. rewrite !length_app, !Nat2Z.inj_add in Hfit.
    rewrite <- lenString_bytesOf in Hfit. lia. }
  pose proof (entrySize_bounds k Hk) as Hes.
  pose proof (varintLen_uint64 (entrySize k) ltac:(lia)) as Hesl.
  pose proof (entryBytes_length k (mapIndex metrics k) Hk) as Hel.
  rewrite (entryBytes_split k (mapIndex metrics k)) in Hcur.
  rewrite <- !app_assoc in Hcur.
  pose proof (cursor_app _ _ _ _ 1 Hcur eq_refl) as Hcur1.
  pose proof (cursor_app _ _ _ _ (varintLen (entrySize k)) Hcur1
                ltac:(symmetry; apply varint_length; lia)) as Hcur2.
  pose proof (entryBody_length k (mapIndex metrics k) Hk) as Hbody.
  pose proof (cursor_app _ _ _ _ (entrySize k) Hcur2 (eq_sym Hbody)) as Hcur3.
  pose proof (cursor_le _ _ _ Hcur3) as Hi3.
  cbn [StoreStatus_Unmarshal_loop].
  rewrite decide_True by lia.
  rewrite (cursor_readVarint_uint64 _ _ _ _ Hcur) by lia. run_step.
  change (wrap (Z.land 18 7)) with 2. change (int32 (Z.shiftr 18 3)) with 2.
  change (varintLen 18) with 1.
  rewrite (decide_False (P := 2 = 4)) by lia.
  rewrite (decide_False (P := 2 <= 0)) by lia.
  rewrite (decide_False (P := 2 = 1)) by lia.
  rewrite (decide_True (P := 2 = 2)) by lia.
  rewrite (decide_False (P := 2 <> 2)) by lia.
  rewrite (cursor_readVarint_int _ _ _ _ Hcur1) by lia. run_step.
  rewrite decide_False by lia.
  rewrite int_add_no_overflow by (unfold min_int, max_int; lia).
  rewrite decide_False by lia.
  replace (S (length dAtA)) with (S (S (S (length dAtA - 2)))) by lia.
  rewrite (Unmarshal_entry_entryBody _ _ _ k (mapIndex metrics k) _ _ _ Hcur2)
    by done.
  run_step.
  change (set_Metrics (set_Metrics m _) _) with (withEntry metrics m k).
  rewrite (IH fuel (withEntry metrics m k) dAtA _ tail Hcur3 Hlen Hvals').
  f_equal. rewrite length_app, Nat2Z.inj_add. lia.
Qed.

Lemma Unmarshal_loop_end {D} `{!Message D} fuel (m : StoreStatus D) dAtA :
  StoreStatus_Unmarshal_loop fuel m dAtA (Z.of_nat (length dAtA)) = Ret (m, None).
Proof.
  destruct fuel; cbn [StoreStatus_Unmarshal_loop];
    rewrite decide_False by lia; by rewrite decide_False by lia.
Qed.

Lemma entries_count metrics keys :
  Z.of_nat (length keys) <=
  Z.of_nat (length (concat ((fun k => entryBytes k (mapIndex metrics k)) <$> keys))).
Proof.
  induction keys as [|k keys IH]; [done|].
  cbn [fmap list_fmap concat]. rewrite length_app, entryBytes_split.
  rewrite (varint_small 18) by lia. simpl length in *. lia.
Qed.

Lemma foldl_withEntry {D} metrics keys : forall (m : StoreStatus D),
  Desc (foldl (withEntry metrics) m keys) = Desc m /\
  Metrics (foldl (withEntry metrics) m keys) =
  match keys with
  | [] => Metrics m
  | _ => Some (foldl (fun acc k => <[k := mapIndex metrics k]> acc)
                 (default ∅ (Metrics m)) keys)
  end.
Proof.
  induction keys as [|k keys IH]; intros m; [done|].
  cbn [foldl]. destruct (IH (withEntry metrics m k)) as [-> ->].
  split; [done|]. by destruct keys.
Qed.

Lemma lookup_foldl_insert (val : string -> Z) keys : forall (base : gmap string Z) j,
  foldl (fun acc k => <[k := val k]> acc) base keys !! j =
  if decide (j ∈ keys) then Some (val j) else base !! j.
Proof.
  induction keys as [|k keys IH]; intros base j; cbn [foldl].
  { rewrite decide_False; [done | by intros ?%elem_of_nil]. }
  rewrite IH. destruct (decide (j ∈ keys)) as [Hin|Hout].
  - rewrite decide_True; [done | by right].
  - destruct (decide (j = k)) as [->|Hne].
    + rewrite decide_True by left. by rewrite lookup_insert_eq.
    + rewrite decide_False by (by intros [?|?]%elem_of_cons).
      by rewrite lookup_insert_ne.
Qed.

(** Reading the entries of a map, in any order, gives its entries and,
    for the other keys, what was there. *)
Lemma merged_entries {D} metrics keys (m : StoreStatus D) :
  keys ≡ₚ (mapRange metrics).*1 ->
  Metrics (foldl (withEntry metrics) m keys) = mergedMetrics metrics (Metrics m).
Proof.
  intros Hperm. rewrite (proj2 (foldl_withEntry metrics keys m)).
  unfold mergedMetrics.
  destruct keys as [|k keys].
  { apply Permutation_nil_l in Hperm. symmetry in Hperm.
    apply fmap_nil_inv in Hperm. by rewrite Hperm. }
  destruct (mapRange metrics) as [|kv kvs] eqn:Hrange.
  { by apply Permutation_nil_r in Hperm. }
  f_equal. apply map_eq. intros j.
  rewrite lookup_foldl_insert.
  destruct metrics as [mm|]; [|done]. cbn [default mapRange] in *.
  rewrite <- Hrange in Hperm.
  destruct (decide (j ∈ k :: keys)) as [Hin|Hout].
  - rewrite Hperm in Hin. apply list_elem_of_fmap in Hin as ([j' v] & -> & Hjv).
    cbn [fst]. apply elem_of_map_to_list in Hjv.
    rewrite (lookup_union_Some_l _ _ _ _ Hjv).
    unfold mapIndex. by rewrite Hjv.
  - rewrite lookup_union_r; [done|].
    destruct (mm !! j) as [v|] eqn:Hj; [|done]. exfalso. apply Hout.
    rewrite Hperm. apply list_elem_of_fmap. exists (j, v).
    split; [done | by apply elem_of_map_to_list].
Qed.

(** The first pass of [Unmarshal] on a descriptor field. *)
Lemma Unmarshal_loop_descriptor {D} `{!Message D} fuel (m : StoreStatus D)
    dAtA i desc d tail :
  cursor dAtA i ([10] ++ varint (Z.of_nat (length desc)) ++ desc ++ tail) ->
  Z.of_nat (length dAtA) < 2 ^ 62 ->
  Unmarshal (Desc m) desc = Ret (d, None) ->
  StoreStatus_Unmarshal_loop (S fuel) m dAtA i =
  StoreStatus_Unmarshal_loop fuel (set_Desc m d) dAtA
    (i + 1 + varintLen (Z.of_nat (length desc)) + Z.of_nat (length desc)).
Proof.
  intros Hcur Hlen Hdesc.
  assert (2 ^ 62 < max_int) as Hpow by (unfold max_int; lia).
  rewrite <- (varint_small 10) in Hcur by lia.
  pose proof (cursor_le _ _ _ Hcur) as Hi.
  assert (Z.of_nat (length desc) < 2 ^ 62) as Hd.
  { destruct Hcur as (_ & Hl & _). rewrite !length_app, !Nat2Z.inj_add in Hl. lia. }
  pose proof (varintLen_uint64 (Z.of_nat (length desc)) ltac:(lia)) as Hdl.
  pose proof (cursor_app _ _ _ _ 1 Hcur eq_refl) as Hcur1.
  pose proof (cursor_app _ _ _ _ (varintLen (Z.of_nat (length desc))) Hcur1
                ltac:(symmetry; apply varint_length; lia)) as Hcur2.
  pose proof (cursor_app _ _ _ _ (Z.of_nat (length desc)) Hcur2 eq_refl) as Hcur3.
  pose proof (cursor_le _ _ _ Hcur3) as Hi3.
  cbn [StoreStatus_Unmarshal_loop].
  rewrite decide_True by lia.
  rewrite (cursor_readVarint_uint64 _ _ _ _ Hcur) by lia. run_step.
  change (wrap (Z.land 10 7)) with 2. change (int32 (Z.shiftr 10 3)) with 1.
  change (varintLen 10) with 1.
  rewrite (decide_False (P := 2 = 4)) by lia.
  rewrite (decide_False (P := 1 <= 0)) by lia.
  rewrite (decide_True (P := 1 = 1)) by lia.
  rewrite (decide_False (P := 2 <> 2)) by lia.
  rewrite (cursor_readVarint_int _ _ _ _ Hcur1) by lia. run_step.
  rewrite decide_False by lia.
  rewrite int_add_no_overflow by (unfold min_int, max_int; lia).
  rewrite decide_False by lia.
  rewrite (cursor_slice _ _ _ _ _ Hcur2 eq_refl). run_step.
  rewrite Hdesc. run_step. done.
Qed.

Lemma foldl_withEntry_merged {D} metrics (m : StoreStatus D) :
  foldl (withEntry metrics) m (sortStrings (mapRange metrics).*1) =
  mkStoreStatus (Desc m) (mergedMetrics metrics (Metrics m)).
Proof.
  pose proof (foldl_withEntry metrics (sortStrings (mapRange metrics).*1) m)
    as [Hd' _].
  pose proof (merged_entries metrics (sortStrings (mapRange metrics).*1)
                m (sortStrings_Permutation _)) as Hm'.
  destruct (foldl (withEntry metrics) m (sortStrings (mapRange metrics).*1))
    as [d' metrics'].
  simpl in *. by subst.
Qed.

(** [Unmarshal] on the wire form [MarshalTo] writes, and on what follows
    it. *)
Lemma Unmarshal_loop_storeStatusBytes {D} `{!Message D} fuel (m : StoreStatus D)
    desc d metrics tail :
  Unmarshal (Desc m) desc = Ret (d, None) ->
  float64Values metrics ->
  Z.of_nat (length (storeStatusBytes desc metrics ++ tail)) < 2 ^ 62 ->
  StoreStatus_Unmarshal_loop
    (S (length (sortStrings (mapRange metrics).*1) + fuel)) m
    (storeStatusBytes desc metrics ++ tail) 0 =
  StoreStatus_Unmarshal_loop fuel
    (mkStoreStatus d (mergedMetrics metrics (Metrics m)))
    (storeStatusBytes desc metrics ++ tail)
    (Z.of_nat (length (storeStatusBytes desc metrics))).
Proof.
  intros Hdesc Hvals Hlen.
  pose proof (cursor_start (storeStatusBytes desc metrics ++ tail)) as Hcur.
  remember (storeStatusBytes desc metrics ++ tail) as dAtA eqn:HdAtA.
  rewrite HdAtA in Hcur at 2. unfold storeStatusBytes in Hcur.
  rewrite <- !app_assoc in Hcur.
  assert (Z.of_nat (length desc) < 2 ^ 62) as Hd.
  { destruct Hcur as (_ & Hl & _). rewrite !length_app, !Nat2Z.inj_add in Hl. lia. }
  rewrite (Unmarshal_loop_descriptor _ m dAtA 0 desc d _ Hcur Hlen Hdesc).
  pose proof (cursor_app _ _ _ _ 1 Hcur eq_refl) as Hcur1.
  pose proof (cursor_app _ _ _ _ (varintLen (Z.of_nat (length desc))) Hcur1
                ltac:(symmetry; apply varint_length; lia)) as Hcur2.
  pose proof (cursor_app _ _ _ _ (Z.of_nat (length desc)) Hcur2 eq_refl) as Hcur3.
  unfold metricsBytes in Hcur3.
  rewrite (Unmarshal_loop_entries metrics _ fuel _ dAtA _ tail Hcur3 Hlen
             (float64Values_keys metrics Hvals)).
  rewrite foldl_withEntry_merged. cbn [set_Desc Desc Metrics].
  f_equal. unfold storeStatusBytes, metricsBytes.
  rewrite !length_app, !Nat2Z.inj_add, varint_length by lia.
  cbn [length]. lia.
Qed.

(** [Unmarshal] on the wire form [MarshalTo] writes. *)
Lemma StoreStatus_Unmarshal_storeStatusBytes {D} `{!Message D} (m : StoreStatus D)
    desc d metrics :
  Unmarshal (Desc m) desc = Ret (d, None) ->
  float64Values metrics ->
  Z.of_nat (length (storeStatusBytes desc metrics)) < 2 ^ 62 ->
  StoreStatus_Unmarshal m (storeStatusBytes desc metrics) =
  Ret (mkStoreStatus d (mergedMetrics metrics (Metrics m)), None).
Proof.
  intros Hdesc Hvals Hlen. unfold StoreStatus_Unmarshal.
  pose proof (entries_count metrics (sortStrings (mapRange metrics).*1)) as Hcount.
  fold (metricsBytes metrics) in Hcount.
  assert (Z.of_nat (length (sortStrings (mapRange metrics).*1))
            < Z.of_nat (length (storeStatusBytes desc metrics))) as Hfuel.
  { unfold storeStatusBytes. rewrite !length_app, !Nat2Z.inj_add.
    cbn [length]. lia. }
  pose proof (Unmarshal_loop_storeStatusBytes
                (length (storeStatusBytes desc metrics)
                   - length (sortStrings (mapRange metrics).*1))
                m desc d metrics [] Hdesc Hvals) as Hloop.
  rewrite app_nil_r in Hloop.
  replace (S (length (sortStrings (mapRange metrics).*1) +
              (length (storeStatusBytes desc metrics)
                 - length (sortStrings (mapRange metrics).*1))))
    with (S (length (storeStatusBytes desc metrics))) in Hloop by lia.
  rewrite Hloop by done. apply Unmarshal_loop_end.
Qed.

(** [skipStatus] on a field, with the bound the callers give it. *)
Lemma skipStatus_field (f : wireField) (rest : list Z) (fuel : nat) :
  wellFormed f = true ->
  Z.of_nat (length (fieldBytes f ++ rest)) < 2 ^ 62 ->
  2 * Z.of_nat (length (fieldBytes f ++ rest)) + 1 <= Z.of_nat fuel ->
  skipStatus fuel (fieldBytes f ++ rest) =
  Ret (Z.of_nat (length (fieldBytes f)), None).
Proof.
  intros Hwf Hlen Hfuel.
  pose proof (skipStatus_adequate fuel _ Hlen Hfuel) as Hnf.
  rewrite <- (skipStatus_fuel_le fuel (max fuel (fieldFuel f))) by (done || lia).
  apply skip_wellFormed; [done | lia |].
  rewrite length_app in Hlen. lia.
Qed.

Lemma fieldBytes_fieldNum f :
  wellFormed f = true ->
  exists w tail,
    fieldBytes f = tag (fieldNum f) w ++ tail /\ fieldNumber (fieldNum f) = true /\
    0 <= w < 8 /\ w <> 4.
Proof.
  destruct f as [num v|num p|num p|num body e|num p]; simpl;
    rewrite ?andb_true_iff; intros Hwf.
  - exists 0, (varint v). by intuition lia.
  - exists 1, p. by intuition lia.
  - exists 2, (varint (Z.of_nat (length p)) ++ p). by intuition lia.
  - exists 3, (fieldsBytes body ++ tag e 4). by intuition lia.
  - exists 5, p. by intuition lia.
Qed.

Lemma tag_shiftr num w : 0 <= w < 8 -> Z.shiftr (8 * num + w) 3 = num.
Proof.
  intros Hw. rewrite Z.shiftr_div_pow2 by lia. change (2 ^ 3) with 8.
  symmetry. apply (Z.div_unique _ 8 num w); lia.
Qed.

Lemma int32_small z : - 2 ^ 31 <= z < 2 ^ 31 -> int32 z = z.
Proof. intros Hz. unfold int32. rewrite Z.mod_small; lia. Qed.

(** A pass of [Unmarshal] over a field it does not know. *)
Lemma Unmarshal_loop_unknown {D} `{!Message D} fuel (m : StoreStatus D)
    dAtA i f tail :
  cursor dAtA i (fieldBytes f ++ tail) ->
  Z.of_nat (length dAtA) < 2 ^ 62 ->
  wellFormed f = true ->
  3 <= fieldNum f < 2 ^ 31 ->
  StoreStatus_Unmarshal_loop (S fuel) m dAtA i =
  StoreStatus_Unmarshal_loop fuel m dAtA (i + Z.of_nat (length (fieldBytes f))).
Proof.
  intros Hcur Hlen Hwf Hnum.
  assert (2 ^ 62 < max_int) as Hpow by (unfold max_int; lia).
  destruct (fieldBytes_fieldNum f Hwf) as (w & tail' & Hbytes & Hfn & Hw & Hw4).
  pose proof (fieldNumber_tag _ w Hfn Hw) as Ht.
  pose proof (cursor_le _ _ _ Hcur) as Hi.
  pose proof (cursor_app _ _ _ _ _ Hcur eq_refl) as Hcur'.
  pose proof (cursor_le _ _ _ Hcur') as Hi'.
  pose proof (cursor_sliceFrom _ _ _ Hcur) as Hslice.
  assert (Z.of_nat (length (fieldBytes f ++ tail)) < 2 ^ 62) as Hfl
    by (destruct Hcur as (_ & Hl & _); lia).
  assert (1 <= Z.of_nat (length (fieldBytes f))) as Hpos.
  { rewrite Hbytes, length_app, Nat2Z.inj_add.
    destruct (tag_length _ w Hfn Hw) as [-> ?]. lia. }
  assert (readVarint accumUint64 dAtA i =
          Ret (Ok (8 * fieldNum f + w, i + varintLen (8 * fieldNum f + w)))) as Hread.
  { rewrite Hbytes in Hcur. unfold tag in Hcur. rewrite <- app_assoc in Hcur.
    apply (cursor_readVarint_uint64 _ _ _ _ Hcur); lia. }
  cbn [StoreStatus_Unmarshal_loop].
  rewrite decide_True by lia.
  rewrite Hread. run_step.
  rewrite wireType_mod, tag_mod, tag_shiftr by lia.
  rewrite int32_small by lia.
  rewrite (decide_False (P := w = 4)) by lia.
  rewrite (decide_False (P := fieldNum f <= 0)) by lia.
  rewrite (decide_False (P := fieldNum f = 1)) by lia.
  rewrite (decide_False (P := fieldNum f = 2)) by lia.
  rewrite Hslice. run_step.
  rewrite skipStatus_field by (done || lia). run_step.
  rewrite decide_False by lia.
  rewrite int_add_no_overflow by (unfold min_int, max_int; lia).
  by rewrite decide_False by lia.
Qed.

(** [Unmarshal] rejects an end-group tag, a field number that is not
    positive as an [int32], and the fields it knows with another wire type
    than 2. *)
Lemma Unmarshal_rejects {D} `{!Message D} (m : StoreStatus D) t rest :
  0 <= t < 2 ^ 64 ->
  Z.of_nat (length (varint t ++ rest)) <= max_int ->
  StoreStatus_Unmarshal m (varint t ++ rest) =
  let fieldNum := int32 (Z.shiftr t 3) in
  let wireType := t mod 8 in
  if decide (wireType = 4) then
    Ret (m, Some (Errorf "proto: StoreStatus: wiretype end group for non-group"))
  else if decide (fieldNum <= 0) then
    Ret (m, Some (Errorf ("proto: StoreStatus: illegal tag " +:+ fmt_d fieldNum
                            +:+ " (wire type " +:+ fmt_d t +:+ ")")))
  else if decide (fieldNum = 1 /\ wireType <> 2) then
    Ret (m, Some (Errorf ("proto: wrong wireType = " +:+ fmt_d wireType
                            +:+ " for field Desc")))
  else if decide (fieldNum = 2 /\ wireType <> 2) then
    Ret (m, Some (Errorf ("proto: wrong wireType = " +:+ fmt_d wireType
                            +:+ " for field Metrics")))
  else StoreStatus_Unmarshal m (varint t ++ rest).
Proof.
  intros Ht Hmax. cbv zeta.
  pose proof (cursor_start (varint t ++ rest)) as Hcur.
  pose proof (varintLen_uint64 t Ht) as Htl.
  assert (0 < Z.of_nat (length (varint t ++ rest))) as Hne
    by (rewrite length_app, Nat2Z.inj_add, varint_length by done; lia).
  pose proof (cursor_readVarint_uint64 _ _ _ _ Hcur Ht Hmax) as Hread.
  destruct (decide (t mod 8 = 4)) as [H4|H4];
    [|destruct (decide (int32 (Z.shiftr t 3) <= 0)) as [H0|H0];
      [|destruct (decide (int32 (Z.shiftr t 3) = 1 /\ t mod 8 <> 2)) as [[H1 H1']|H1];
        [|destruct (decide (int32 (Z.shiftr t 3) = 2 /\ t mod 8 <> 2)) as [[H2 H2']|H2];
          [|done]]]];
    unfold StoreStatus_Unmarshal; cbn [StoreStatus_Unmarshal_loop];
    rewrite decide_True by lia; rewrite Hread; run_step;
    rewrite wireType_mod by lia.
  - by rewrite decide_True by done.
  - rewrite decide_False by done. by rewrite decide_True by done.
  - rewrite decide_False by done. rewrite decide_False by done.
    rewrite decide_True by done. by rewrite decide_True by done.
  - rewrite decide_False by done. rewrite decide_False by done.
    rewrite decide_False by lia. rewrite decide_True by done.
    by rewrite decide_True by done.
Qed.

(** ** [StoreStatus.Unmarshal]: bounds and termination *)

Lemma slice_cases dAtA lo hi :
  (exists b, slice dAtA lo hi = Ret b /\ 0 <= lo /\ lo <= hi /\
             hi <= Z.of_nat (length dAtA)) \/
  slice dAtA lo hi = Panic SliceBoundsOutOfRange.
Proof.
  unfold slice. destruct (decide _) as [Hin|Hout]; [left | by right].
  eexists. split; [done | lia].
Qed.

Lemma sliceFrom_cases dAtA lo :
  (sliceFrom dAtA lo = Ret (drop (Z.to_nat lo) dAtA) /\
   0 <= lo <= Z.of_nat (length dAtA)) \/
  sliceFrom dAtA lo = Panic SliceBoundsOutOfRange.
Proof.
  unfold sliceFrom. destruct (decide _) as [Hin|Hout]; [left | by right].
  split; [done | lia].
Qed.

Lemma Uint64_cases b :
  (exists v, Uint64 b = Ret v) \/ Uint64 b = Panic (RuntimeError IndexOutOfRange).
Proof.
  unfold Uint64.
  destruct b as [|b0 [|b1 [|b2 [|b3 [|b4 [|b5 [|b6 [|b7 b]]]]]]]];
    try (by right). left. by eexists.
Qed.

(** What [skipStatus] gives its callers in this file: it is not cut off,
    and an index without error that is not negative is at least [1]. *)
Lemma skipStatus_cases b :
  Z.of_nat (length b) < 2 ^ 62 ->
  (exists pv, skipStatus (2 * length b + 1) b = Panic pv) \/
  (exists n err, skipStatus (2 * length b + 1) b = Ret (n, Some err)) \/
  (exists n, skipStatus (2 * length b + 1) b = Ret (n, None) /\
             (n < 0 \/ 1 <= n <= max_int)).
Proof.
  intros Hlen.
  destruct (skip_adequate (2 * length b + 1)) as [Hs _].
  destruct (Hs b Hlen ltac:(lia)) as [Hnf Hret].
  destruct (skipStatus (2 * length b + 1) b) as [[n [err|]]|pv|];
    [ right; left; by exists n, err | | left; by exists pv | done].
  right. right. exists n. split; [done|].
  specialize (Hret n eq_refl). lia.
Qed.

(** The loop over a map entry is not cut off. *)
Lemma Unmarshal_entry_adequate fuel : forall dAtA i postIndex mapkey mapvalue,
  Z.of_nat (length dAtA) < 2 ^ 62 ->
  postIndex <= Z.of_nat (length dAtA) ->
  (1 <= Z.of_nat fuel)%Z ->
  i < 0 \/ Z.of_nat (length dAtA) - i + 1 <= Z.of_nat fuel ->
  StoreStatus_Unmarshal_entry fuel dAtA i postIndex mapkey mapvalue <> OutOfFuel.
Proof.
  assert (2 ^ 62 < max_int) as Hpow by (unfold max_int; lia).
  induction fuel as [|fuel IH];
    intros dAtA i postIndex mapkey mapvalue Hlen Hpost Hone Hfuel; [lia|].
  cbn [StoreStatus_Unmarshal_entry].
  destruct (decide (i < postIndex)) as [Hlt|Hge]; [|done].
  destruct (readVarint_cases accumUint64 dAtA i ltac:(lia))
    as [[Hneg ->]|[[err ->]|(wire & i1 & -> & Hi & Hi1)]]; [done | done |].
  rewrite run_bind_Ret. cbv beta iota zeta.
  destruct (decide (int32 (Z.shiftr wire 3) = 1)) as [Hf1|Hf1].
  { destruct (readVarint_cases accumUint64 dAtA i1 ltac:(lia))
      as [[Hneg ->]|[[err ->]|(len & i2 & -> & Hi1' & Hi2)]]; [done | done |].
    rewrite run_bind_Ret. cbv beta iota zeta.
    destruct (decide (wrap len < 0)); [done|].
    destruct (decide (int_add i2 (wrap len) > Z.of_nat (length dAtA))); [done|].
    destruct (slice_cases dAtA i2 (int_add i2 (wrap len)))
      as [(b & -> & Hlo & Hhi & Hl)| ->]; [|done].
    rewrite run_bind_Ret. cbv beta iota zeta.
    apply IH; [done | done | lia | lia]. }
  destruct (decide (int32 (Z.shiftr wire 3) = 2)) as [Hf2|Hf2].
  { destruct (decide (int_add i1 8 > Z.of_nat (length dAtA))) as [|Hin]; [done|].
    rewrite (int_add_no_overflow i1 8) in Hin |- *
      by (unfold min_int, max_int; lia).
    destruct (sliceFrom_cases dAtA i1) as [[-> _]| ->]; [|done].
    rewrite run_bind_Ret. cbv beta iota zeta.
    destruct (Uint64_cases (drop (Z.to_nat i1) dAtA)) as [[v ->]| ->]; [|done].
    rewrite run_bind_Ret. cbv beta iota zeta.
    apply IH; [done | done | lia | lia]. }
  destruct (sliceFrom_cases dAtA i) as [[-> _]| ->]; [|done].
  rewrite run_bind_Ret. cbv beta iota zeta.
  destruct (skipStatus_cases (drop (Z.to_nat i) dAtA)
              ltac:(rewrite length_drop; lia))
    as [[pv ->]|[(n & err & ->)|(n & -> & Hn)]]; [done | done |].
  rewrite run_bind_Ret. cbv beta iota zeta.
  destruct (decide (n < 0)); [done|].
  destruct (decide (int_add i n > postIndex)) as [|Hin]; [done|].
  apply IH; [done | done | lia |].
  destruct (decide (i + n <= max_int)) as [Hno|Hov].
  - rewrite (int_add_no_overflow i n) in Hin |- *
      by (unfold min_int, max_int in *; lia).
    lia.
  - left. unfold int_add. rewrite wrap_overflow by (unfold max_int in *; lia).
    unfold max_int in *. lia.
Qed.

(** The loop of [Unmarshal] is not cut off when [Unmarshal] of the
    descriptor is not. *)
Lemma Unmarshal_loop_adequate {D} `{!Message D} fuel :
  forall (m : StoreStatus D) dAtA i,
    (forall (d : D) b, Unmarshal d b <> OutOfFuel) ->
    Z.of_nat (length dAtA) < 2 ^ 62 ->
    (i < 0 /\ 1 <= Z.of_nat fuel) \/ Z.of_nat (length dAtA) <= i \/
    (0 <= i /\ Z.of_nat (length dAtA) - i + 1 <= Z.of_nat fuel) ->
    StoreStatus_Unmarshal_loop fuel m dAtA i <> OutOfFuel.
Proof.
  assert (2 ^ 62 < max_int) as Hpow by (unfold max_int; lia).
  induction fuel as [|fuel IH]; intros m dAtA i Hdesc Hlen Hfuel.
  { cbn [StoreStatus_Unmarshal_loop].
    rewrite decide_False by lia. by destruct (decide _). }
  cbn [StoreStatus_Unmarshal_loop].
  destruct (decide (i < Z.of_nat (length dAtA))) as [Hlt|Hge];
    [|by destruct (decide _)].
  destruct (readVarint_cases accumUint64 dAtA i ltac:(lia))
    as [[Hneg ->]|[[err ->]|(wire & i1 & -> & Hi & Hi1)]]; [done | done |].
  rewrite run_bind_Ret. cbv beta iota zeta.
  destruct (decide (wrap (Z.land wire 7) = 4)); [done|].
  destruct (decide (int32 (Z.shiftr wire 3) <= 0)); [done|].
  destruct (decide (int32 (Z.shiftr wire 3) = 1)) as [Hf1|Hf1].
  { destruct (decide (wrap (Z.land wire 7) <> 2)); [done|].
    destruct (readVarint_cases accumInt dAtA i1 ltac:(lia))
      as [[Hneg ->]|[[err ->]|(msglen & i2 & -> & Hi1' & Hi2)]]; [done | done |].
    rewrite run_bind_Ret. cbv beta iota zeta.
    destruct (decide (msglen < 0)); [done|].
    destruct (decide (int_add i2 msglen > Z.of_nat (length dAtA))); [done|].
    destruct (slice_cases dAtA i2 (int_add i2 msglen))
      as [(b & -> & Hlo & Hhi & Hl)| ->]; [|done].
    rewrite run_bind_Ret. cbv beta iota zeta.
    pose proof (Hdesc (Desc m) b) as Hnf.
    destruct (Unmarshal (Desc m) b) as [[d [err|]]|pv|]; [done | | done | done].
    rewrite run_bind_Ret. cbv beta iota zeta.
    apply IH; [done | done | lia]. }
  destruct (decide (int32 (Z.shiftr wire 3) = 2)) as [Hf2|Hf2].
  { destruct (decide (wrap (Z.land wire 7) <> 2)); [done|].
    destruct (readVarint_cases accumInt dAtA i1 ltac:(lia))
      as [[Hneg Hr]|[[err Hr]|(msglen & i2 & Hr & Hi1' & Hi2)]];
      [by rewrite Hr | by rewrite Hr |].
    pose proof (readVarint_accumInt_range _ _ _ _ Hr) as Hrange.
    rewrite Hr. rewrite run_bind_Ret. cbv beta iota zeta.
    destruct (decide (msglen < 0)); [done|].
    destruct (decide (int_add i2 msglen > Z.of_nat (length dAtA))) as [|Hin];
      [done|].
    pose proof (Unmarshal_entry_adequate (S (length dAtA)) dAtA i2
                  (int_add i2 msglen) "" 0 Hlen ltac:(lia) ltac:(lia)
                  ltac:(right; lia)) as Hnf.
    destruct (StoreStatus_Unmarshal_entry (S (length dAtA)) dAtA i2
                (int_add i2 msglen) "" 0) as [[[mapkey mapvalue]|err]|pv|];
      [ | done | done | done].
    rewrite run_bind_Ret. cbv beta iota zeta.
    apply IH; [done | done |].
    destruct (decide (i2 + msglen <= max_int)) as [Hno|Hov].
    - rewrite (int_add_no_overflow i2 msglen) in Hin |- *
        by (unfold min_int, max_int in *; lia).
      lia.
    - left. unfold int_add. rewrite wrap_overflow by (unfold max_int in *; lia).
      unfold max_int in *. lia. }
  destruct (sliceFrom_cases dAtA i) as [[-> _]| ->]; [|done].
  rewrite run_bind_Ret. cbv beta iota zeta.
  destruct (skipStatus_cases (drop (Z.to_nat i) dAtA)
              ltac:(rewrite length_drop; lia))
    as [[pv ->]|[(skippy & err & ->)|(skippy & -> & Hn)]]; [done | done |].
  rewrite run_bind_Ret. cbv beta iota zeta.
  destruct (decide (skippy < 0)); [done|].
  destruct (decide (int_add i skippy > Z.of_nat (length dAtA))) as [|Hin]; [done|].
  apply IH; [done | done |].
  destruct (decide (i + skippy <= max_int)) as [Hno|Hov].
  - rewrite (int_add_no_overflow i skippy) in Hin |- *
      by (unfold min_int, max_int in *; lia).
    lia.
  - left. unfold int_add. rewrite wrap_overflow by (unfold max_int in *; lia).
    unfold max_int in *. lia.
Qed.

(** A declared length next to the largest [int] in a field [Unmarshal]
    knows. *)
Lemma Unmarshal_length_overflow {D} `{!Message D} (m : StoreStatus D) n rest :
  2 ^ 63 - 10 <= n < 2 ^ 63 ->
  Z.of_nat (length rest) < 2 ^ 61 ->
  StoreStatus_Unmarshal m ([10] ++ varint n ++ rest) = Panic SliceBoundsOutOfRange /\
  StoreStatus_Unmarshal m ([18] ++ varint n ++ rest) =
    Panic (RuntimeError IndexOutOfRange).
Proof.
  intros Hn Hrest.
  assert (2 ^ 62 < max_int) as Hpow by (unfold max_int; lia).
  pose proof (varintLen_huge n ltac:(lia)) as Hn9.
  pose proof (varint_length n ltac:(lia)) as Hvl.
  split.
  - pose proof (cursor_start ([10] ++ varint n ++ rest)) as Hcur.
    remember ([10] ++ varint n ++ rest) as dAtA eqn:HdAtA.
    assert (Z.of_nat (length dAtA) = 10 + Z.of_nat (length rest)) as Hl
      by (rewrite HdAtA, !length_app, !Nat2Z.inj_add; simpl length; lia).
    rewrite HdAtA in Hcur at 2.
    rewrite <- (varint_small 10) in Hcur by lia.
    pose proof (cursor_app _ _ _ _ 1 Hcur eq_refl) as Hcur1.
    unfold StoreStatus_Unmarshal. cbn [StoreStatus_Unmarshal_loop].
    rewrite decide_True by lia.
    rewrite (cursor_readVarint_uint64 _ _ _ _ Hcur) by lia. run_step.
    change (wrap (Z.land 10 7)) with 2. change (int32 (Z.shiftr 10 3)) with 1.
    change (varintLen 10) with 1.
    rewrite (decide_False (P := 2 = 4)) by lia.
    rewrite (decide_False (P := 1 <= 0)) by lia.
    rewrite (decide_True (P := 1 = 1)) by lia.
    rewrite (decide_False (P := 2 <> 2)) by lia.
    rewrite (cursor_readVarint_int _ _ _ _ Hcur1) by lia. run_step.
    rewrite decide_False by lia.
    unfold int_add. rewrite wrap_overflow by (unfold max_int; lia).
    rewrite decide_False by lia.
    unfold slice. by rewrite decide_False by lia.
  - pose proof (cursor_start ([18] ++ varint n ++ rest)) as Hcur.
    remember ([18] ++ varint n ++ rest) as dAtA eqn:HdAtA.
    assert (Z.of_nat (length dAtA) = 10 + Z.of_nat (length rest)) as Hl
      by (rewrite HdAtA, !length_app, !Nat2Z.inj_add; simpl length; lia).
    rewrite HdAtA in Hcur at 2.
    rewrite <- (varint_small 18) in Hcur by lia.
    pose proof (cursor_app _ _ _ _ 1 Hcur eq_refl) as Hcur1.
    unfold StoreStatus_Unmarshal. cbn [StoreStatus_Unmarshal_loop].
    rewrite decide_True by lia.
    rewrite (cursor_readVarint_uint64 _ _ _ _ Hcur) by lia. run_step.
    change (wrap (Z.land 18 7)) with 2. change (int32 (Z.shiftr 18 3)) with 2.
    change (varintLen 18) with 1.
    rewrite (decide_False (P := 2 = 4)) by lia.
    rewrite (decide_False (P := 2 <= 0)) by lia.
    rewrite (decide_False (P := 2 = 1)) by lia.
    rewrite (decide_True (P := 2 = 2)) by lia.
    rewrite (decide_False (P := 2 <> 2)) by lia.
    rewrite (cursor_readVarint_int _ _ _ _ Hcur1) by lia. run_step.
    rewrite decide_False by lia.
    unfold int_add. rewrite wrap_overflow by (unfold max_int; lia).
    rewrite decide_False by lia.
    cbn [StoreStatus_Unmarshal_entry].
    rewrite decide_False by lia. run_step.
    destruct (length dAtA) as [|l'] eqn:Hl'; [lia|].
    cbn [StoreStatus_Unmarshal_loop].
    rewrite decide_True by lia.
    unfold readVarint. by rewrite decide_True by lia.
Qed.

(** [Unmarshal] on the wire form followed by a field it does not know. *)
Lemma Unmarshal_storeStatusBytes_unknown {D} `{!Message D} (m : StoreStatus D)
    desc d metrics f :
  Unmarshal (Desc m) desc = Ret (d, None) ->
  float64Values metrics ->
  wellFormed f = true ->
  3 <= fieldNum f < 2 ^ 31 ->
  Z.of_nat (length (storeStatusBytes desc metrics ++ fieldBytes f)) < 2 ^ 62 ->
  StoreStatus_Unmarshal m (storeStatusBytes desc metrics ++ fieldBytes f) =
  Ret (mkStoreStatus d (mergedMetrics metrics (Metrics m)), None).
Proof.
  intros Hdesc Hvals Hwf Hnum Hlen. unfold StoreStatus_Unmarshal.
  pose proof (entries_count metrics (sortStrings (mapRange metrics).*1)) as Hcount.
  fold (metricsBytes metrics) in Hcount.
  destruct (fieldBytes_fieldNum f Hwf) as (w & tail' & Hbytes & Hfn & Hw & Hw4).
  assert (1 <= Z.of_nat (length (fieldBytes f))) as Hpos.
  { rewrite Hbytes, length_app, Nat2Z.inj_add.
    destruct (tag_length _ w Hfn Hw) as [-> ?]. lia. }
  assert (Z.of_nat (length (sortStrings (mapRange metrics).*1)) + 1
            < Z.of_nat (length (storeStatusBytes desc metrics ++ fieldBytes f)))
    as Hfuel.
  { unfold storeStatusBytes. rewrite !length_app, !Nat2Z.inj_add.
    cbn [length]. lia. }
  pose proof (Unmarshal_loop_storeStatusBytes
                (S (length (storeStatusBytes desc metrics ++ fieldBytes f)
                      - length (sortStrings (mapRange metrics).*1) - 1))
                m desc d metrics (fieldBytes f) Hdesc Hvals Hlen) as Hloop.
  replace (S (length (sortStrings (mapRange metrics).*1) +
              S (length (storeStatusBytes desc metrics ++ fieldBytes f)
                   - length (sortStrings (mapRange metrics).*1) - 1)))
    with (S (length (storeStatusBytes desc metrics ++ fieldBytes f))) in Hloop
    by lia.
  rewrite Hloop.
  assert (cursor (storeStatusBytes desc metrics ++ fieldBytes f)
            (Z.of_nat (length (storeStatusBytes desc metrics)))
            (fieldBytes f ++ [])) as Hcur.
  { rewrite app_nil_r. replace (Z.of_nat (length (storeStatusBytes desc metrics)))
      with (0 + Z.of_nat (length (storeStatusBytes desc metrics))) by lia.
    apply (cursor_app _ 0 (storeStatusBytes desc metrics)); [|done].
    apply cursor_start. }
  rewrite (Unmarshal_loop_unknown _ _ _ _ f [] Hcur Hlen Hwf Hnum).
  rewrite <- Nat2Z.inj_add, <- length_app. apply Unmarshal_loop_end.
Qed.

Lemma mergedMetrics_fresh (mm : gmap string Z) :
  mergedMetrics (Some mm) None = if decide (mm = ∅) then None else Some mm.
Proof.
  unfold mergedMetrics. cbn [mapRange default].
  destruct (decide (mm = ∅)) as [->|Hne].
  - by rewrite map_to_list_empty.
  - destruct (map_to_list mm) as [|kv kvs] eqn:Hl.
    + by apply map_to_list_empty_iff in Hl.
    + by rewrite (right_id ∅ (∪)).
Qed.

(** The example message and the example status meet the conditions of the
    statements. *)
Lemma bytesMessage_descriptorBytes (d : list Z) : descriptorBytes d d.
Proof.
  split; [done|]. intros b Hb. cbn [MarshalTo bytesMessage].
  by rewrite decide_True by done.
Qed.

Lemma status_ex_float64Values : float64Values (Metrics status_ex).
Proof.
  intros k v Hkv. apply (mapIndex_mapRange _ _ _) in Hkv as <-.
  unfold status_ex, mapIndex. cbn [Metrics].
  destruct (decide (k = "b"%string)) as [->|Hb];
    [rewrite lookup_insert_eq; unfold isFloat64; simpl; lia|].
  rewrite lookup_insert_ne by done.
  destruct (decide (k = "a"%string)) as [->|Ha];
    [rewrite lookup_insert_eq; unfold isFloat64; simpl; lia|].
  rewrite lookup_insert_ne by done. rewrite lookup_empty.
  unfold isFloat64. simpl. lia.
Qed.

(** ** The store status: main statements *)

(** X22.  For a descriptor with the wire form [desc], [StoreStatus.Size]
    returns the length of the wire form of the status: the descriptor as
    field 1 and one entry for each key of the map, in ascending order of
    the keys.  [MarshalTo] on a slice with room for it writes this wire form
    at the start of the slice, leaves the other bytes alone and returns its
    length, which is what [Size] returns, and no error. *)
Theorem X22_MarshalTo_writes_Size_bytes {D} `{!Message D} (m : StoreStatus D)
    (desc dAtA : list Z) :
  descriptorBytes (Desc m) desc ->
  float64Values (Metrics m) ->
  (length (storeStatusBytes desc (Metrics m)) <= length dAtA)%nat ->
  Z.of_nat (length dAtA) < 2 ^ 62 ->
  StoreStatus_Size m = Ret (Z.of_nat (length (storeStatusBytes desc (Metrics m)))) /\
  StoreStatus_MarshalTo m dAtA =
    Ret (storeStatusBytes desc (Metrics m)
           ++ drop (length (storeStatusBytes desc (Metrics m))) dAtA,
         (Z.of_nat (length (storeStatusBytes desc (Metrics m))), None)).
Proof.
  intros Hdesc Hvals Hroom Hlen. split.
  - apply StoreStatus_Size_storeStatusBytes; [apply Hdesc | lia].
  - by apply StoreStatus_MarshalTo_storeStatusBytes.
Qed.

Lemma X22_MarshalTo_witness :
  (descriptorBytes (Desc status_ex) [8; 1] /\
   float64Values (Metrics status_ex) /\
   (length (storeStatusBytes (Desc status_ex) (Metrics status_ex))
      <= length buffer_ex)%nat /\
   Z.of_nat (length buffer_ex) < 2 ^ 62) /\
  StoreStatus_Size status_ex =
    Ret (Z.of_nat (length (storeStatusBytes [8; 1] (Metrics status_ex)))) /\
  StoreStatus_MarshalTo status_ex buffer_ex =
    Ret (storeStatusBytes [8; 1] (Metrics status_ex)
           ++ drop (length (storeStatusBytes [8; 1] (Metrics status_ex)))
                buffer_ex,
         (Z.of_nat (length (storeStatusBytes [8; 1] (Metrics status_ex))), None)).
Proof.
  assert (descriptorBytes (Desc status_ex) [8; 1] /\
          float64Values (Metrics status_ex) /\
          (length (storeStatusBytes (Desc status_ex) (Metrics status_ex))
             <= length buffer_ex)%nat /\
          Z.of_nat (length buffer_ex) < 2 ^ 62) as H.
  { refine (conj (bytesMessage_descriptorBytes _)
              (conj status_ex_float64Values (conj _ _))).
    - vm_compute. lia.
    - by vm_compute. }
  split; [exact H|].
  destruct H as (H1 & H2 & H3 & H4).
  exact (X22_MarshalTo_writes_Size_bytes status_ex [8; 1] buffer_ex
           H1 H2 H3 H4).
Defined.

(** X23.  [StoreStatus.Marshal] neither panics nor fails for a descriptor
    with the wire form [desc]: it returns exactly the wire form of the
    status, a slice of as many bytes as [Size] returns. *)
Theorem X23_Marshal_returns_the_wire_form {D} `{!Message D} (m : StoreStatus D)
    (desc : list Z) :
  descriptorBytes (Desc m) desc ->
  float64Values (Metrics m) ->
  Z.of_nat (length (storeStatusBytes desc (Metrics m))) < 2 ^ 62 ->
  StoreStatus_Marshal m = Ret (Some (storeStatusBytes desc (Metrics m)), None) /\
  StoreStatus_Size m = Ret (Z.of_nat (length (storeStatusBytes desc (Metrics m)))).
Proof.
  intros Hdesc Hvals Hlen. split.
  - by apply StoreStatus_Marshal_storeStatusBytes.
  - apply StoreStatus_Size_storeStatusBytes; [apply Hdesc | done].
Qed.

Lemma X23_Marshal_witness :
  (descriptorBytes (Desc status_ex) [8; 1] /\
   float64Values (Metrics status_ex) /\
   Z.of_nat (length (storeStatusBytes [8; 1] (Metrics status_ex))) < 2 ^ 62) /\
  StoreStatus_Marshal status_ex =
    Ret (Some (storeStatusBytes [8; 1] (Metrics status_ex)), None) /\
  StoreStatus_Size status_ex =
    Ret (Z.of_nat (length (storeStatusBytes [8; 1] (Metrics status_ex)))).
Proof.
  assert (descriptorBytes (Desc status_ex) [8; 1] /\
          float64Values (Metrics status_ex) /\
          Z.of_nat (length (storeStatusBytes [8; 1] (Metrics status_ex))) < 2 ^ 62)
    as H.
  { refine (conj (bytesMessage_descriptorBytes _)
              (conj status_ex_float64Values _)). by vm_compute. }
  split; [exact H|].
  destruct H as (H1 & H2 & H3).
  exact (X23_Marshal_returns_the_wire_form status_ex [8; 1] H1 H2 H3).
Defined.

(** X24.  [Unmarshal] reads back what [Marshal] wrote: on the bytes
    [Marshal] returns for a status, [Unmarshal] into a message returns no
    error and leaves the descriptor that the descriptor's own [Unmarshal]
    gives for the descriptor's bytes, and a map with the entries of the
    status and, for the other keys, the entries the message had; the map of
    the message stays as it was when the status has no entry.  Into a
    message with a nil map this is the map of the status, or nil when it
    is empty. *)
Theorem X24_Unmarshal_reads_back_Marshal {D} `{!Message D} (m m0 : StoreStatus D)
    (desc : list Z) (d : D) :
  descriptorBytes (Desc m) desc ->
  Unmarshal (Desc m0) desc = Ret (d, None) ->
  float64Values (Metrics m) ->
  Z.of_nat (length (storeStatusBytes desc (Metrics m))) < 2 ^ 62 ->
  exists dAtA,
    StoreStatus_Marshal m = Ret (Some dAtA, None) /\
    StoreStatus_Unmarshal m0 dAtA =
      Ret (mkStoreStatus d (mergedMetrics (Metrics m) (Metrics m0)), None) /\
    (Metrics m0 = None ->
     mergedMetrics (Metrics m) (Metrics m0) =
     match Metrics m with
     | Some metrics => if decide (metrics = ∅) then None else Some metrics
     | None => None
     end).
Proof.
  intros Hdesc Hun Hvals Hlen. exists (storeStatusBytes desc (Metrics m)).
  refine (conj _ (conj _ _)).
  - by apply StoreStatus_Marshal_storeStatusBytes.
  - by apply StoreStatus_Unmarshal_storeStatusBytes.
  - intros ->. destruct (Metrics m) as [metrics|]; [|done].
    apply mergedMetrics_fresh.
Qed.

Lemma X24_Unmarshal_witness :
  (descriptorBytes (Desc status_ex) [8; 1] /\
   Unmarshal (Desc status_zero) [8; 1] = Ret ([8; 1], None) /\
   float64Values (Metrics status_ex) /\
   Z.of_nat (length (storeStatusBytes [8; 1] (Metrics status_ex))) < 2 ^ 62) /\
  exists dAtA,
    StoreStatus_Marshal status_ex = Ret (Some dAtA, None) /\
    StoreStatus_Unmarshal status_zero dAtA =
      Ret (mkStoreStatus [8; 1]
             (mergedMetrics (Metrics status_ex) (Metrics status_zero)), None) /\
    (Metrics status_zero = None ->
     mergedMetrics (Metrics status_ex) (Metrics status_zero) =
     match Metrics status_ex with
     | Some metrics => if decide (metrics = ∅) then None else Some metrics
     | None => None
     end).
Proof.
  assert (descriptorBytes (Desc status_ex) [8; 1] /\
          Unmarshal (Desc status_zero) [8; 1] = Ret ([8; 1], None) /\
          float64Values (Metrics status_ex) /\
          Z.of_nat (length (storeStatusBytes [8; 1] (Metrics status_ex))) < 2 ^ 62)
    as H.
  { refine (conj (bytesMessage_descriptorBytes _)
              (conj eq_refl (conj status_ex_float64Values _))). by vm_compute. }
  split; [exact H|].
  destruct H as (H1 & H2 & H3 & H4).
  exact (X24_Unmarshal_reads_back_Marshal status_ex status_zero [8; 1] [8; 1]
           H1 H2 H3 H4).
Defined.

(** X25.  [Unmarshal] skips a field it does not know: the wire form of a
    status followed by a well-formed field with a number from 3 on, of any
    wire type, groups included, is read as the wire form alone, without
    error. *)
Theorem X25_Unmarshal_skips_unknown_field {D} `{!Message D} (m0 : StoreStatus D)
    (desc : list Z) (d : D) (metrics : option (gmap string Z)) (f : wireField) :
  Unmarshal (Desc m0) desc = Ret (d, None) ->
  float64Values metrics ->
  wellFormed f = true ->
  3 <= fieldNum f < 2 ^ 31 ->
  Z.of_nat (length (storeStatusBytes desc metrics ++ fieldBytes f)) < 2 ^ 62 ->
  StoreStatus_Unmarshal m0 (storeStatusBytes desc metrics ++ fieldBytes f) =
    Ret (mkStoreStatus d (mergedMetrics metrics (Metrics m0)), None) /\
  StoreStatus_Unmarshal m0 (storeStatusBytes desc metrics) =
    Ret (mkStoreStatus d (mergedMetrics metrics (Metrics m0)), None).
Proof.
  intros Hun Hvals Hwf Hnum Hlen. split.
  - by apply Unmarshal_storeStatusBytes_unknown.
  - apply StoreStatus_Unmarshal_storeStatusBytes; [done | done |].
    rewrite length_app in Hlen. lia.
Qed.

Lemma X25_Unmarshal_witness :
  (Unmarshal (Desc status_zero) [8; 1] = Ret ([8; 1], None) /\
   float64Values (Metrics status_ex) /\
   wellFormed field_nested = true /\
   3 <= fieldNum field_nested < 2 ^ 31 /\
   Z.of_nat (length (storeStatusBytes [8; 1] (Metrics status_ex)
                       ++ fieldBytes field_nested)) < 2 ^ 62) /\
  StoreStatus_Unmarshal status_zero
    (storeStatusBytes [8; 1] (Metrics status_ex) ++ fieldBytes field_nested) =
    Ret (mkStoreStatus [8; 1]
           (mergedMetrics (Metrics status_ex) (Metrics status_zero)), None) /\
  StoreStatus_Unmarshal status_zero (storeStatusBytes [8; 1] (Metrics status_ex)) =
    Ret (mkStoreStatus [8; 1]
           (mergedMetrics (Metrics status_ex) (Metrics status_zero)), None).
Proof.
  assert (Unmarshal (Desc status_zero) [8; 1] = Ret ([8; 1], None) /\
          float64Values (Metrics status_ex) /\
          wellFormed field_nested = true /\
          3 <= fieldNum field_nested < 2 ^ 31 /\
          Z.of_nat (length (storeStatusBytes [8; 1] (Metrics status_ex)
                              ++ fieldBytes field_nested)) < 2 ^ 62) as H.
  { refine (conj eq_refl (conj status_ex_float64Values (conj eq_refl (conj _ _)))).
    - vm_compute. split; [discriminate | done].
    - by vm_compute. }
  split; [exact H|].
  destruct H as (H1 & H2 & H3 & H4 & H5).
  exact (X25_Unmarshal_skips_unknown_field status_zero [8; 1] [8; 1]
           (Metrics status_ex) field_nested H1 H2 H3 H4 H5).
Defined.

(** X26.  [Unmarshal] returns an error, and leaves the message as it was,
    when the input starts with an end-group tag ("wiretype end group for
    non-group"), with a tag of field number 0 ("illegal tag 0", followed by
    the whole tag value as "wire type"), or with the tag of field 1 or 2
    with another wire type than 2 ("wrong wireType = w for field Desc" or
    "Metrics"). *)
Theorem X26_Unmarshal_rejects_tags {D} `{!Message D} (m : StoreStatus D)
    (num w : Z) (rest : list Z) :
  fieldNumber num = true ->
  0 <= w < 8 -> w <> 2 -> w <> 4 ->
  Z.of_nat (length rest) < 2 ^ 62 ->
  StoreStatus_Unmarshal m (tag num 4 ++ rest) =
    Ret (m, Some (Errorf "proto: StoreStatus: wiretype end group for non-group")) /\
  StoreStatus_Unmarshal m (tag 0 w ++ rest) =
    Ret (m, Some (Errorf ("proto: StoreStatus: illegal tag 0 (wire type "
                            +:+ fmt_d w +:+ ")"))) /\
  StoreStatus_Unmarshal m (tag 1 w ++ rest) =
    Ret (m, Some (Errorf ("proto: wrong wireType = " +:+ fmt_d w
                            +:+ " for field Desc"))) /\
  StoreStatus_Unmarshal m (tag 2 w ++ rest) =
    Ret (m, Some (Errorf ("proto: wrong wireType = " +:+ fmt_d w
                            +:+ " for field Metrics"))).
Proof.
  intros Hnum Hw Hw2 Hw4 Hrest.
  assert (forall num', fieldNumber num' = true -> forall w', 0 <= w' < 8 ->
            0 <= 8 * num' + w' < 2 ^ 64 /\
            Z.of_nat (length (tag num' w' ++ rest)) <= max_int) as Hok.
  { intros num' Hnum' w' Hw'.
    pose proof (fieldNumber_tag num' w' Hnum' Hw') as Ht.
    destruct (tag_length num' w' Hnum' Hw') as [Htl Htb].
    split; [done|]. rewrite length_app, Nat2Z.inj_add. unfold max_int. lia. }
  refine (conj _ (conj _ (conj _ _))).
  - destruct (Hok num Hnum 4 ltac:(lia)) as [Ht Hmax]. unfold tag in *.
    rewrite Unmarshal_rejects by done. cbv zeta.
    rewrite tag_mod by lia. by rewrite decide_True by done.
  - destruct (Hok 0 eq_refl w Hw) as [Ht Hmax]. unfold tag in *.
    rewrite Unmarshal_rejects by done. cbv zeta.
    rewrite tag_mod, tag_shiftr by lia. rewrite decide_False by done.
    change (int32 0) with 0. rewrite decide_True by lia.
    by rewrite Z.mul_0_r, Z.add_0_l.
  - destruct (Hok 1 eq_refl w Hw) as [Ht Hmax]. unfold tag in *.
    rewrite Unmarshal_rejects by done. cbv zeta.
    rewrite tag_mod, tag_shiftr by lia. rewrite decide_False by done.
    change (int32 1) with 1. rewrite decide_False by lia.
    by rewrite decide_True by done.
  - destruct (Hok 2 eq_refl w Hw) as [Ht Hmax]. unfold tag in *.
    rewrite Unmarshal_rejects by done. cbv zeta.
    rewrite tag_mod, tag_shiftr by lia. rewrite decide_False by done.
    change (int32 2) with 2. rewrite decide_False by lia.
    rewrite decide_False by lia. by rewrite decide_True by done.
Qed.

Lemma X26_Unmarshal_witness :
  (fieldNumber 5 = true /\ 0 <= 0 < 8 /\ 0 <> 2 /\ 0 <> 4 /\
   Z.of_nat (length [1; 2]) < 2 ^ 62) /\
  StoreStatus_Unmarshal status_ex (tag 5 4 ++ [1; 2]) =
    Ret (status_ex,
         Some (Errorf "proto: StoreStatus: wiretype end group for non-group")) /\
  StoreStatus_Unmarshal status_ex (tag 0 0 ++ [1; 2]) =
    Ret (status_ex,
         Some (Errorf ("proto: StoreStatus: illegal tag 0 (wire type "
                         +:+ fmt_d 0 +:+ ")"))) /\
  StoreStatus_Unmarshal status_ex (tag 1 0 ++ [1; 2]) =
    Ret (status_ex,
         Some (Errorf ("proto: wrong wireType = " +:+ fmt_d 0
                         +:+ " for field Desc"))) /\
  StoreStatus_Unmarshal status_ex (tag 2 0 ++ [1; 2]) =
    Ret (status_ex,
         Some (Errorf ("proto: wrong wireType = " +:+ fmt_d 0
                         +:+ " for field Metrics"))).
Proof.
  assert (fieldNumber 5 = true /\ 0 <= 0 < 8 /\ 0 <> 2 /\ 0 <> 4 /\
          Z.of_nat (length [1; 2]) < 2 ^ 62) as H
    by (refine (conj eq_refl (conj _ (conj _ (conj _ _)))); simpl; lia).
  split; [exact H|].
  destruct H as (H1 & H2 & H3 & H4 & H5).
  exact (X26_Unmarshal_rejects_tags status_ex 5 0 [1; 2] H1 H2 H3 H4 H5).
Defined.

(** X27.  [Unmarshal] does not check the index behind a declared length
    for overflow: a descriptor field whose declared length is next to the
    largest [int] makes it slice the input out of bounds, and a map entry
    with such a length makes it read at a negative index; it panics in both
    cases instead of returning an error. *)
Theorem X27_Unmarshal_length_overflow_panics {D} `{!Message D} (m : StoreStatus D)
    (n : Z) (rest : list Z) :
  2 ^ 63 - 10 <= n < 2 ^ 63 ->
  Z.of_nat (length rest) < 2 ^ 61 ->
  StoreStatus_Unmarshal m ([10] ++ varint n ++ rest) = Panic SliceBoundsOutOfRange /\
  StoreStatus_Unmarshal m ([18] ++ varint n ++ rest) =
    Panic (RuntimeError IndexOutOfRange).
Proof. apply Unmarshal_length_overflow. Qed.

Lemma X27_Unmarshal_witness :
  (2 ^ 63 - 10 <= 2 ^ 63 - 1 < 2 ^ 63 /\ Z.of_nat (length [1; 2]) < 2 ^ 61) /\
  StoreStatus_Unmarshal status_zero ([10] ++ varint (2 ^ 63 - 1) ++ [1; 2]) =
    Panic SliceBoundsOutOfRange /\
  StoreStatus_Unmarshal status_zero ([18] ++ varint (2 ^ 63 - 1) ++ [1; 2]) =
    Panic (RuntimeError IndexOutOfRange).
Proof.
  assert (2 ^ 63 - 10 <= 2 ^ 63 - 1 < 2 ^ 63 /\ Z.of_nat (length [1; 2]) < 2 ^ 61)
    as H by (simpl; lia).
  split; [exact H|].
  destruct H as (H1 & H2).
  exact (X27_Unmarshal_length_overflow_panics status_zero (2 ^ 63 - 1) [1; 2] H1 H2).
Defined.

(** X28.  [Unmarshal] comes to an end on every input of less than [2^62]
    bytes when [Unmarshal] of the descriptor does: every pass through its
    loops moves the index forward or ends the call, so as many passes as
    the input has bytes, and one, are enough; the call returns or
    panics. *)
Theorem X28_Unmarshal_terminates {D} `{!Message D} (m : StoreStatus D)
    (dAtA : list Z) :
  (forall (d : D) b, Unmarshal d b <> OutOfFuel) ->
  Z.of_nat (length dAtA) < 2 ^ 62 ->
  StoreStatus_Unmarshal m dAtA <> OutOfFuel.
Proof.
  intros Hdesc Hlen. unfold StoreStatus_Unmarshal.
  apply Unmarshal_loop_adequate; [done | done |]. right. right. lia.
Qed.

Lemma X28_Unmarshal_witness :
  ((forall (d : list Z) b, Unmarshal d b <> OutOfFuel) /\
   Z.of_nat (length [18; 3; 58; 1; 7; 255]) < 2 ^ 62) /\
  StoreStatus_Unmarshal status_zero [18; 3; 58; 1; 7; 255] <> OutOfFuel.
Proof.
  assert ((forall (d : list Z) b, Unmarshal d b <> OutOfFuel) /\
          Z.of_nat (length [18; 3; 58; 1; 7; 255]) < 2 ^ 62) as H
    by (split; [by intros d b | simpl; lia]).
  split; [exact H|].
  destruct H as (H1 & H2).
  exact (X28_Unmarshal_terminates status_zero [18; 3; 58; 1; 7; 255] H1 H2).
Defined.
